(** * Graph-HMM path search (pathracer cursors, neighbourhood extraction,
      component joining, path materialisation): shallow embedding and proofs.

    Sources embedded here:
    - [projects/pathracer/cursor.hpp]: the Reversal, Restricted and
      OptimizedRestricted cursor decorators;
    - [projects/graph-hmm/main.cpp]: [to_path], [MergeSequences], and the three
      phases of [main]'s loop over a query HMM (neighbourhood extraction,
      component joining, per-component path search);
    - [common/assembly_graph/core/debruijn_data.hpp]: [DeBruijnDataMaster::length]. *)

From Stdlib Require Import ZArith Lia Ascii String.
From stdpp Require Import base option list sets gmap strings.
From Equations Require Import Equations.

Local Open Scope Z_scope.

(** ** Identities and machine integers *)

(** Vertex and edge handles of the assembly graph are opaque integer ids. *)
Definition VertexId := N.
Definition EdgeId := N.

(** [unsigned] is 32 bits wide, [size_t] 64 bits wide; both wrap around. *)
Definition wrap32 (z : Z) : Z := z mod 2 ^ 32.
Definition wrap64 (z : Z) : Z := z mod 2 ^ 64.

(** ** Failure of a run

    Two ways the embedded functions can leave defined behaviour: reading a
    vector through an iterator or index past its last element, and a failed
    [VERIFY], which aborts the process. *)
Inductive failure := OutOfBounds | VerifyFailed.

Inductive outcome (A : Type) :=
| Ok (a : A)
| Fail (f : failure).
Arguments Ok {A} a.
Arguments Fail {A} f.

(** The error monad, through stdpp's [mbind]/[mret]/[fmap] and its
    [x ← m; k]. *)
#[export] Instance outcome_bind : MBind outcome := λ A B k m,
  match m with
  | Ok a => k a
  | Fail f => Fail f
  end.
#[export] Instance outcome_ret : MRet outcome := λ A a, Ok a.
#[export] Instance outcome_fmap : FMap outcome := λ A B f m,
  match m with
  | Ok a => Ok (f a)
  | Fail fl => Fail fl
  end.

(** ** cursor.hpp *)

(** The capability set every cursor type offers to the aligner. [Context] is
    the [typename GraphCursor::Context] member; [is_empty] and [edge] are what
    [to_path] reads from a cursor. *)
Class GraphCursor (C : Type) := {
  Context : Type;
  next : C → Context → list C;
  prev : C → Context → list C;
  letter : C → Context → ascii;
  is_empty : C → bool;
  edge : C → EdgeId;
}.
Arguments Context C {_}.
Hint Mode GraphCursor ! : typeclass_instances.

(** [ReversalGraphCursor<GraphCursor>] derives from [GraphCursor] and adds no
    member: a value is its base sub-object. *)
Record ReversalGraphCursor (C : Type) := Reversal { reversal_base : C }.
Arguments Reversal {C} _.
Arguments reversal_base {C} _.

(** [RestrictedGraphCursor<GraphCursor>]: the base sub-object and [pspace_],
    the pointer to the (read-only) search space. *)
Record RestrictedGraphCursor (C : Type) `{Countable C} := Restricted {
  restricted_base : C;
  pspace_ : gset C;
}.
Arguments Restricted {C _ _} _ _.
Arguments restricted_base {C _ _} _.
Arguments pspace_ {C _ _} _.

(** [OptimizedRestrictedGraphCursor<GraphCursor>] carries no space of its own. *)
Record OptimizedRestrictedGraphCursor (C : Type) := OptimizedRestricted {
  optimized_base : C;
}.
Arguments OptimizedRestricted {C} _.
Arguments optimized_base {C} _.

(** [OptimizedRestrictedGraphCursorContext<GraphCursor>]: {space, context}. *)
Record OptimizedRestrictedGraphCursorContext (C : Type)
    `{Countable C} `{GraphCursor C} := {
  space : gset C;
  context : Context C;
}.
Arguments space {C _ _ _} _.
Arguments context {C _ _ _} _.

Section cursor_hpp.
Context {C : Type} `{Countable C} `{GraphCursor C}.

(** [ReversalGraphCursor::next] / [prev]: the result vector is built from
    the base result by the range constructor, element by element. *)
Definition Reversal_next (c : ReversalGraphCursor C) (x : Context C)
    : list (ReversalGraphCursor C) :=
  let result := prev (reversal_base c) x in
  map Reversal result.

Definition Reversal_prev (c : ReversalGraphCursor C) (x : Context C)
    : list (ReversalGraphCursor C) :=
  let result := next (reversal_base c) x in
  map Reversal result.

(** [RestrictedGraphCursor::filter_]: one pass over [v], pushing the
    cursors counted in the space. *)
Fixpoint Restricted_filter_ (pspace : gset C) (v : list C)
    : list (RestrictedGraphCursor C) :=
  match v with
  | [] => []
  | cursor :: v' =>
      if bool_decide (cursor ∈ pspace)
      then Restricted cursor pspace :: Restricted_filter_ pspace v'
      else Restricted_filter_ pspace v'
  end.

Definition Restricted_next (c : RestrictedGraphCursor C) (x : Context C)
    : list (RestrictedGraphCursor C) :=
  Restricted_filter_ (pspace_ c) (next (restricted_base c) x).

Definition Restricted_prev (c : RestrictedGraphCursor C) (x : Context C)
    : list (RestrictedGraphCursor C) :=
  Restricted_filter_ (pspace_ c) (prev (restricted_base c) x).

(** [make_restricted_cursors] *)
Definition make_restricted_cursors (cursors : list C) (sp : gset C)
    : list (RestrictedGraphCursor C) :=
  map (λ cursor, Restricted cursor sp) cursors.

(** [OptimizedRestrictedGraphCursor::filter_] *)
Fixpoint Optimized_filter_ (v : list C) (sp : gset C)
    : list (OptimizedRestrictedGraphCursor C) :=
  match v with
  | [] => []
  | cursor :: v' =>
      if bool_decide (cursor ∈ sp)
      then OptimizedRestricted cursor :: Optimized_filter_ v' sp
      else Optimized_filter_ v' sp
  end.

Definition Optimized_next (c : OptimizedRestrictedGraphCursor C)
    (x : OptimizedRestrictedGraphCursorContext C)
    : list (OptimizedRestrictedGraphCursor C) :=
  Optimized_filter_ (next (optimized_base c) (context x)) (space x).

Definition Optimized_prev (c : OptimizedRestrictedGraphCursor C)
    (x : OptimizedRestrictedGraphCursorContext C)
    : list (OptimizedRestrictedGraphCursor C) :=
  Optimized_filter_ (prev (optimized_base c) (context x)) (space x).

Definition Optimized_letter (c : OptimizedRestrictedGraphCursor C)
    (x : OptimizedRestrictedGraphCursorContext C) : ascii :=
  letter (optimized_base c) (context x).

(** [make_optimized_restricted_cursor_context] *)
Definition make_optimized_restricted_cursor_context (sp : gset C)
    (x : Context C) : OptimizedRestrictedGraphCursorContext C :=
  {| space := sp; context := x |}.

(** [make_optimized_restricted_cursors] *)
Definition make_optimized_restricted_cursors (cursors : list C)
    : list (OptimizedRestrictedGraphCursor C) :=
  map OptimizedRestricted cursors.

(** The decorated types are cursors again; everything a decorator does not
    override is inherited from the base sub-object. *)
#[export] Instance Reversal_cursor : GraphCursor (ReversalGraphCursor C) := {|
  Context := Context C;
  next := Reversal_next;
  prev := Reversal_prev;
  letter c x := letter (reversal_base c) x;
  is_empty c := is_empty (reversal_base c);
  edge c := edge (reversal_base c);
|}.

#[export] Instance Restricted_cursor : GraphCursor (RestrictedGraphCursor C) := {|
  Context := Context C;
  next := Restricted_next;
  prev := Restricted_prev;
  letter c x := letter (restricted_base c) x;
  is_empty c := is_empty (restricted_base c);
  edge c := edge (restricted_base c);
|}.

#[export] Instance Optimized_cursor
    : GraphCursor (OptimizedRestrictedGraphCursor C) := {|
  Context := OptimizedRestrictedGraphCursorContext C;
  next := Optimized_next;
  prev := Optimized_prev;
  letter := Optimized_letter;
  is_empty c := is_empty (optimized_base c);
  edge c := edge (optimized_base c);
|}.
End cursor_hpp.

(** [std::hash<ReversalGraphCursor<GraphCursor>>] is the hash of the base
    sub-object, and equality is the base's: reversed cursors can be kept in an
    unordered set (a search space) just as their base cursors. *)
#[export] Instance ReversalGraphCursor_eq_dec {C : Type} `{EqDecision C}
    : EqDecision (ReversalGraphCursor C).
Proof. solve_decision. Defined.

#[export] Instance ReversalGraphCursor_countable {C : Type} `{Countable C}
    : Countable (ReversalGraphCursor C) :=
  inj_countable' (reversal_base (C := C)) Reversal (λ c, match c with Reversal _ => eq_refl end).

(** ** main.cpp: [to_path] *)

Section to_path.
Context {C : Type} `{GraphCursor C}.

(** [while (it->is_empty()) ++it;] The iterator is the part of [cpath] not
    yet passed; the loop has no test against [cpath.end()], so on an
    exhausted iterator it reads past the last element. *)
Fixpoint skip_leading_empty (it : list C) : outcome (list C) :=
  match it with
  | [] => Fail OutOfBounds
  | c :: it' => if is_empty c then skip_leading_empty it' else Ok it
  end.

(** One iteration of the [for] loop's body. *)
Definition to_path_step (path : list EdgeId) (c : C) : list EdgeId :=
  if is_empty c then path
  else if bool_decide (length path = 0%nat)
          || bool_decide (Some (edge c) ≠ last path)
       then path ++ [edge c]
       else path.

Definition to_path (cpath : list C) : outcome (list EdgeId) :=
  it ← skip_leading_empty cpath;
  mret (foldl to_path_step [] it).
End to_path.

(** ** The graph substrate, as far as [main.cpp] reads it *)

Inductive nucleotide := nA | nC | nG | nT.
Definition Sequence := list nucleotide.

(** [k_] is the k-mer order ([unsigned]); every edge carries its nucleotide
    sequence and runs from its start vertex to its end vertex. *)
Record ConjugateDeBruijnGraph := {
  k_ : Z;
  EdgeStart : EdgeId → VertexId;
  EdgeEnd : EdgeId → VertexId;
  EdgeNucls : EdgeId → Sequence;
}.

(** ** debruijn_data.hpp: [DeBruijnDataMaster::length(const EdgeData&)]

    [data.nucls().size() - k_], computed in [size_t]. *)
Definition DeBruijnDataMaster_length (g : ConjugateDeBruijnGraph) (e : EdgeId) : Z :=
  wrap64 (Z.of_nat (length (EdgeNucls g e)) - k_ g).

(** ** debruijn_data.hpp: [CoverageData]

    [coverage_] is a [uint32_t]. *)
Record CoverageData := { coverage_ : Z }.

(** [CoverageData()] *)
Definition CoverageData_new : CoverageData := {| coverage_ := 0 |}.

(** [inc_coverage(int value)]: the [VERIFY] compares [coverage_] with the
    negated value converted to [unsigned]; the sum is formed in [unsigned].
    (For the least [int] the negation itself overflows; the conversion is
    written here as it comes out in two's complement.) *)
Definition inc_coverage (c : CoverageData) (value : Z) : outcome CoverageData :=
  if bool_decide (value >= 0) || bool_decide (coverage_ c > wrap32 (- value))
  then Ok {| coverage_ := wrap32 (coverage_ c + value) |}
  else Fail VerifyFailed.

Definition set_coverage (c : CoverageData) (coverage : Z) : CoverageData :=
  {| coverage_ := coverage |}.

Definition coverage (c : CoverageData) : Z := coverage_ c.

(** ** debruijn_data.hpp: [DeBruijnEdgeData] and [DeBruijnVertexData] *)
Record DeBruijnEdgeData := {
  edge_coverage_ : CoverageData;
  flanking_cov_ : CoverageData;
  nucls_ : Sequence;
}.

(** [explicit DeBruijnEdgeData(const Sequence &nucls)] *)
Definition EdgeData (nucls : Sequence) : DeBruijnEdgeData :=
  {| edge_coverage_ := CoverageData_new; flanking_cov_ := CoverageData_new;
     nucls_ := nucls |}.

Definition inc_raw_coverage (d : DeBruijnEdgeData) (value : Z)
    : outcome DeBruijnEdgeData :=
  c ← inc_coverage (edge_coverage_ d) value;
  mret {| edge_coverage_ := c; flanking_cov_ := flanking_cov_ d;
          nucls_ := nucls_ d |}.

Definition raw_coverage (d : DeBruijnEdgeData) : Z :=
  coverage (edge_coverage_ d).

Definition inc_flanking_coverage (d : DeBruijnEdgeData) (value : Z)
    : outcome DeBruijnEdgeData :=
  c ← inc_coverage (flanking_cov_ d) value;
  mret {| edge_coverage_ := edge_coverage_ d; flanking_cov_ := c;
          nucls_ := nucls_ d |}.

Definition flanking_coverage (d : DeBruijnEdgeData) : Z :=
  coverage (flanking_cov_ d).

(** [struct Link] *)
Record Link := { link : EdgeId * EdgeId; link_overlap : Z }.

(** The two kinds of vertex data. The links of a complex overlap live in a
    storage object on the heap, reached through a tagged pointer; only the
    constructors are embedded. *)
Inductive DeBruijnVertexData :=
| ComplexOverlap (links : list Link)
| ExplicitOverlap (overlap : Z).

(** [explicit DeBruijnVertexData(unsigned overlap = 0)] *)
Definition VertexData (overlap : Z) : DeBruijnVertexData := ExplicitOverlap overlap.

(** ** debruijn_data.hpp: [DeBruijnDataMaster] *)

(** [length(const EdgeData&)], in [size_t]. *)
Definition EdgeData_length (k : Z) (data : DeBruijnEdgeData) : Z :=
  wrap64 (Z.of_nat (length (nucls_ data)) - k).

(** [GlueData] *)
Definition GlueData (data1 data2 : DeBruijnEdgeData) : DeBruijnEdgeData := data2.

Section SplitData.
(** [Sequence::Subseq(from, to)] of sequence/sequence.hpp is not among the
    sources; it is a parameter here. *)
Variable Subseq : Sequence → Z → Z → Sequence.

(** [SplitData(edge, position, is_self_conj)] for k-mer order [k]. *)
Definition SplitData (k : Z) (edge : DeBruijnEdgeData) (position : Z)
    (is_self_conj : bool)
    : outcome (DeBruijnVertexData * (DeBruijnEdgeData * DeBruijnEdgeData)) :=
  let nucls := nucls_ edge in
  let end_ := Z.of_nat (length nucls) in
  end' ← (if is_self_conj
          then if bool_decide (position < end_)
               then Ok (wrap64 (end_ - position))
               else Fail VerifyFailed
          else Ok end_);
  mret (VertexData 0,
        (EdgeData (Subseq (nucls_ edge) 0 (wrap64 (position + k))),
         EdgeData (Subseq nucls position end'))).
End SplitData.

(** ** main.cpp: [matched_edges] *)

(** [std::to_string] of a [size_t]: the decimal digits, most significant
    first, no leading zero. A [size_t] has at most 20 of them. *)
Definition digit_char (d : Z) : ascii := ascii_of_N (Z.to_N (48 + d)).

Fixpoint to_string_loop (fuel : nat) (n : Z) (acc : string) : string :=
  match fuel with
  | O => acc
  | S fuel' =>
      let acc' := String (digit_char (n mod 10)) acc in
      if bool_decide (n / 10 = 0) then acc'
      else to_string_loop fuel' (n / 10) acc'
  end.

Definition to_string (n : Z) : string := to_string_loop 20 n EmptyString.

(** [std::stoull(str)] (base 10, no position wanted): white space is
    skipped, a sign is accepted, and the longest run of digits is converted;
    without a digit it throws [invalid_argument], beyond [unsigned long long]
    it throws [out_of_range]. *)
Inductive stoull_result :=
| Converted (value : Z)
| invalid_argument
| out_of_range.

Definition isspace (c : ascii) : bool :=
  let n := N_of_ascii c in
  N.eqb n 32 || (N.leb 9 n && N.leb n 13).

Fixpoint skip_spaces (s : string) : string :=
  match s with
  | String c s' => if isspace c then skip_spaces s' else s
  | EmptyString => s
  end.

Definition digit_value (c : ascii) : option Z :=
  let n := N_of_ascii c in
  if N.leb 48 n && N.leb n 57 then Some (Z.of_N n - 48) else None.

Fixpoint digits_value (s : string) (acc : Z) : Z :=
  match s with
  | String c s' =>
      match digit_value c with
      | Some d => digits_value s' (10 * acc + d)
      | None => acc
      end
  | EmptyString => acc
  end.

Definition stoull (str : string) : stoull_result :=
  let s := skip_spaces str in
  let signed :=
    match s with
    | String "-"%char s' => (true, s')
    | String "+"%char s' => (false, s')
    | _ => (false, s)
    end in
  match signed.2 with
  | String c _ =>
      match digit_value c with
      | Some _ =>
          let v := digits_value signed.2 0 in
          if bool_decide (v < 2 ^ 64)
          then Converted (if signed.1 then wrap64 (- v) else v)
          else out_of_range
      | None => invalid_argument
      end
  | EmptyString => invalid_argument
  end.

(** The names under which [matched_edges] hands edge [edges[i]] to the
    matcher: [std::to_string(i)] for a nucleotide model, and
    [ref + "_" + std::to_string(shift)] for each reading frame of an
    amino-acid model. *)
Definition ref (i : Z) : string := to_string i.
Definition ref_shift (i shift : Z) : string :=
  (ref i ++ "_" ++ to_string shift)%string.

(** What [matched_edges] reads from a hit of the matcher and from a domain
    of a hit. *)
Record Domain := {
  seqpos : Z * Z;
  hmmpos : Z * Z;
  domain_M : Z;
  domain_L : Z;
}.

Record Hit := {
  reported : bool;
  included : bool;
  name : string;
  domains : list Domain;
}.

(** How [matched_edges] can end: it returns, it reads [edges] out of bounds,
    or [std::stoull] throws. *)
Inductive matched_edges_run (A : Type) :=
| Returned (a : A)
| Undefined (f : failure)
| Threw (e : stoull_result).
Arguments Returned {A} a.
Arguments Undefined {A} f.
Arguments Threw {A} e.

(** [roverhang] and [loverhang] of a domain (signed arithmetic, taken exact). *)
Definition roverhang (d : Domain) : Z :=
  Z.max ((domain_M d - (hmmpos d).2) - (domain_L d - (seqpos d).2)) 0.
Definition loverhang (d : Domain) : Z :=
  Z.max ((hmmpos d).1 - (seqpos d).1) 0.

(** The body of the loop over the domains of a hit on edge [e];
    [match_edges[e]] creates the entry (0, 0) when there is none. *)
Definition update_entry (entry : Z * Z) (d : Domain) : Z * Z :=
  (if bool_decide (entry.1 < loverhang d) then wrap32 (loverhang d) else entry.1,
   if bool_decide (entry.2 < roverhang d) then wrap32 (roverhang d) else entry.2).

Fixpoint domains_loop (e : EdgeId) (ds : list Domain)
    (match_edges : gmap EdgeId (Z * Z)) : gmap EdgeId (Z * Z) :=
  match ds with
  | [] => match_edges
  | d :: ds' =>
      let entry := default (0, 0) (match_edges !! e) in
      domains_loop e ds' (<[e := update_entry entry d]> match_edges)
  end.

(** The loop over [matcher.hits()]. *)
Fixpoint hits_loop (edges : list EdgeId) (hits : list Hit)
    (match_edges : gmap EdgeId (Z * Z))
    : matched_edges_run (gmap EdgeId (Z * Z)) :=
  match hits with
  | [] => Returned match_edges
  | hit :: hits' =>
      if negb (reported hit) || negb (included hit)
      then hits_loop edges hits' match_edges
      else match stoull (name hit) with
           | Converted i =>
               match edges !! Z.to_nat i with
               | Some e =>
                   hits_loop edges hits'
                     (domains_loop e (domains hit) match_edges)
               | None => Undefined OutOfBounds
               end
           | thrown => Threw thrown
           end
  end.

(** ** main.cpp: [MergeSequences] *)

(** Modelled from the spec: [MergeOverlappingSequences] (declared in
    sequence/sequence_tools.hpp, which is not among the sources). The spec
    asks that merging adjacent edge sequences "overlap each consecutive pair
    by exactly k residues": the first sequence is taken whole and every later
    one contributes what follows its first [overlap] residues. *)
Definition MergeOverlappingSequences (ss : list Sequence) (overlap : Z) : Sequence :=
  match ss with
  | [] => []
  | s :: ss' => s ++ concat (map (drop (Z.to_nat overlap)) ss')
  end.

(** The [for] loop of [MergeSequences]: [prev_edge] is [continuous_path[i - 1]]
    and [rest] the edges from index [i] on. *)
Fixpoint MergeSequences_loop (g : ConjugateDeBruijnGraph) (prev_edge : EdgeId)
    (rest : list EdgeId) (path_sequences : list Sequence) : outcome (list Sequence) :=
  match rest with
  | [] => mret path_sequences
  | e :: rest' =>
      if bool_decide (EdgeEnd g prev_edge = EdgeStart g e)
      then MergeSequences_loop g e rest' (path_sequences ++ [EdgeNucls g e])
      else Fail VerifyFailed
  end.

Definition MergeSequences (g : ConjugateDeBruijnGraph)
    (continuous_path : list EdgeId) : outcome Sequence :=
  match continuous_path with
  | [] => Fail OutOfBounds
  | e0 :: rest =>
      path_sequences ← MergeSequences_loop g e0 rest [EdgeNucls g e0];
      mret (MergeOverlappingSequences path_sequences (k_ g))
  end.

(** ** main.cpp: neighbourhood extraction *)

(** A record of every bounded Dijkstra run that the extraction starts. *)
Inductive traversal :=
| ForwardDijkstra (bound : Z) (start : VertexId)
| BackwardDijkstra (bound : Z) (start : VertexId).

(** [size_t mult = (hmm_in_aas ? 6 : 2);] *)
Definition mult (hmm_in_aas : bool) : Z := if hmm_in_aas then 6 else 2.

(** [overhangs.first *= mult]: the product is formed in [size_t] and stored
    back into an [unsigned]. *)
Definition scale_overhang (overhang : Z) (hmm_in_aas : bool) : Z :=
  wrap32 (wrap64 (overhang * mult hmm_in_aas)).

Section neighbourhood_extraction.
(** The edge-bounded Dijkstra of the substrate:
    [Create(Backward)EdgeBoundedDijkstra(graph, bound)], [Run(v)],
    [ReachedVertices()]. *)
Variable graph : ConjugateDeBruijnGraph.
Variable ForwardReachedVertices : Z → VertexId → list VertexId.
Variable BackwardReachedVertices : Z → VertexId → list VertexId.

(** The body of the loop over [matched_edges(...)]: the vertex set stored at
    [neighbourhoods[e]], and the Dijkstra runs it took, in order. *)
Definition extract_neighbourhood (hmm_in_aas : bool)
    (entry : EdgeId * (Z * Z)) : gset VertexId * list traversal :=
  let e := entry.1 in
  let first := scale_overhang entry.2.1 hmm_in_aas in
  let second := scale_overhang entry.2.2 hmm_in_aas in
  let fvertices :=
    if bool_decide (0 < second)
    then ForwardReachedVertices second (EdgeEnd graph e) else [] in
  let bvertices :=
    if bool_decide (0 < first)
    then BackwardReachedVertices first (EdgeStart graph e) else [] in
  let fruns :=
    if bool_decide (0 < second)
    then [ForwardDijkstra second (EdgeEnd graph e)] else [] in
  let bruns :=
    if bool_decide (0 < first)
    then [BackwardDijkstra first (EdgeStart graph e)] else [] in
  ({[EdgeStart graph e]} ∪ ({[EdgeEnd graph e]} ∪
     (list_to_set bvertices ∪ (list_to_set fvertices ∪ ∅))),
   fruns ++ bruns).

(** All of [neighbourhoods] after the loop. The entries are listed in the
    order of the matched edges; the iteration order of the unordered map is
    the implementation's and what follows assumes nothing about it. *)
Definition extract_neighbourhoods (hmm_in_aas : bool)
    (matched : list (EdgeId * (Z * Z))) : list (EdgeId * gset VertexId) :=
  map (λ entry, (entry.1, (extract_neighbourhood hmm_in_aas entry).1)) matched.
End neighbourhood_extraction.

(** ** main.cpp: joining components

    [neighbourhoods] is the unordered map listed in its iteration order;
    erasing an element keeps the order of the others. *)

(** The inner loop for one [it]: [acc] is [it->second], [to_check] the entries
    from [std::next(it)] on. Returns the grown [it->second] and the entries
    that were not erased. *)
Fixpoint absorb (graph : ConjugateDeBruijnGraph) (acc : gset VertexId)
    (to_check : list (EdgeId * gset VertexId))
    : gset VertexId * list (EdgeId * gset VertexId) :=
  match to_check with
  | [] => (acc, [])
  | entry :: to_check' =>
      let vstart := EdgeStart graph entry.1 in
      let vend := EdgeEnd graph entry.1 in
      if bool_decide (vstart ∈ acc) || bool_decide (vend ∈ acc)
      then absorb graph (acc ∪ entry.2) to_check'
      else (let r := absorb graph acc to_check' in (r.1, entry :: r.2))
  end.

(** The outer loop: the first entry absorbs what it can of the later ones,
    then the loop moves on to the next entry still in the map. *)
Equations? join (graph : ConjugateDeBruijnGraph)
    (neighbourhoods : list (EdgeId * gset VertexId))
    : list (EdgeId * gset VertexId) by wf (length neighbourhoods) lt :=
join graph [] := [];
join graph (it :: to_check) :=
  (it.1, (absorb graph it.2 to_check).1)
    :: join graph (absorb graph it.2 to_check).2.
Proof.
  assert (∀ l acc, (length (absorb graph acc l).2 ≤ length l)%nat) as Hlen.
  { induction l as [|entry l IH]; intros acc; simpl; [lia|].
    destruct (_ || _); simpl.
    - specialize (IH (acc ∪ entry.2)). lia.
    - specialize (IH acc). lia. }
  match goal with
  | |- context [absorb _ ?acc ?l] => specialize (Hlen l acc)
  end.
  simpl in *. lia.
Qed.

(** ** main.cpp: the per-component path search *)

Record cfg := {
  cfg_top : Z;
  min_size : Z;
  max_size : Z;
  draw : bool;
}.

Record PathInfo := {
  leader : EdgeId;
  priority : Z;
  seq_ : string;
  path_ : list EdgeId;
}.

(** What a run leaves behind besides [results]: the warning for an oversized
    component, the picture of a component, and each call of the aligner
    ([find_best_path] on the initial cursors of the component). *)
Inductive event :=
| WarnTooLarge (e : EdgeId) (halved_size : Z)
| DrawComponent (e : EdgeId)
| FindBestPath (e : EdgeId) (component : gset VertexId) (hmm_in_aas : bool).

Record driver_state := {
  results : list PathInfo;
  events : list event;
}.

(** The loop of [run_search] over [top_paths]; [idx] is a [size_t] and is
    stored as the [unsigned] priority. *)
Fixpoint run_search_loop {C : Type} `{GraphCursor C} (e : EdgeId) (idx : Z)
    (top_paths : list (list C * string)) (local_results : list PathInfo)
    : outcome (list PathInfo) :=
  match top_paths with
  | [] => mret local_results
  | kv :: top_paths' =>
      p ← to_path kv.1;
      run_search_loop e (wrap64 (idx + 1)) top_paths'
        (local_results ++
           [{| leader := e; priority := wrap32 idx; seq_ := kv.2; path_ := p |}])
  end.

(** [std::unordered_set<std::vector<EdgeId>> paths]: the distinct edge paths
    of one component's results. *)
Definition unique_paths (local_results : list PathInfo) : gset (list EdgeId) :=
  list_to_set (path_ <$> local_results).

Section path_search.
(** The collaborators of the driver: the edge count of the component built
    from a vertex set ([GraphComponent::FromVertices(...).e_size()]), and the
    aligner's answer ([find_best_path(fees, initial).top_k(top)], each path
    with its string) for nucleotide cursors and for amino-acid cursors. *)
Context {Cnt Caa : Type} `{GraphCursor Cnt} `{GraphCursor Caa}.
Variable e_size : gset VertexId → Z.
Variable top_k_nt : gset VertexId → Z → list (list Cnt * string).
Variable top_k_aa : gset VertexId → Z → list (list Caa * string).
Variable config : cfg.

(** The body of [for (const auto &kv : neighbourhoods)]. *)
Definition search_component (hmm_in_aas : bool)
    (kv : EdgeId * gset VertexId) (st : driver_state) : outcome driver_state :=
  let e := kv.1 in
  if bool_decide (e_size kv.2 / 2 < min_size config) then
    mret {| results := results st ++
                       [{| leader := e; priority := 0; seq_ := EmptyString;
                           path_ := [e] |}];
            events := events st |}
  else if bool_decide (e_size kv.2 / 2 > max_size config) then
    mret {| results := results st;
            events := events st ++ [WarnTooLarge e (e_size kv.2 / 2)] |}
  else
    let drawn := if draw config then [DrawComponent e] else [] in
    local_results ←
      (if hmm_in_aas
       then run_search_loop e 0 (top_k_aa kv.2 (cfg_top config)) []
       else run_search_loop e 0 (top_k_nt kv.2 (cfg_top config)) []);
    mret {| results := results st ++ local_results;
            events := events st ++ drawn ++ [FindBestPath e kv.2 hmm_in_aas] |}.

Fixpoint search_components (hmm_in_aas : bool)
    (neighbourhoods : list (EdgeId * gset VertexId)) (st : driver_state)
    : outcome driver_state :=
  match neighbourhoods with
  | [] => mret st
  | kv :: neighbourhoods' =>
      st' ← search_component hmm_in_aas kv st;
      search_components hmm_in_aas neighbourhoods' st'
  end.
End path_search.

(** ** io_support.cpp: [ScaffoldBreaker::SplitPath]

    A path is read through [path[i]], [GapAt(i)], [TrashPreviousAt(i)] and
    [TrashCurrentAt(i)]: a sequence of elements. *)
Record PathElement := {
  element_edge : EdgeId;
  gap : Z;
  trash_previous : Z;
  trash_current : Z;
}.

(** A path under construction: [new BidirectionalPath(path.graph(), path[i])]
    holds one edge; every [PushBack] adds an element with its gap and trash
    values. *)
Definition Piece : Type := EdgeId * list PathElement.

(** The inner loop: elements are pushed while their gap does not exceed
    [min_gap_]. Returns what was pushed and what is left of the path. *)
Fixpoint SplitPath_push (min_gap : Z) (rest : list PathElement)
    : list PathElement * list PathElement :=
  match rest with
  | [] => ([], [])
  | x :: rest' =>
      if bool_decide (gap x ≤ min_gap)
      then (let r := SplitPath_push min_gap rest' in (x :: r.1, r.2))
      else ([], rest)
  end.

(** The outer loop; [result.AddPair(p, cp)] stores each new path with its
    conjugate, which [Conjugate] stands for. *)
Equations? SplitPath (Conjugate : Piece → Piece) (min_gap : Z)
    (path : list PathElement) (result : list (Piece * Piece))
    : list (Piece * Piece) by wf (length path) lt :=
SplitPath Conjugate min_gap [] result := result;
SplitPath Conjugate min_gap (x :: rest) result :=
  let p := (element_edge x, (SplitPath_push min_gap rest).1) in
  SplitPath Conjugate min_gap (SplitPath_push min_gap rest).2
    (result ++ [(p, Conjugate p)]).
Proof.
  assert (∀ xs, (length (SplitPath_push min_gap xs).2 ≤ length xs)%nat) as Hlen.
  { intros xs. induction xs as [|y xs IH]; [simpl; lia|].
    cbn [SplitPath_push]. case_bool_decide; cbv zeta; cbn [snd length]; lia. }
  match goal with
  | |- context [SplitPath_push _ ?xs] => specialize (Hlen xs)
  end.
  simpl in *. lia.
Qed.

(** ** io_support.cpp: [TranscriptToGeneJoiner]

    [parents_] and [ranks_] are vectors of [size_t]; [path_id_] maps the
    address of a path to its number. *)
Record TranscriptToGeneJoiner := {
  parents_ : list nat;
  ranks_ : list Z;
  path_id_ : gmap N nat;
}.

(** [MakeSet(x)] *)
Definition MakeSet (x : nat) (j : TranscriptToGeneJoiner)
    : outcome TranscriptToGeneJoiner :=
  if bool_decide (x < length (parents_ j))%nat
     && bool_decide (x < length (ranks_ j))%nat
  then Ok {| parents_ := <[x := x]> (parents_ j);
             ranks_ := <[x := 0]> (ranks_ j);
             path_id_ := path_id_ j |}
  else Fail OutOfBounds.

(** [FindTree(x)], with path compression. The recursion follows the parent
    pointers; [fuel] bounds its depth, and [None] stands for a recursion
    deeper than that. *)
Fixpoint FindTree (fuel : nat) (x : nat) (j : TranscriptToGeneJoiner)
    : option (outcome (TranscriptToGeneJoiner * nat)) :=
  match fuel with
  | O => None
  | S fuel' =>
      match parents_ j !! x with
      | None => Some (Fail OutOfBounds)
      | Some parent =>
          if bool_decide (x = parent) then Some (Ok (j, x))
          else match FindTree fuel' parent j with
               | Some (Ok (j', root)) =>
                   Some (Ok ({| parents_ := <[x := root]> (parents_ j');
                                ranks_ := ranks_ j';
                                path_id_ := path_id_ j' |}, root))
               | other => other
               end
      end
  end.

(** [JoinTrees(x, y)] *)
Definition JoinTrees (fuel : nat) (x y : nat) (j : TranscriptToGeneJoiner)
    : option (outcome TranscriptToGeneJoiner) :=
  match FindTree fuel x j with
  | Some (Ok (j1, x')) =>
      match FindTree fuel y j1 with
      | Some (Ok (j2, y')) =>
          if bool_decide (x' ≠ y')
          then match ranks_ j2 !! x', ranks_ j2 !! y' with
               | Some rx, Some ry =>
                   Some (Ok {|
                     parents_ := if bool_decide (rx < ry)
                                 then <[x' := y']> (parents_ j2)
                                 else <[y' := x']> (parents_ j2);
                     ranks_ := if bool_decide (rx = ry)
                               then <[x' := wrap64 (rx + 1)]> (ranks_ j2)
                               else ranks_ j2;
                     path_id_ := path_id_ j2 |})
               | _, _ => Some (Fail OutOfBounds)
               end
          else Some (Ok j2)
      | Some (Fail f) => Some (Fail f)
      | None => None
      end
  | Some (Fail f) => Some (Fail f)
  | None => None
  end.

(** [Init(paths)]: the vectors are resized to the number of paths, then each
    path and its conjugate get the path's number and the number becomes a
    set of its own; the closing [VERIFY_MSG] compares the counter with the
    number of paths. A path container hands out pairs (path, conjugate). *)
Fixpoint Init_loop (paths : list (N * N)) (path_num : nat)
    (j : TranscriptToGeneJoiner) : outcome (TranscriptToGeneJoiner * nat) :=
  match paths with
  | [] => Ok (j, path_num)
  | path :: paths' =>
      j' ← MakeSet path_num
             {| parents_ := parents_ j; ranks_ := ranks_ j;
                path_id_ := <[path.2 := path_num]>
                              (<[path.1 := path_num]> (path_id_ j)) |};
      Init_loop paths' (S path_num) j'
  end.

Definition Init (paths : list (N * N)) (j : TranscriptToGeneJoiner)
    : outcome TranscriptToGeneJoiner :=
  r ← Init_loop paths 0
        {| parents_ := resize (length paths) 0%nat (parents_ j);
           ranks_ := resize (length paths) 0 (ranks_ j);
           path_id_ := path_id_ j |};
  if bool_decide (r.2 = length paths) then Ok r.1 else Fail VerifyFailed.

(** [GetPathId(path)]: [path_id_[path]], which enters an unknown path with
    the number 0. *)
Definition GetPathId (path : N) (j : TranscriptToGeneJoiner)
    : TranscriptToGeneJoiner * nat :=
  match path_id_ j !! path with
  | Some path_num => (j, path_num)
  | None => ({| parents_ := parents_ j; ranks_ := ranks_ j;
                path_id_ := <[path := 0%nat]> (path_id_ j) |}, 0%nat)
  end.

(** ** Vocabulary of the statements *)

(** A traversal as the aligner performs it: a sequence of [next]/[prev] calls,
    each applied to every cursor of the current frontier, in order. *)
Inductive direction := Forwards | Backwards.

Definition step {C : Type} `{GraphCursor C} (d : direction) (c : C)
    (x : Context C) : list C :=
  match d with
  | Forwards => next c x
  | Backwards => prev c x
  end.

Fixpoint walk {C : Type} `{GraphCursor C} (ds : list direction)
    (frontier : list C) (x : Context C) : list C :=
  match ds with
  | [] => frontier
  | d :: ds' => walk ds' (concat (map (λ c, step d c x) frontier)) x
  end.

Definition opposite (d : direction) : direction :=
  match d with
  | Forwards => Backwards
  | Backwards => Forwards
  end.

(** The cursors of a sequence that are not empty, in order. *)
Definition nonempty_cursors {C : Type} `{GraphCursor C} (cpath : list C) : list C :=
  filter (λ c, is_empty c = false) cpath.

(** An edge sequence with every run of equal neighbours reduced to its first
    element; [last_edge] is the edge just before the sequence, if any. *)
Fixpoint collapse_after (last_edge : option EdgeId) (es : list EdgeId) : list EdgeId :=
  match es with
  | [] => []
  | e :: es' =>
      if bool_decide (last_edge = Some e)
      then collapse_after last_edge es'
      else e :: collapse_after (Some e) es'
  end.

Definition collapse_repeats (es : list EdgeId) : list EdgeId := collapse_after None es.

(** The test of the joining loop: the vertex set [acc] holds the start or the
    end vertex of the leader edge [b]. *)
Definition absorbed (graph : ConjugateDeBruijnGraph) (acc : gset VertexId)
    (b : EdgeId) : Prop :=
  EdgeStart graph b ∈ acc ∨ EdgeEnd graph b ∈ acc.

(** Consecutive edges of a path meet: each edge ends where the next starts. *)
Fixpoint continuous_from (g : ConjugateDeBruijnGraph) (prev_edge : EdgeId)
    (rest : list EdgeId) : Prop :=
  match rest with
  | [] => True
  | e :: rest' => EdgeEnd g prev_edge = EdgeStart g e ∧ continuous_from g e rest'
  end.

Definition continuous (g : ConjugateDeBruijnGraph) (path : list EdgeId) : Prop :=
  match path with
  | [] => True
  | e :: rest => continuous_from g e rest
  end.

(** The sum of the lengths of the edges of a path. *)
Definition sum_lengths (g : ConjugateDeBruijnGraph) (path : list EdgeId) : Z :=
  foldr (λ e acc, DeBruijnDataMaster_length g e + acc) 0 path.

(** The Component Merger as the specification words it: any two entries of
    the mapping whose vertex sets share a vertex are found, afterwards, inside
    one surviving component, and no two surviving components intersect. *)
Definition merged_as_specified
    (before after : list (EdgeId * gset VertexId)) : Prop :=
  (∀ a sa b sb,
     (a, sa) ∈ before → (b, sb) ∈ before → a ≠ b → sa ∩ sb ≠ ∅ →
     ∃ c sc, (c, sc) ∈ after ∧ sa ∪ sb ⊆ sc) ∧
  (∀ i j a sa b sb,
     after !! i = Some (a, sa) → after !! j = Some (b, sb) → i ≠ j →
     sa ∩ sb = ∅).

(** No edge of a path is followed by itself. *)
Fixpoint no_adjacent_repeat (path : list EdgeId) : Prop :=
  match path with
  | e :: (e' :: _) as path' => e ≠ e' ∧ no_adjacent_repeat path'
  | _ => True
  end.

(** The components on which the aligner was called, and the leaders of the
    components warned about, as a run recorded them. *)
Definition aligner_calls (evs : list event) : list (EdgeId * gset VertexId) :=
  omap (λ ev, match ev with
              | FindBestPath e component _ => Some (e, component)
              | _ => None
              end) evs.

Definition warned (evs : list event) : list EdgeId :=
  omap (λ ev, match ev with
              | WarnTooLarge e _ => Some e
              | _ => None
              end) evs.

(** The domains that count for edge [e]: those of the reported and included
    hits whose name converts to an index of [e] in [edges]. *)
Definition counting_domains (edges : list EdgeId) (hits : list Hit)
    (e : EdgeId) : list Domain :=
  concat (map (λ hit,
            if reported hit && included hit
            then match stoull (name hit) with
                 | Converted i =>
                     if bool_decide (edges !! Z.to_nat i = Some e)
                     then domains hit else []
                 | _ => []
                 end
            else []) hits).

Definition max_list_Z (zs : list Z) : Z := foldr Z.max 0 zs.

(** The entry of an edge after more of its domains have been seen. *)
Definition seen (o : option (Z * Z)) (ds : list Domain) : option (Z * Z) :=
  match ds with
  | [] => o
  | _ => Some (foldl update_entry (default (0, 0) o) ds)
  end.

(** The edges of a piece, in order. *)
Definition piece_edges (p : Piece) : list EdgeId := p.1 :: (element_edge <$> p.2).

(** [reaches j d x r]: following the parent pointers from [x] for [d] steps
    arrives at [r], which is its own parent (a root). *)
Inductive reaches (j : TranscriptToGeneJoiner) : nat → nat → nat → Prop :=
| reaches_root x : parents_ j !! x = Some x → reaches j 0 x x
| reaches_step d x parent r :
    parents_ j !! x = Some parent → parent ≠ x → reaches j d parent r →
    reaches j (S d) x r.

Definition root_of (j : TranscriptToGeneJoiner) (x r : nat) : Prop :=
  ∃ d, reaches j d x r.

Definition same_tree (j : TranscriptToGeneJoiner) (x y : nat) : Prop :=
  ∃ r, root_of j x r ∧ root_of j y r.

(** The forest is in order: both vectors have the same size, every parent is
    an index of the vectors, and the rank grows strictly from a node to its
    parent. *)
Definition forest (j : TranscriptToGeneJoiner) : Prop :=
  length (parents_ j) = length (ranks_ j) ∧
  ∀ x parent, parents_ j !! x = Some parent →
    (parent < length (parents_ j))%nat ∧
    (parent ≠ x →
     ∃ rx rp, ranks_ j !! x = Some rx ∧ ranks_ j !! parent = Some rp ∧ rx < rp).

(** The joiner with the parent of [x] set to [r]. *)
Definition set_parent (j : TranscriptToGeneJoiner) (x r : nat)
    : TranscriptToGeneJoiner :=
  {| parents_ := <[x := r]> (parents_ j); ranks_ := ranks_ j;
     path_id_ := path_id_ j |}.

(** ** Fixtures for the examples *)

(** A cursor on a chain of edges: [None] is the empty cursor, [Some e] stands
    on edge [e]; the successor of [Some e] is [Some (e + 1)] and its
    predecessor [Some (e - 1)] when [e] is not the first edge. *)
Definition chain_cursor := option N.

#[export] Instance chain_cursor_cursor : GraphCursor chain_cursor := {|
  Context := unit;
  next c _ := match c with Some e => [Some (e + 1)%N] | None => [] end;
  prev c _ :=
    match c with
    | Some e => if bool_decide (e = 0%N) then [] else [Some (e - 1)%N]
    | None => []
    end;
  letter _ _ := "A"%char;
  is_empty c := bool_decide (c = None);
  edge c := default 0%N c;
|}.

(** A graph of disjoint edges: edge [e] runs from vertex [2e - 1] to vertex
    [2e]; further vertices belong to no listed edge. *)
Definition disjoint_edges : ConjugateDeBruijnGraph := {|
  k_ := 3;
  EdgeStart e := (2 * e - 1)%N;
  EdgeEnd e := (2 * e)%N;
  EdgeNucls _ := [nA; nC; nG; nT];
|}.

(** Two neighbourhoods that meet in vertex 5, which is no endpoint of either
    leader edge. *)
Definition meeting_at_5 : list (EdgeId * gset VertexId) :=
  [(1%N, {[1%N; 2%N; 5%N]}); (2%N, {[3%N; 4%N; 5%N]})].

(** The neighbourhood of edge 1 reaches the start vertex of edge 2. *)
Definition reaching_edge_2 : list (EdgeId * gset VertexId) :=
  [(1%N, {[1%N; 2%N; 3%N]}); (2%N, {[3%N; 4%N; 7%N]}); (5%N, {[9%N; 10%N]})].

(** Two edges in a row for k = 3: edge 1 from vertex 1 to vertex 2 spells
    ACGTA, edge 2 from vertex 2 to vertex 3 spells GTACC; any other edge is a
    loop at vertex 0 spelling AAA. *)
Definition two_in_a_row : ConjugateDeBruijnGraph := {|
  k_ := 3;
  EdgeStart e := if bool_decide (e = 1%N) then 1%N
                 else if bool_decide (e = 2%N) then 2%N else 0%N;
  EdgeEnd e := if bool_decide (e = 1%N) then 2%N
               else if bool_decide (e = 2%N) then 3%N else 0%N;
  EdgeNucls e := if bool_decide (e = 1%N) then [nA; nC; nG; nT; nA]
                 else if bool_decide (e = 2%N) then [nG; nT; nA; nC; nC]
                 else [nA; nA; nA];
|}.

(** A stand-in for the bounded Dijkstra: from [v] it reaches [v] and the
    vertex after it, whatever the bound. *)
Definition reach_one_more (bound : Z) (v : VertexId) : list VertexId :=
  [v; (v + 1)%N].

(** The configuration that [cfg]'s constructor sets up. *)
Definition default_cfg : cfg :=
  {| cfg_top := 10; min_size := 2; max_size := 1000; draw := false |}.

(** A configuration whose minimal size lies above its maximal size
    ([--min_size 10 --max_size 3]). *)
Definition crossed_cfg : cfg :=
  {| cfg_top := 10; min_size := 10; max_size := 3; draw := false |}.

(** The whole-edge result for leader edge [e], as [main] constructs it. *)
Definition whole_edge (e : EdgeId) : PathInfo :=
  {| leader := e; priority := 0; seq_ := EmptyString; path_ := [e] |}.

Definition empty_state : driver_state := {| results := []; events := [] |}.

(** Three neighbourhoods: that of edge 1 reaches edge 3, and only through the
    neighbourhood of edge 3 does it reach edge 2. *)
Definition reaching_through_3 : list (EdgeId * gset VertexId) :=
  [(1%N, {[1%N; 2%N; 5%N]}); (2%N, {[3%N; 4%N]}); (3%N, {[5%N; 6%N; 3%N]})].

(** Two components under the default configuration, with the number of
    vertices standing in for the edge count: the first is too small, the
    second is searched and the aligner answers with one path. *)
Definition two_components_run : outcome driver_state :=
  search_components (Cnt := chain_cursor) (Caa := chain_cursor)
    (λ vs, Z.of_nat (size vs))
    (λ _ _, [([Some 1%N; Some 2%N], "AC"%string)]) (λ _ _, [])
    default_cfg false
    [(7%N, {[13%N; 14%N]}); (8%N, {[1%N; 2%N; 3%N; 4%N]})]
    empty_state.

(** [Subseq] as the substring from [from] up to, not including, [to]. *)
Definition substring (s : Sequence) (from to : Z) : Sequence :=
  take (Z.to_nat (to - from)) (drop (Z.to_nat from) s).

(** Hits of an amino-acid model on the edges [[11; 12]]: two reading frames
    of edge 11 are hit, with one and two domains; the hit on edge 12 is not
    included. *)
Definition three_hits : list Hit :=
  [ {| reported := true; included := true; name := ref_shift 0 0;
       domains := [ {| seqpos := (5, 20); hmmpos := (8, 30);
                       domain_M := 40; domain_L := 26 |} ] |};
    {| reported := true; included := true; name := ref_shift 0 2;
       domains := [ {| seqpos := (9, 25); hmmpos := (2, 38);
                       domain_M := 40; domain_L := 26 |};
                    {| seqpos := (1, 26); hmmpos := (1, 40);
                       domain_M := 40; domain_L := 26 |} ] |};
    {| reported := true; included := false; name := ref_shift 1 1;
       domains := [ {| seqpos := (1, 2); hmmpos := (30, 31);
                       domain_M := 40; domain_L := 26 |} ] |} ].

(** The pointers of a path container, each path followed by its conjugate. *)
Definition path_pointers (paths : list (N * N)) : list N :=
  concat (map (λ path, [path.1; path.2]) paths).

(** A forest on four numbers: 2 hangs under 1, 1 under 0, and 3 stands
    alone. *)
Definition chain_and_single : TranscriptToGeneJoiner :=
  {| parents_ := [0; 0; 1; 3]%nat; ranks_ := [2; 1; 0; 0]; path_id_ := ∅ |}.

(** Three paths with their conjugates. *)
Definition three_paths : list (N * N) := [(10, 11); (20, 21); (30, 31)]%N.

(** * Properties *)

(** ** The cursor decorators *)

Section cursor_properties.
Context {C : Type} `{Countable C} `{GraphCursor C}.

Lemma Restricted_filter_base (S : gset C) (v : list C) :
  restricted_base <$> Restricted_filter_ S v = filter (λ c, c ∈ S) v.
Proof.
  induction v as [|c v IH]; [done|].
  cbn [Restricted_filter_]. rewrite filter_cons.
  case_bool_decide; case_decide; try done.
  rewrite fmap_cons, IH. done.
Qed.

Lemma Restricted_filter_members (S : gset C) (v : list C) :
  Forall (λ r, restricted_base r ∈ S ∧ pspace_ r = S) (Restricted_filter_ S v).
Proof.
  induction v as [|c v IH]; simpl; [constructor|].
  case_bool_decide; [constructor|]; done.
Qed.

Lemma Optimized_filter_base (S : gset C) (v : list C) :
  optimized_base <$> Optimized_filter_ v S = filter (λ c, c ∈ S) v.
Proof.
  induction v as [|c v IH]; [done|].
  cbn [Optimized_filter_]. rewrite filter_cons.
  case_bool_decide; case_decide; try done.
  rewrite fmap_cons, IH. done.
Qed.

Lemma step_Reversal (d : direction) (c : C) (x : Context C) :
  step d (Reversal c) x = Reversal <$> step (opposite d) c x.
Proof. by destruct d. Qed.

Lemma frontier_Reversal (d : direction) (cs : list C) (x : Context C) :
  concat (map (λ r : ReversalGraphCursor C, step d r x) (Reversal <$> cs))
  = Reversal <$> concat (map (λ c, step (opposite d) c x) cs).
Proof.
  induction cs as [|c cs IH]; [done|].
  rewrite fmap_cons. cbn [map concat]. by rewrite fmap_app, IH, step_Reversal.
Qed.

Lemma walk_Reversal (ds : list direction) (cs : list C) (x : Context C) :
  walk (C := ReversalGraphCursor C) ds (Reversal <$> cs) x
  = Reversal <$> walk (opposite <$> ds) cs x.
Proof.
  revert cs. induction ds as [|d ds IH]; intros cs; [done|].
  rewrite fmap_cons. cbn [walk]. by rewrite frontier_Reversal, IH.
Qed.

(** C3. Reversal swaps the directions and does nothing else: [next] of a
    reversed cursor is the base cursor's [prev], each element wrapped, in the
    same order, and [prev] of a reversed cursor is the base cursor's [next],
    wrapped likewise. Hence a walk of reversed cursors is the walk of the base
    cursors in the opposite directions, wrapped. *)
Theorem Reversal_duality (c : C) (x : Context C) :
  next (Reversal c) x = map Reversal (prev c x) ∧
  prev (Reversal c) x = map Reversal (next c x) ∧
  reversal_base <$> next (Reversal c) x = prev c x ∧
  reversal_base <$> prev (Reversal c) x = next c x ∧
  (∀ ds cs,
     walk (C := ReversalGraphCursor C) ds (Reversal <$> cs) x
  = Reversal <$> walk (opposite <$> ds) cs x).
Proof.
  split_and!; try done.
  - cbn [next Reversal_cursor]. unfold Reversal_next. simpl.
    rewrite <- list_fmap_compose. apply list_fmap_id.
  - cbn [prev Reversal_cursor]. unfold Reversal_prev. simpl.
    rewrite <- list_fmap_compose. apply list_fmap_id.
  - intros ds cs. apply walk_Reversal.
Qed.

Lemma frontier_Restricted (S : gset C) (d : direction)
    (rs : list (RestrictedGraphCursor C)) (x : Context C) :
  Forall (λ r, pspace_ r = S) rs →
  Forall (λ r, restricted_base r ∈ S ∧ pspace_ r = S)
    (concat (map (λ r : RestrictedGraphCursor C, step d r x) rs)).
Proof.
  induction 1 as [|r rs Hr _ IH]; [constructor|].
  cbn [map concat]. apply Forall_app. split; [|done].
  subst S. destruct d; apply Restricted_filter_members.
Qed.

Lemma walk_Restricted (S : gset C) (ds : list direction)
    (rs : list (RestrictedGraphCursor C)) (x : Context C) :
  Forall (λ r, restricted_base r ∈ S ∧ pspace_ r = S) rs →
  Forall (λ r, restricted_base r ∈ S ∧ pspace_ r = S)
    (walk (C := RestrictedGraphCursor C) ds rs x).
Proof.
  revert rs. induction ds as [|d ds IH]; intros rs Hrs; [done|].
  cbn [walk]. apply IH, frontier_Restricted.
  eapply Forall_impl; [exact Hrs|]. by intros r [_ ?].
Qed.

(** C4. Whatever [next] or [prev] of a restricted cursor returns lies in the
    space (and keeps pointing at that same space); the result is the base
    result with the cursors outside the space left out, in the base order.
    The functions return a plain list: a dropped successor is no error. So
    no walk of one call or more, from whatever cursors restricted to the
    space, ever arrives outside the space. *)
Theorem Restriction_closure (c : C) (S : gset C) (x : Context C) :
  Forall (λ r, restricted_base r ∈ S ∧ pspace_ r = S) (next (Restricted c S) x) ∧
  Forall (λ r, restricted_base r ∈ S ∧ pspace_ r = S) (prev (Restricted c S) x) ∧
  restricted_base <$> next (Restricted c S) x = filter (λ b, b ∈ S) (next c x) ∧
  restricted_base <$> prev (Restricted c S) x = filter (λ b, b ∈ S) (prev c x) ∧
  (∀ d ds cursors,
     Forall (λ r, restricted_base r ∈ S ∧ pspace_ r = S)
       (walk (C := RestrictedGraphCursor C) (d :: ds)
          (make_restricted_cursors cursors S) x)).
Proof.
  split_and!.
  - apply Restricted_filter_members.
  - apply Restricted_filter_members.
  - apply Restricted_filter_base.
  - apply Restricted_filter_base.
  - intros d ds cursors. cbn [walk]. apply walk_Restricted, frontier_Restricted.
    unfold make_restricted_cursors. by apply Forall_fmap, Forall_true.
Qed.
End cursor_properties.

(** ** [to_path] *)

Section to_path_properties.
Context {C : Type} `{GraphCursor C}.

Lemma to_path_step_empty (path : list EdgeId) (c : C) :
  is_empty c = true → to_path_step path c = path.
Proof. intros Hc. unfold to_path_step. by rewrite Hc. Qed.

Lemma to_path_step_repeat (path : list EdgeId) (c : C) :
  is_empty c = false → last path = Some (edge c) → to_path_step path c = path.
Proof.
  intros Hc Hlast. unfold to_path_step. rewrite Hc.
  destruct path as [|e path]; [done|].
  rewrite bool_decide_eq_false_2 by done.
  rewrite bool_decide_eq_false_2 by (intros Hne; by apply Hne). done.
Qed.

Lemma to_path_step_push (path : list EdgeId) (c : C) :
  is_empty c = false → last path ≠ Some (edge c) →
  to_path_step path c = path ++ [edge c].
Proof.
  intros Hc Hlast. unfold to_path_step. rewrite Hc.
  rewrite (bool_decide_eq_true_2 (Some (edge c) ≠ last path)) by congruence.
  by rewrite orb_true_r.
Qed.

(** The [for] loop as a whole: the edges of the non-empty cursors are
    appended, except where an edge repeats the one appended last. *)
Lemma foldl_to_path_step (it : list C) (path : list EdgeId) :
  foldl to_path_step path it
  = path ++ collapse_after (last path) (edge <$> nonempty_cursors it).
Proof.
  revert path. induction it as [|c it IH]; intros path.
  - simpl. by rewrite app_nil_r.
  - cbn [foldl]. unfold nonempty_cursors in *. rewrite filter_cons.
    destruct (is_empty c) eqn:Hc.
    + rewrite to_path_step_empty by done. rewrite decide_False by done. apply IH.
    + rewrite decide_True by done. rewrite fmap_cons. cbn [collapse_after].
      case_bool_decide as Hlast.
      * rewrite to_path_step_repeat by done. apply IH.
      * rewrite to_path_step_push by done. rewrite IH, last_snoc.
        by rewrite <- app_assoc.
Qed.

Lemma skip_leading_empty_nonempty (it : list C) :
  skip_leading_empty (nonempty_cursors it)
  = match nonempty_cursors it with [] => Fail OutOfBounds | _ => Ok (nonempty_cursors it) end.
Proof.
  unfold nonempty_cursors. induction it as [|c it IH]; [done|].
  rewrite filter_cons. case_decide as Hc; [|done].
  simpl. by rewrite Hc.
Qed.

(** Where the skipping loop stops: at the first non-empty cursor, if there is
    one, having passed only empty cursors; past the end otherwise. *)
Lemma skip_leading_empty_spec (cpath : list C) :
  match skip_leading_empty cpath with
  | Ok it =>
      ∃ i c, cpath !! i = Some c ∧ is_empty c = false ∧ it = drop i cpath ∧
             Forall (λ c', is_empty c' = true) (take i cpath)
  | Fail f => f = OutOfBounds ∧ Forall (λ c, is_empty c = true) cpath
  end.
Proof.
  induction cpath as [|c cpath IH]; simpl; [by split|].
  destruct (is_empty c) eqn:Hc.
  - destruct (skip_leading_empty cpath) as [it|f].
    + destruct IH as (i & c' & Hi & Hc' & Hit & Hpre).
      exists (Datatypes.S i), c'. simpl. split_and!; try done. by constructor.
    + destruct IH as [-> Hall]. split; [done|]. by constructor.
  - exists 0%nat, c. simpl. split_and!; try done.
Qed.

Lemma nonempty_cursors_drop (cpath : list C) (i : nat) :
  Forall (λ c, is_empty c = true) (take i cpath) →
  nonempty_cursors (drop i cpath) = nonempty_cursors cpath.
Proof.
  intros Hpre. rewrite <- (take_drop i cpath) at 2.
  unfold nonempty_cursors. rewrite filter_app.
  assert (filter (λ c : C, is_empty c = false) (take i cpath) = []) as ->; [|done].
  induction Hpre as [|c l Hc _ IH]; [done|].
  rewrite filter_cons, decide_False by congruence. done.
Qed.

Lemma nonempty_cursors_nil (cpath : list C) :
  nonempty_cursors cpath = [] ↔ Forall (λ c, is_empty c = true) cpath.
Proof.
  unfold nonempty_cursors. induction cpath as [|c cpath IH]; [by split; [constructor|]|].
  rewrite filter_cons. destruct (is_empty c) eqn:Hc.
  - rewrite decide_False by done. rewrite IH. split.
    + by constructor.
    + by inversion 1.
  - rewrite decide_True by done. split; [done|]. inversion 1; congruence.
Qed.

Lemma collapse_after_nonempty (es : list EdgeId) :
  es ≠ [] → collapse_repeats es ≠ [].
Proof. destruct es; [done|]. intros _. unfold collapse_repeats. simpl. done. Qed.

(** The whole of [to_path], in one equation. *)
Lemma to_path_eq (cpath : list C) :
  to_path cpath
  = match nonempty_cursors cpath with
    | [] => Fail OutOfBounds
    | _ => Ok (collapse_repeats (edge <$> nonempty_cursors cpath))
    end.
Proof.
  unfold to_path. pose proof (skip_leading_empty_spec cpath) as Hskip.
  destruct (skip_leading_empty cpath) as [it|f].
  - destruct Hskip as (i & c & Hi & Hc & -> & Hpre). cbn.
    rewrite foldl_to_path_step, nonempty_cursors_drop by done. simpl.
    destruct (nonempty_cursors cpath) eqn:Hne; [|done].
    apply nonempty_cursors_nil in Hne.
    rewrite Forall_lookup in Hne. specialize (Hne _ _ Hi). congruence.
  - destruct Hskip as [-> Hall]. cbn.
    apply nonempty_cursors_nil in Hall. by rewrite Hall.
Qed.

Lemma nonempty_cursors_idemp (cpath : list C) :
  nonempty_cursors (nonempty_cursors cpath) = nonempty_cursors cpath.
Proof.
  unfold nonempty_cursors. induction cpath as [|c cpath IH]; [done|].
  rewrite filter_cons. case_decide as Hc; [|done].
  rewrite filter_cons, decide_True by done. by rewrite IH.
Qed.

(** C7. [to_path] passes over every empty cursor, leading or not, and appends
    the edge of a non-empty cursor only when it differs from the edge appended
    last. So a cursor sequence and the same sequence with its empty cursors
    removed give the same edge path: the edges of the non-empty cursors with
    adjacent repeats collapsed (or, when no cursor is non-empty, the same read
    past the end of the sequence). *)
Theorem to_path_ignores_empty (cpath : list C) :
  to_path cpath = to_path (nonempty_cursors cpath) ∧
  to_path cpath
  = match nonempty_cursors cpath with
    | [] => Fail OutOfBounds
    | _ => Ok (collapse_repeats (edge <$> nonempty_cursors cpath))
    end.
Proof.
  split; [|apply to_path_eq].
  rewrite !to_path_eq. by rewrite nonempty_cursors_idemp.
Qed.

(** C10. [to_path] needs a non-empty cursor in its input. With one, the
    skipping loop stops inside the sequence, at the first non-empty cursor,
    and the edge path returned is not empty. Without one (the empty sequence,
    or empty cursors only) the skipping loop moves past the last element and
    reads there. *)
Theorem to_path_precondition (cpath : list C) :
  (Exists (λ c, is_empty c = false) cpath →
   ∃ i c path,
     (i < length cpath)%nat ∧ cpath !! i = Some c ∧ is_empty c = false ∧
     Forall (λ c', is_empty c' = true) (take i cpath) ∧
     skip_leading_empty cpath = Ok (drop i cpath) ∧
     to_path cpath = Ok path ∧ path ≠ []) ∧
  (Forall (λ c, is_empty c = true) cpath →
   skip_leading_empty cpath = Fail OutOfBounds ∧
   to_path cpath = Fail OutOfBounds).
Proof.
  split.
  - intros Hex. pose proof (skip_leading_empty_spec cpath) as Hskip.
    destruct (skip_leading_empty cpath) as [it|f] eqn:Hit.
    + destruct Hskip as (i & c & Hi & Hc & -> & Hpre).
      exists i, c, (collapse_repeats (edge <$> nonempty_cursors cpath)).
      assert (nonempty_cursors cpath ≠ []) as Hne.
      { rewrite nonempty_cursors_nil, Forall_lookup.
        intros Hall. specialize (Hall _ _ Hi). congruence. }
      split_and!; try done.
      * by eapply lookup_lt_Some.
      * rewrite to_path_eq. by destruct (nonempty_cursors cpath).
      * apply collapse_after_nonempty. by destruct (nonempty_cursors cpath).
    + destruct Hskip as [_ Hall]. exfalso.
      apply Exists_exists in Hex as (c & Hin & Hc).
      rewrite Forall_forall in Hall. specialize (Hall _ Hin). congruence.
  - intros Hall. pose proof (skip_leading_empty_spec cpath) as Hskip.
    destruct (skip_leading_empty cpath) as [it|f] eqn:Hit.
    + destruct Hskip as (i & c & Hi & Hc & _ & _).
      rewrite Forall_lookup in Hall. specialize (Hall _ _ Hi). congruence.
    + destruct Hskip as [-> _]. split; [done|].
      rewrite to_path_eq. apply nonempty_cursors_nil in Hall. by rewrite Hall.
Qed.
End to_path_properties.

Lemma to_path_precondition_witness :
  (∃ path, to_path (C := chain_cursor) [None; None; Some 4%N; Some 4%N; None; Some 5%N]
           = Ok path ∧ path ≠ []) ∧
  to_path (C := chain_cursor) [None; None] = Fail OutOfBounds.
Proof.
  split.
  - destruct (to_path_precondition (C := chain_cursor)
                [None; None; Some 4%N; Some 4%N; None; Some 5%N]) as [Hdef _].
    destruct Hdef as (i & c & path & _ & _ & _ & _ & _ & Hpath & Hne).
    + apply Exists_cons_tl, Exists_cons_tl, Exists_cons_hd. reflexivity.
    + exists path. split; assumption.
  - apply (to_path_precondition (C := chain_cursor) [None; None]).
    repeat constructor.
Defined.

(** ** Restriction against Optimized Restriction *)

Section to_path_transport.
(** [to_path] reads a cursor through [is_empty] and [edge] only, so it cannot
    tell a cursor sequence from its image under a map that keeps both. *)
Context {C1 C2 : Type} `{GraphCursor C1} `{GraphCursor C2}.
Variable f : C1 → C2.
Hypothesis f_is_empty : ∀ c, is_empty (f c) = is_empty c.
Hypothesis f_edge : ∀ c, edge (f c) = edge c.

Lemma to_path_step_fmap (path : list EdgeId) (c : C1) :
  to_path_step path (f c) = to_path_step path c.
Proof. unfold to_path_step. by rewrite f_is_empty, f_edge. Qed.

Lemma foldl_to_path_step_fmap (it : list C1) (path : list EdgeId) :
  foldl to_path_step path (f <$> it) = foldl to_path_step path it.
Proof.
  revert path. induction it as [|c it IH]; intros path; [done|].
  rewrite fmap_cons. cbn [foldl]. by rewrite to_path_step_fmap, IH.
Qed.

Lemma to_path_fmap (cpath : list C1) : to_path (f <$> cpath) = to_path cpath.
Proof.
  unfold to_path. induction cpath as [|c cpath IH]; [done|].
  rewrite fmap_cons. cbn [skip_leading_empty]. rewrite f_is_empty.
  destruct (is_empty c); [apply IH|].
  cbn. rewrite to_path_step_fmap. f_equal. apply foldl_to_path_step_fmap.
Qed.

Lemma run_search_loop_fmap (e : EdgeId) (top_paths : list (list C1 * string))
    (idx : Z) (local_results : list PathInfo) :
  run_search_loop (C := C2) e idx
    ((λ kv : list C1 * string, (f <$> kv.1, kv.2)) <$> top_paths) local_results
  = run_search_loop e idx top_paths local_results.
Proof.
  revert idx local_results.
  induction top_paths as [|kv top_paths IH]; intros idx local_results; [done|].
  rewrite fmap_cons. cbn [run_search_loop fst snd]. rewrite to_path_fmap.
  destruct (to_path kv.1) as [p|fl]; cbn; [apply IH|done].
Qed.
End to_path_transport.

Section restriction_equivalence.
Context {C : Type} `{Countable C} `{GraphCursor C}.
Variable S : gset C.
Variable x : Context C.

Let ctx : OptimizedRestrictedGraphCursorContext C :=
  make_optimized_restricted_cursor_context S x.

Lemma step_Restricted (d : direction) (r : RestrictedGraphCursor C) :
  restricted_base <$> step d r x
  = filter (λ b, b ∈ pspace_ r) (step d (restricted_base r) x).
Proof. destruct d; apply Restricted_filter_base. Qed.

Lemma step_Restricted_space (d : direction) (r : RestrictedGraphCursor C) :
  Forall (λ r', pspace_ r' = pspace_ r) (step d r x).
Proof.
  destruct d; cbn; unfold Restricted_next, Restricted_prev;
    (eapply Forall_impl; [apply Restricted_filter_members|]);
    intros r' [_ Hr']; exact Hr'.
Qed.

Lemma step_Optimized (d : direction) (o : OptimizedRestrictedGraphCursor C) :
  optimized_base <$> step d o ctx
  = filter (λ b, b ∈ S) (step d (optimized_base o) x).
Proof. destruct d; apply Optimized_filter_base. Qed.

Lemma frontier_step (d : direction) (rs : list (RestrictedGraphCursor C))
    (os : list (OptimizedRestrictedGraphCursor C)) :
  Forall (λ r, pspace_ r = S) rs →
  restricted_base <$> rs = optimized_base <$> os →
  Forall (λ r, pspace_ r = S) (concat (map (λ r : RestrictedGraphCursor C, step d r x) rs)) ∧
  restricted_base <$> concat (map (λ r : RestrictedGraphCursor C, step d r x) rs)
  = optimized_base <$> concat (map (λ o : OptimizedRestrictedGraphCursor C, step d o ctx) os).
Proof.
  intros Hsp. revert os. induction Hsp as [|r rs Hr Hrs IH]; intros os Hbase.
  - destruct os; [|done]. split; [constructor|done].
  - destruct os as [|o os]; [done|]. rewrite !fmap_cons in Hbase.
    injection Hbase as Hro Hbase. destruct (IH _ Hbase) as [IH1 IH2].
    cbn [map concat]. split.
    + apply Forall_app. split; [|done].
      eapply Forall_impl; [apply step_Restricted_space|]. simpl. congruence.
    + rewrite !fmap_app, IH2, step_Restricted, step_Optimized, Hr, Hro. done.
Qed.

Lemma walk_Restricted_Optimized (ds : list direction)
    (rs : list (RestrictedGraphCursor C))
    (os : list (OptimizedRestrictedGraphCursor C)) :
  Forall (λ r, pspace_ r = S) rs →
  restricted_base <$> rs = optimized_base <$> os →
  restricted_base <$> walk ds rs x = optimized_base <$> walk ds os ctx.
Proof.
  revert rs os. induction ds as [|d ds IH]; intros rs os Hsp Hbase; [done|].
  cbn [walk]. destruct (frontier_step d rs os Hsp Hbase) as [Hsp' Hbase'].
  by apply IH.
Qed.

Lemma to_path_Restricted (rs : list (RestrictedGraphCursor C)) :
  to_path rs = to_path (restricted_base <$> rs).
Proof. symmetry. by apply to_path_fmap. Qed.

Lemma to_path_Optimized (os : list (OptimizedRestrictedGraphCursor C)) :
  to_path os = to_path (optimized_base <$> os).
Proof. symmetry. by apply to_path_fmap. Qed.

Lemma run_search_loop_Restricted (e : EdgeId) (idx : Z)
    (top_paths : list (list (RestrictedGraphCursor C) * string))
    (local_results : list PathInfo) :
  run_search_loop e idx top_paths local_results
  = run_search_loop e idx
      ((λ kv : list (RestrictedGraphCursor C) * string,
          (restricted_base <$> kv.1, kv.2)) <$> top_paths) local_results.
Proof. symmetry. by apply run_search_loop_fmap. Qed.

Lemma run_search_loop_Optimized (e : EdgeId) (idx : Z)
    (top_paths : list (list (OptimizedRestrictedGraphCursor C) * string))
    (local_results : list PathInfo) :
  run_search_loop e idx top_paths local_results
  = run_search_loop e idx
      ((λ kv : list (OptimizedRestrictedGraphCursor C) * string,
          (optimized_base <$> kv.1, kv.2)) <$> top_paths) local_results.
Proof. symmetry. by apply run_search_loop_fmap. Qed.

(** C2. Restriction and Optimized Restriction cannot be told apart: for the
    same base cursor, space and base context, [next] and [prev] return the
    same base cursors in the same order and [letter] the same letter; this
    stays so along any sequence of [next]/[prev] calls started from the same
    cursors; [to_path] gives the same edge path for two cursor sequences over
    the same base cursors, and so the per-component results, and with them
    the set of distinct edge paths, agree for two answers of the aligner over
    the same base cursors. *)
Theorem Optimized_Restriction_equivalent (c : C) :
  restricted_base <$> next (Restricted c S) x
  = optimized_base <$> next (OptimizedRestricted c) ctx ∧
  restricted_base <$> prev (Restricted c S) x
  = optimized_base <$> prev (OptimizedRestricted c) ctx ∧
  letter (Restricted c S) x = letter (OptimizedRestricted c) ctx ∧
  (∀ ds cursors,
     restricted_base <$> walk ds (make_restricted_cursors cursors S) x
     = optimized_base <$> walk ds (make_optimized_restricted_cursors cursors) ctx) ∧
  (∀ (rs : list (RestrictedGraphCursor C))
      (os : list (OptimizedRestrictedGraphCursor C)),
     restricted_base <$> rs = optimized_base <$> os →
     to_path rs = to_path os) ∧
  (∀ e (top_r : list (list (RestrictedGraphCursor C) * string))
       (top_o : list (list (OptimizedRestrictedGraphCursor C) * string)),
     (λ kv : list (RestrictedGraphCursor C) * string,
        (restricted_base <$> kv.1, kv.2)) <$> top_r
     = (λ kv : list (OptimizedRestrictedGraphCursor C) * string,
          (optimized_base <$> kv.1, kv.2)) <$> top_o →
     run_search_loop e 0 top_r [] = run_search_loop e 0 top_o [] ∧
     unique_paths <$> run_search_loop e 0 top_r []
     = unique_paths <$> run_search_loop e 0 top_o []).
Proof.
  split_and!.
  - apply (eq_trans (step_Restricted Forwards (Restricted c S))).
    symmetry. apply (step_Optimized Forwards (OptimizedRestricted c)).
  - apply (eq_trans (step_Restricted Backwards (Restricted c S))).
    symmetry. apply (step_Optimized Backwards (OptimizedRestricted c)).
  - done.
  - intros ds cursors. apply walk_Restricted_Optimized.
    + unfold make_restricted_cursors. apply Forall_fmap, Forall_true. done.
    + unfold make_restricted_cursors, make_optimized_restricted_cursors.
      rewrite <- !list_fmap_compose. done.
  - intros rs os Hbase.
    rewrite to_path_Restricted, to_path_Optimized.
    by rewrite Hbase.
  - intros e top_r top_o Htop.
    assert (run_search_loop e 0 top_r [] = run_search_loop e 0 top_o []) as Hrun.
    { rewrite run_search_loop_Restricted, run_search_loop_Optimized.
      by rewrite Htop. }
    split; [exact Hrun|]. by rewrite Hrun.
Qed.
End restriction_equivalence.

(** ** Joining components *)

Section join_properties.
Variable graph : ConjugateDeBruijnGraph.
Implicit Types (acc : gset VertexId) (l : list (EdgeId * gset VertexId)).

Lemma absorb_length acc l :
  (length (absorb graph acc l).2 ≤ length l)%nat.
Proof.
  revert acc. induction l as [|entry l IH]; intros acc; simpl; [lia|].
  destruct (_ || _); simpl.
  - specialize (IH (acc ∪ entry.2)). lia.
  - specialize (IH acc). lia.
Qed.

Lemma absorb_cons acc entry l :
  absorb graph acc (entry :: l)
  = if bool_decide (absorbed graph acc entry.1)
    then absorb graph (acc ∪ entry.2) l
    else ((absorb graph acc l).1, entry :: (absorb graph acc l).2).
Proof.
  cbn [absorb]. unfold absorbed.
  do 2 case_bool_decide; case_bool_decide; simpl; naive_solver.
Qed.

Lemma absorbed_mono acc acc' b : acc ⊆ acc' → absorbed graph acc b → absorbed graph acc' b.
Proof. unfold absorbed. set_solver. Qed.

Lemma absorb_sublist acc l : (absorb graph acc l).2 `sublist_of` l.
Proof.
  revert acc. induction l as [|entry l IH]; intros acc; [done|].
  rewrite absorb_cons. case_bool_decide.
  - by apply sublist_cons.
  - by apply sublist_skip.
Qed.

Lemma absorb_grows acc l : acc ⊆ (absorb graph acc l).1.
Proof.
  revert acc. induction l as [|entry l IH]; intros acc; [done|].
  rewrite absorb_cons. case_bool_decide; simpl; [|done].
  specialize (IH (acc ∪ entry.2)). set_solver.
Qed.

Lemma absorb_covers acc l b sb :
  (b, sb) ∈ l → (b, sb) ∈ (absorb graph acc l).2 ∨ sb ⊆ (absorb graph acc l).1.
Proof.
  revert acc. induction l as [|entry l IH]; intros acc Hin; [by inversion Hin|].
  rewrite absorb_cons. apply elem_of_cons in Hin as [<-|Hin].
  - case_bool_decide; simpl.
    + right. pose proof (absorb_grows (acc ∪ sb) l). set_solver.
    + left. left.
  - case_bool_decide; simpl; [by apply IH|].
    destruct (IH acc Hin); [left; by right|by right].
Qed.

Lemma absorb_origin acc l v :
  v ∈ (absorb graph acc l).1 → v ∈ acc ∨ ∃ b sb, (b, sb) ∈ l ∧ v ∈ sb.
Proof.
  revert acc. induction l as [|entry l IH]; intros acc; [by left|].
  rewrite absorb_cons. case_bool_decide; simpl; intros Hv.
  - destruct (IH _ Hv) as [Hacc|(b & sb & Hin & Hsb)].
    + apply elem_of_union in Hacc as [?|?]; [by left|].
      right. exists entry.1, entry.2. split; [|done]. destruct entry. left.
    + right. exists b, sb. split; [by right|done].
  - destruct (IH _ Hv) as [?|(b & sb & Hin & Hsb)]; [by left|].
    right. exists b, sb. split; [by right|done].
Qed.

(** An entry whose leader edge touches [acc] is taken in by the scan. *)
Lemma absorb_takes acc l b sb :
  (b, sb) ∈ l → absorbed graph acc b → sb ⊆ (absorb graph acc l).1.
Proof.
  revert acc. induction l as [|entry l IH]; intros acc Hin Habs; [by inversion Hin|].
  rewrite absorb_cons. apply elem_of_cons in Hin as [<-|Hin].
  - rewrite bool_decide_eq_true_2 by done.
    pose proof (absorb_grows (acc ∪ sb) l). set_solver.
  - case_bool_decide; simpl; [|by apply IH].
    apply IH; [done|]. eapply absorbed_mono; [|done]. set_solver.
Qed.

Lemma absorb_erases acc l b sb :
  NoDup l.*1 → (b, sb) ∈ l → absorbed graph acc b → b ∉ (absorb graph acc l).2.*1.
Proof.
  revert acc. induction l as [|entry l IH]; intros acc Hnd Hin Habs;
    [by inversion Hin|].
  rewrite fmap_cons in Hnd. apply NoDup_cons in Hnd as [Hfresh Hnd].
  rewrite absorb_cons. apply elem_of_cons in Hin as [<-|Hin].
  - rewrite bool_decide_eq_true_2 by done. intros Hb. apply Hfresh.
    eapply elem_of_sublist; [exact Hb|]. apply fmap_sublist, absorb_sublist.
  - case_bool_decide; simpl.
    + apply IH; [done..|]. eapply absorbed_mono; [|done]. set_solver.
    + apply not_elem_of_cons. split; [|by apply IH].
      intros ->. apply Hfresh. by apply (list_elem_of_fmap_2 fst _ (entry.1, sb)).
Qed.

Lemma NoDup_fst_unique l b s1 s2 :
  NoDup l.*1 → (b, s1) ∈ l → (b, s2) ∈ l → s1 = s2.
Proof.
  induction l as [|[b0 s0] l IH]; intros Hnd H1 H2; [by inversion H1|].
  rewrite fmap_cons in Hnd. apply NoDup_cons in Hnd as [Hfresh Hnd].
  simpl in Hfresh.
  apply elem_of_cons in H1 as [E1|H1]; apply elem_of_cons in H2 as [E2|H2].
  - congruence.
  - exfalso. apply Hfresh. injection E1 as <- _.
    by apply (list_elem_of_fmap_2 fst _ (b, s2)).
  - exfalso. apply Hfresh. injection E2 as <- _.
    by apply (list_elem_of_fmap_2 fst _ (b, s1)).
  - by apply IH.
Qed.

(** An entry that stays in the map keeps its place among those that stay. *)
Lemma absorb_keeps acc l b sb :
  NoDup l.*1 → (b, sb) ∈ l →
  b ∉ (absorb graph acc l).2.*1 ∨ (b, sb) ∈ (absorb graph acc l).2.
Proof.
  intros Hnd Hin.
  destruct (decide (b ∈ (absorb graph acc l).2.*1)) as [Hb|]; [right|by left].
  apply list_elem_of_fmap in Hb as ([b' sb'] & -> & Hb). simpl in *.
  assert ((b', sb') ∈ l) as Hin' by (eapply elem_of_sublist, absorb_sublist; done).
  by rewrite (NoDup_fst_unique l b' sb sb' Hnd Hin Hin').
Qed.

(** If [A] comes before [B] and the set of [A] touches the leader edge of
    [B], then a scan either erases [B] or leaves both, in their order. *)
Lemma absorb_order acc l1 a sa l2 b sb l3 :
  NoDup (l1 ++ (a, sa) :: l2 ++ (b, sb) :: l3).*1 →
  absorbed graph sa b →
  let kept := (absorb graph acc (l1 ++ (a, sa) :: l2 ++ (b, sb) :: l3)).2 in
  b ∉ kept.*1 ∨ ∃ k1 k2 k3, kept = k1 ++ (a, sa) :: k2 ++ (b, sb) :: k3.
Proof.
  intros Hnd Habs. revert acc Hnd.
  induction l1 as [|entry l1 IH]; intros acc Hnd kept; subst kept.
  - rewrite app_nil_l in *. rewrite fmap_cons in Hnd.
    apply NoDup_cons in Hnd as [Hfresh Hnd]. simpl in Hfresh.
    assert ((b, sb) ∈ l2 ++ (b, sb) :: l3) as Hin
      by (apply elem_of_app; right; left).
    assert (b ≠ a) as Hba.
    { intros ->. apply Hfresh. by apply (list_elem_of_fmap_2 fst _ (a, sb)). }
    rewrite absorb_cons. case_bool_decide; simpl.
    + left. eapply absorb_erases; [done..|].
      eapply absorbed_mono; [|done]. set_solver.
    + destruct (absorb_keeps acc _ b sb Hnd Hin) as [Hout|Hkept].
      * left. apply not_elem_of_cons. by split.
      * right. apply list_elem_of_split in Hkept as (k2 & k3 & ->).
        by exists [], k2, k3.
  - rewrite <- app_comm_cons in *. rewrite fmap_cons in Hnd.
    apply NoDup_cons in Hnd as [Hfresh Hnd].
    rewrite absorb_cons. case_bool_decide; simpl; [by apply IH|].
    destruct (IH acc Hnd) as [Hout|(k1 & k2 & k3 & ->)].
    + left. apply not_elem_of_cons. split; [|done].
      intros ->. apply Hfresh.
      apply (list_elem_of_fmap_2 fst _ (entry.1, sb)).
      apply elem_of_app; right; right. apply elem_of_app; right; left.
    + right. by exists (entry :: k1), k2, k3.
Qed.

Lemma join_cons it l :
  join graph (it :: l)
  = (it.1, (absorb graph it.2 l).1) :: join graph (absorb graph it.2 l).2.
Proof. by simp join. Qed.

(** Induction along the passes of the outer loop. *)
Lemma join_ind (P : list (EdgeId * gset VertexId) → Prop) :
  P [] →
  (∀ it l, P (absorb graph it.2 l).2 → P (it :: l)) →
  ∀ l, P l.
Proof.
  intros Hnil Hcons l.
  remember (length l) as n eqn:Hn. revert l Hn.
  induction n as [n IH] using lt_wf_ind. intros l ->.
  destruct l as [|it l]; [done|]. apply Hcons.
  eapply IH; [|reflexivity].
  pose proof (absorb_length it.2 l). simpl. lia.
Qed.
End join_properties.

Section join_theorems.
Variable graph : ConjugateDeBruijnGraph.
Implicit Types (l : list (EdgeId * gset VertexId)).

(** The leaders that survive are leaders of the input, in the input order. *)
Lemma join_leaders l : (join graph l).*1 `sublist_of` l.*1.
Proof.
  induction l as [|it l IH] using (join_ind graph); [done|].
  rewrite join_cons, !fmap_cons. simpl. apply sublist_skip.
  etrans; [exact IH|]. apply fmap_sublist, absorb_sublist.
Qed.

(** No vertex set is lost. *)
Lemma join_covers l a sa :
  (a, sa) ∈ l → ∃ c sc, (c, sc) ∈ join graph l ∧ sa ⊆ sc.
Proof.
  induction l as [|it l IH] using (join_ind graph); intros Hin;
    [by inversion Hin|].
  rewrite join_cons. apply elem_of_cons in Hin as [<-|Hin].
  - eexists _, _. split; [left|]. apply (absorb_grows graph sa l).
  - destruct (absorb_covers graph it.2 l a sa Hin) as [Hkept|Hsub].
    + destruct (IH Hkept) as (c & sc & Hc & Hsc).
      exists c, sc. split; [by right|done].
    + eexists _, _. split; [left|done].
Qed.

(** A surviving component holds its own original set, and only vertices of
    original sets. *)
Lemma join_origin l c sc :
  (c, sc) ∈ join graph l →
  ∃ sc0, (c, sc0) ∈ l ∧ sc0 ⊆ sc ∧
         ∀ v, v ∈ sc → ∃ a sa, (a, sa) ∈ l ∧ v ∈ sa.
Proof.
  induction l as [|it l IH] using (join_ind graph); intros Hin;
    [by inversion Hin|].
  rewrite join_cons in Hin. apply elem_of_cons in Hin as [E|Hin].
  - injection E as -> ->. exists it.2. split_and!.
    + destruct it. left.
    + apply absorb_grows.
    + intros v Hv. apply absorb_origin in Hv as [Hv|(b & sb & Hb & Hv)].
      * exists it.1, it.2. split; [destruct it; left|done].
      * exists b, sb. split; [by right|done].
  - destruct (IH Hin) as (sc0 & Hc & Hsub & Horigin).
    pose proof (absorb_sublist graph it.2 l) as Hkept.
    exists sc0. split_and!; [|done|].
    + right. by eapply elem_of_sublist.
    + intros v Hv. destruct (Horigin v Hv) as (a & sa & Ha & Hva).
      exists a, sa. split; [|done]. right. by eapply elem_of_sublist.
Qed.

(** An entry whose leader edge touches the set of an earlier entry does not
    survive. *)
Lemma join_erases l l1 a sa l2 b sb l3 :
  l = l1 ++ (a, sa) :: l2 ++ (b, sb) :: l3 →
  NoDup l.*1 → absorbed graph sa b → b ∉ (join graph l).*1.
Proof.
  revert l1 a sa l2 b sb l3.
  induction l as [|it l IH] using (join_ind graph);
    intros l1 a sa l2 b sb l3 Hl Hnd Habs; [by destruct l1|].
  rewrite join_cons, fmap_cons. simpl.
  rewrite fmap_cons in Hnd. apply NoDup_cons in Hnd as [Hfresh Hnd].
  assert (b ∉ (absorb graph it.2 l).2.*1 → b ∉ (join graph (absorb graph it.2 l).2).*1)
    as Hjoin.
  { intros Hout Hb. apply Hout. eapply elem_of_sublist; [exact Hb|].
    apply join_leaders. }
  destruct l1 as [|entry l1]; simpl in Hl; injection Hl as -> ->.
  - assert ((b, sb) ∈ l2 ++ (b, sb) :: l3) as Hin
      by (apply elem_of_app; right; left).
    apply not_elem_of_cons. split.
    + intros ->. apply Hfresh. by apply (list_elem_of_fmap_2 fst _ (a, sb)).
    + apply Hjoin. by eapply absorb_erases.
  - apply not_elem_of_cons. split.
    + intros ->. apply Hfresh. apply (list_elem_of_fmap_2 fst _ (entry.1, sb)).
      apply elem_of_app; right; right. apply elem_of_app; right; left.
    + destruct (absorb_order graph entry.2 l1 a sa l2 b sb l3 Hnd Habs)
        as [Hout|(k1 & k2 & k3 & Hkept)]; [by apply Hjoin|].
      eapply IH; [exact Hkept| |done].
      eapply sublist_NoDup; [exact Hnd|]. apply fmap_sublist, absorb_sublist.
Qed.

(** The first entry takes in every entry whose leader edge touches it. *)
Lemma join_head a sa l b sb :
  (b, sb) ∈ l → absorbed graph sa b →
  ∃ sa', head (join graph ((a, sa) :: l)) = Some (a, sa') ∧ sa ∪ sb ⊆ sa'.
Proof.
  intros Hin Habs. rewrite join_cons. simpl. eexists. split; [done|].
  pose proof (absorb_grows graph sa l).
  pose proof (absorb_takes graph sa l b sb Hin Habs). set_solver.
Qed.

(** C1, as the joining loop has it. The loop makes one pass over the map in
    its iteration order and erases an entry [B] exactly when the vertex set
    accumulated by an earlier entry holds the start or the end vertex of the
    leader edge of [B]. So: the surviving leaders are input leaders, in
    order; every input vertex set lies within some surviving component; a
    surviving component holds its own input set and nothing but vertices of
    input sets; an entry [B] whose leader edge touches the input set of an
    earlier entry [A] does not survive; and when that [A] is the first entry,
    [A] survives as the first component with the union of the sets of [A] and
    [B] inside its set. *)
Theorem join_absorbs_touching_leaders (l : list (EdgeId * gset VertexId)) :
  NoDup l.*1 →
  (join graph l).*1 `sublist_of` l.*1 ∧
  (∀ a sa, (a, sa) ∈ l → ∃ c sc, (c, sc) ∈ join graph l ∧ sa ⊆ sc) ∧
  (∀ c sc, (c, sc) ∈ join graph l →
     ∃ sc0, (c, sc0) ∈ l ∧ sc0 ⊆ sc ∧
            ∀ v, v ∈ sc → ∃ a sa, (a, sa) ∈ l ∧ v ∈ sa) ∧
  (∀ l1 a sa l2 b sb l3,
     l = l1 ++ (a, sa) :: l2 ++ (b, sb) :: l3 → absorbed graph sa b →
     b ∉ (join graph l).*1) ∧
  (∀ a sa l' b sb,
     l = (a, sa) :: l' → (b, sb) ∈ l' → absorbed graph sa b →
     ∃ sa', head (join graph l) = Some (a, sa') ∧ sa ∪ sb ⊆ sa').
Proof.
  intros Hnd. split_and!.
  - apply join_leaders.
  - apply join_covers.
  - apply join_origin.
  - intros l1 a sa l2 b sb l3 Hl Habs. by eapply join_erases.
  - intros a sa l' b sb -> Hin Habs. by apply (join_head a sa l' b sb).
Qed.
End join_theorems.

Lemma join_absorbs_touching_leaders_witness :
  (join disjoint_edges reaching_edge_2).*1 `sublist_of` reaching_edge_2.*1 ∧
  (2%N ∉ (join disjoint_edges reaching_edge_2).*1) ∧
  ∃ sa', head (join disjoint_edges reaching_edge_2) = Some (1%N, sa') ∧
         {[1%N; 2%N; 3%N]} ∪ {[3%N; 4%N; 7%N]} ⊆ sa'.
Proof.
  assert (NoDup reaching_edge_2.*1) as Hnd.
  { compute_done. }
  destruct (join_absorbs_touching_leaders disjoint_edges reaching_edge_2 Hnd)
    as (Hleaders & _ & _ & Herased & Hhead).
  split; [exact Hleaders|]. split.
  - apply (Herased [] 1%N {[1%N; 2%N; 3%N]} [] 2%N {[3%N; 4%N; 7%N]}
             [(5%N, {[9%N; 10%N]})]).
    + reflexivity.
    + left. compute_done.
  - apply (Hhead 1%N {[1%N; 2%N; 3%N]}
             [(2%N, {[3%N; 4%N; 7%N]}); (5%N, {[9%N; 10%N]})]
             2%N {[3%N; 4%N; 7%N]}).
    + reflexivity.
    + left.
    + left. compute_done.
Defined.

(** C1, as the specification words it, fails: the neighbourhoods of edges 1
    and 2 meet in vertex 5, but neither holds an endpoint of the other's
    leader edge, and the loop leaves the map as it was, in either iteration
    order. *)
Lemma join_leaves_meeting_neighbourhoods :
  join disjoint_edges meeting_at_5 = meeting_at_5 ∧
  join disjoint_edges (reverse meeting_at_5) = reverse meeting_at_5 ∧
  ¬ merged_as_specified meeting_at_5 (join disjoint_edges meeting_at_5).
Proof.
  assert (join disjoint_edges meeting_at_5 = meeting_at_5) as Hjoin
    by (vm_compute; reflexivity).
  split; [exact Hjoin|]. split; [vm_compute; reflexivity|].
  rewrite Hjoin. intros [Hmerged _].
  destruct (Hmerged 1%N {[1%N; 2%N; 5%N]} 2%N {[3%N; 4%N; 5%N]})
    as (c & sc & Hc & Hsc).
  - left.
  - right. left.
  - done.
  - intros Hempty.
    assert (5%N ∈ ({[1%N; 2%N; 5%N]} : gset VertexId) ∩ {[3%N; 4%N; 5%N]})
      as H5 by set_solver.
    rewrite Hempty in H5. set_solver.
  - unfold meeting_at_5 in Hc.
    apply elem_of_cons in Hc as [E|Hc]; [|apply elem_of_cons in Hc as [E|Hc]].
    + injection E as -> ->.
      assert (3%N ∈ ({[1%N; 2%N; 5%N]} : gset VertexId)) as H3 by set_solver.
      set_solver.
    + injection E as -> ->.
      assert (1%N ∈ ({[3%N; 4%N; 5%N]} : gset VertexId)) as H1 by set_solver.
      set_solver.
    + by inversion Hc.
Qed.

(** ** Neighbourhood extraction *)

Section extraction_properties.
Variable graph : ConjugateDeBruijnGraph.
Variable ForwardReachedVertices : Z → VertexId → list VertexId.
Variable BackwardReachedVertices : Z → VertexId → list VertexId.

Lemma scale_overhang_eq (overhang : Z) (hmm_in_aas : bool) :
  scale_overhang overhang hmm_in_aas = (overhang * mult hmm_in_aas) mod 2 ^ 32.
Proof.
  unfold scale_overhang, wrap32, wrap64.
  apply Z.mod_mod_divide. exists (2 ^ 32). reflexivity.
Qed.

Lemma extract_neighbourhood_endpoints (hmm_in_aas : bool)
    (entry : EdgeId * (Z * Z)) :
  let vs := (extract_neighbourhood graph ForwardReachedVertices
               BackwardReachedVertices hmm_in_aas entry).1 in
  EdgeStart graph entry.1 ∈ vs ∧ EdgeEnd graph entry.1 ∈ vs.
Proof. unfold extract_neighbourhood. simpl. set_solver. Qed.

(** C9. The overhangs are multiplied by 6 for an amino-acid model and by 2
    for a nucleotide model (in [unsigned] arithmetic) to give the budgets. The
    forward Dijkstra is run, from the end vertex of the edge, exactly when the
    forward budget is positive, and the backward Dijkstra, from the start
    vertex, exactly when the backward budget is positive. The vertex set is
    the union of what the runs reached with the two endpoints of the edge, so
    both endpoints are always in it; this holds for every entry of
    [neighbourhoods]. *)
Theorem neighbourhood_of_matched_edge (hmm_in_aas : bool) (e : EdgeId)
    (backward forward : Z) :
  let bbudget := scale_overhang backward hmm_in_aas in
  let fbudget := scale_overhang forward hmm_in_aas in
  let r := extract_neighbourhood graph ForwardReachedVertices
             BackwardReachedVertices hmm_in_aas (e, (backward, forward)) in
  mult hmm_in_aas = (if hmm_in_aas then 6 else 2) ∧
  bbudget = (backward * mult hmm_in_aas) mod 2 ^ 32 ∧
  fbudget = (forward * mult hmm_in_aas) mod 2 ^ 32 ∧
  (0 ≤ backward * mult hmm_in_aas < 2 ^ 32 →
   bbudget = backward * mult hmm_in_aas) ∧
  (0 ≤ forward * mult hmm_in_aas < 2 ^ 32 →
   fbudget = forward * mult hmm_in_aas) ∧
  r.2 = (if bool_decide (0 < fbudget)
         then [ForwardDijkstra fbudget (EdgeEnd graph e)] else [])
        ++ (if bool_decide (0 < bbudget)
            then [BackwardDijkstra bbudget (EdgeStart graph e)] else []) ∧
  r.1 = (if bool_decide (0 < fbudget)
         then list_to_set (ForwardReachedVertices fbudget (EdgeEnd graph e))
         else ∅)
        ∪ (if bool_decide (0 < bbudget)
           then list_to_set (BackwardReachedVertices bbudget (EdgeStart graph e))
           else ∅)
        ∪ {[EdgeStart graph e; EdgeEnd graph e]} ∧
  (fbudget = 0 → bbudget = 0 →
   r.2 = [] ∧ r.1 = {[EdgeStart graph e; EdgeEnd graph e]}) ∧
  EdgeStart graph e ∈ r.1 ∧ EdgeEnd graph e ∈ r.1 ∧
  (∀ matched,
     Forall (λ kv, EdgeStart graph kv.1 ∈ kv.2 ∧ EdgeEnd graph kv.1 ∈ kv.2)
       (extract_neighbourhoods graph ForwardReachedVertices
          BackwardReachedVertices hmm_in_aas matched)).
Proof.
  intros bbudget fbudget r. subst r.
  unfold extract_neighbourhood. cbn [fst snd]. fold bbudget fbudget.
  split_and!.
  - done.
  - apply scale_overhang_eq.
  - apply scale_overhang_eq.
  - intros Hb. subst bbudget. rewrite scale_overhang_eq. by apply Z.mod_small.
  - intros Hf. subst fbudget. rewrite scale_overhang_eq. by apply Z.mod_small.
  - done.
  - do 2 case_bool_decide; cbn [list_to_set]; set_solver.
  - intros -> ->. rewrite !bool_decide_eq_false_2 by lia.
    split; [done|]. cbn [list_to_set]. set_solver.
  - set_solver.
  - set_solver.
  - intros matched. unfold extract_neighbourhoods. apply Forall_fmap, Forall_true.
    intros entry. apply extract_neighbourhood_endpoints.
Qed.
End extraction_properties.

Lemma neighbourhood_of_matched_edge_witness :
  scale_overhang 5 true = 30 ∧ scale_overhang 0 true = 0 ∧
  extract_neighbourhood disjoint_edges reach_one_more reach_one_more true
    (3%N, (0, 5))
  = ({[5%N; 6%N; 7%N]}, [ForwardDijkstra 30 6%N]).
Proof.
  pose proof (neighbourhood_of_matched_edge disjoint_edges reach_one_more
                reach_one_more true 3%N 0 5)
    as (_ & _ & _ & Hb & Hf & Hruns & Hset & _).
  cbv zeta in *.
  assert (scale_overhang 5 true = 30) as E5 by (apply Hf; simpl; lia).
  assert (scale_overhang 0 true = 0) as E0 by (apply Hb; simpl; lia).
  split; [exact E5|]. split; [exact E0|].
  rewrite E5, E0 in Hruns, Hset.
  destruct (extract_neighbourhood _ _ _ _ _) as [vs runs].
  simpl in Hruns, Hset. subst vs runs. reflexivity.
Defined.

(** ** The size checks of the path search *)

Section size_checks.
Context {Cnt Caa : Type} `{GraphCursor Cnt} `{GraphCursor Caa}.
Variable e_size : gset VertexId → Z.
Variable top_k_nt : gset VertexId → Z → list (list Cnt * string).
Variable top_k_aa : gset VertexId → Z → list (list Caa * string).
Variable config : cfg.

(** C5. A component whose halved edge count is below [min_size] is not
    searched: one result is added, with priority 0, the empty string and the
    leader edge alone as its path; nothing else changes, no aligner call is
    recorded, and the loop goes on with the next component. *)
Theorem undersized_component_whole_edge (hmm_in_aas : bool)
    (kv : EdgeId * gset VertexId) (st : driver_state) :
  e_size kv.2 / 2 < min_size config →
  search_component e_size top_k_nt top_k_aa config hmm_in_aas kv st
  = Ok {| results := results st ++ [whole_edge kv.1]; events := events st |} ∧
  (∀ neighbourhoods,
     search_components e_size top_k_nt top_k_aa config hmm_in_aas (kv :: neighbourhoods) st
     = search_components e_size top_k_nt top_k_aa config hmm_in_aas neighbourhoods
         {| results := results st ++ [whole_edge kv.1]; events := events st |}).
Proof.
  intros Hsmall.
  assert (search_component e_size top_k_nt top_k_aa config hmm_in_aas kv st
          = Ok {| results := results st ++ [whole_edge kv.1];
                  events := events st |}) as Hstep.
  { unfold search_component.
    by rewrite bool_decide_eq_true_2 by done. }
  split; [done|].
  intros neighbourhoods. cbn [search_components]. by rewrite Hstep.
Qed.

(** C6, as the loop has it. A component whose halved edge count is not below
    [min_size] and exceeds [max_size] is passed over: a warning is recorded,
    no result is added, no aligner call is recorded, and the loop goes on
    with the next component. *)
Theorem oversized_component_skipped (hmm_in_aas : bool)
    (kv : EdgeId * gset VertexId) (st : driver_state) :
  min_size config ≤ e_size kv.2 / 2 →
  e_size kv.2 / 2 > max_size config →
  search_component e_size top_k_nt top_k_aa config hmm_in_aas kv st
  = Ok {| results := results st;
          events := events st ++ [WarnTooLarge kv.1 (e_size kv.2 / 2)] |} ∧
  (∀ neighbourhoods,
     search_components e_size top_k_nt top_k_aa config hmm_in_aas (kv :: neighbourhoods) st
     = search_components e_size top_k_nt top_k_aa config hmm_in_aas neighbourhoods
         {| results := results st;
            events := events st ++ [WarnTooLarge kv.1 (e_size kv.2 / 2)] |}).
Proof.
  intros Hmin Hmax.
  assert (search_component e_size top_k_nt top_k_aa config hmm_in_aas kv st
          = Ok {| results := results st;
                  events := events st ++ [WarnTooLarge kv.1 (e_size kv.2 / 2)] |})
    as Hstep.
  { unfold search_component.
    rewrite bool_decide_eq_false_2 by lia.
    by rewrite bool_decide_eq_true_2 by done. }
  split; [done|].
  intros neighbourhoods. cbn [search_components]. by rewrite Hstep.
Qed.
End size_checks.

(** The single-edge component: one edge and its reverse complement give an
    edge count of 2, halved 1, below the default [min_size] of 2. *)
Lemma undersized_component_whole_edge_witness :
  search_component (Cnt := chain_cursor) (Caa := chain_cursor)
    (λ _, 2) (λ _ _, []) (λ _ _, []) default_cfg false (7%N, {[13%N; 14%N]})
    empty_state
  = Ok {| results := [whole_edge 7%N]; events := [] |}.
Proof.
  apply (undersized_component_whole_edge (Cnt := chain_cursor)
           (Caa := chain_cursor) (λ _, 2) (λ _ _, []) (λ _ _, [])
           default_cfg false (7%N, {[13%N; 14%N]}) empty_state).
  reflexivity.
Defined.

Lemma oversized_component_skipped_witness :
  search_component (Cnt := chain_cursor) (Caa := chain_cursor)
    (λ _, 2002) (λ _ _, []) (λ _ _, []) default_cfg false (7%N, {[13%N; 14%N]})
    empty_state
  = Ok {| results := []; events := [WarnTooLarge 7%N 1001] |}.
Proof.
  apply (oversized_component_skipped (Cnt := chain_cursor)
           (Caa := chain_cursor) (λ _, 2002) (λ _ _, []) (λ _ _, [])
           default_cfg false (7%N, {[13%N; 14%N]}) empty_state).
  - vm_compute. discriminate.
  - reflexivity.
Defined.

(** C6, as the specification words it, fails under [--min_size 10
    --max_size 3]: a component of 10 edges (5 after halving) exceeds the
    maximal size, yet the check against the minimal size comes first and a
    whole-edge result is added. *)
Lemma oversized_component_below_min_size :
  10 / 2 > max_size crossed_cfg ∧
  search_component (Cnt := chain_cursor) (Caa := chain_cursor)
    (λ _, 10) (λ _ _, []) (λ _ _, []) crossed_cfg false (7%N, {[13%N; 14%N]})
    empty_state
  = Ok {| results := [whole_edge 7%N]; events := [] |} ∧
  [whole_edge 7%N] ≠ results empty_state.
Proof. split_and!; [reflexivity|reflexivity|discriminate]. Qed.

(** ** [MergeSequences] *)

Section merge_sequences.
Variable g : ConjugateDeBruijnGraph.

Lemma MergeSequences_loop_continuous (prev_edge : EdgeId) (rest : list EdgeId)
    (path_sequences : list Sequence) :
  continuous_from g prev_edge rest →
  MergeSequences_loop g prev_edge rest path_sequences
  = Ok (path_sequences ++ (EdgeNucls g <$> rest)).
Proof.
  revert prev_edge path_sequences.
  induction rest as [|e rest IH]; intros prev_edge path_sequences Hcont.
  - simpl. by rewrite app_nil_r.
  - destruct Hcont as [Hmeet Hcont]. cbn [MergeSequences_loop].
    rewrite bool_decide_eq_true_2 by done.
    rewrite IH by done. rewrite fmap_cons, <- app_assoc. done.
Qed.

Lemma length_drop_overlap (path : list EdgeId) :
  0 ≤ k_ g →
  Forall (λ e, k_ g ≤ Z.of_nat (length (EdgeNucls g e)) < 2 ^ 64) path →
  Z.of_nat (length (concat (map (drop (Z.to_nat (k_ g))) (EdgeNucls g <$> path))))
  = sum_lengths g path.
Proof.
  intros Hk Hlen. induction Hlen as [|e path He _ IH]; [done|].
  rewrite fmap_cons. cbn [map concat sum_lengths foldr].
  rewrite length_app, Nat2Z.inj_add, IH. fold (sum_lengths g path).
  f_equal. rewrite length_drop. unfold DeBruijnDataMaster_length, wrap64.
  rewrite Z.mod_small by lia. lia.
Qed.

(** C8. Along a path whose consecutive edges meet, [MergeSequences] returns a
    sequence in which consecutive edge sequences overlap by k residues: its
    length is the sum of the edge lengths plus k, where the length of an edge
    is the length of its sequence minus k. For k > 0 this is not the bare sum
    of the edge lengths. (Edge sequences are at least k long.) *)
Theorem MergeSequences_length (path : list EdgeId) :
  path ≠ [] →
  0 ≤ k_ g →
  Forall (λ e, k_ g ≤ Z.of_nat (length (EdgeNucls g e)) < 2 ^ 64) path →
  continuous g path →
  ∃ s, MergeSequences g path = Ok s ∧
       Z.of_nat (length s) = sum_lengths g path + k_ g ∧
       (0 < k_ g → Z.of_nat (length s) ≠ sum_lengths g path).
Proof.
  intros Hne Hk Hlen Hcont. destruct path as [|e0 rest]; [done|].
  unfold MergeSequences. rewrite MergeSequences_loop_continuous by done.
  cbn. eexists. split; [done|].
  apply Forall_cons in Hlen as [He0 Hlen].
  assert (Z.of_nat (length (EdgeNucls g e0 ++
            concat (map (drop (Z.to_nat (k_ g))) (EdgeNucls g <$> rest))))
          = sum_lengths g (e0 :: rest) + k_ g) as Hsum.
  { rewrite length_app, Nat2Z.inj_add, length_drop_overlap by done.
    cbn [sum_lengths foldr]. fold (sum_lengths g rest).
    unfold DeBruijnDataMaster_length, wrap64.
    rewrite Z.mod_small by lia. lia. }
  split; [exact Hsum|]. intros Hpos. rewrite Hsum.
  unfold sum_lengths. cbn [foldr]. lia.
Qed.
End merge_sequences.

Lemma MergeSequences_length_witness :
  ∃ s, MergeSequences two_in_a_row [1%N; 2%N] = Ok s ∧
       Z.of_nat (length s)
       = DeBruijnDataMaster_length two_in_a_row 1%N
         + DeBruijnDataMaster_length two_in_a_row 2%N + k_ two_in_a_row.
Proof.
  destruct (MergeSequences_length two_in_a_row [1%N; 2%N])
    as (s & Hs & Hlen & _).
  - discriminate.
  - simpl. lia.
  - repeat constructor; simpl; lia.
  - simpl. split; [reflexivity|exact I].
  - exists s. split; [exact Hs|]. rewrite Hlen. simpl. lia.
Defined.

(** ** The functions at work on the fixtures *)

Example to_path_chain :
  to_path (C := chain_cursor)
    [None; Some 4%N; Some 4%N; None; Some 5%N; None; Some 4%N]
  = Ok [4%N; 5%N; 4%N].
Proof. reflexivity. Qed.

Example to_path_no_cursor : to_path (C := chain_cursor) [] = Fail OutOfBounds.
Proof. reflexivity. Qed.

Example Restricted_next_outside_space :
  next (Restricted (Some 4%N : chain_cursor) {[Some 4%N]}) () = [].
Proof. reflexivity. Qed.

Example Restricted_next_inside_space :
  restricted_base
    <$> next (Restricted (Some 4%N : chain_cursor) {[Some 4%N; Some 5%N]}) ()
  = [Some 5%N].
Proof. reflexivity. Qed.

Example join_reaching_edge_2 :
  (join disjoint_edges reaching_edge_2).*1 = [1%N; 5%N] ∧
  elements <$> (join disjoint_edges reaching_edge_2).*2
  = elements <$> [({[1%N; 2%N; 3%N; 4%N; 7%N]} : gset VertexId); {[9%N; 10%N]}].
Proof. split; vm_compute; reflexivity. Qed.

Example MergeSequences_two_in_a_row :
  MergeSequences two_in_a_row [1%N; 2%N] = Ok [nA; nC; nG; nT; nA; nC; nC].
Proof. reflexivity. Qed.

Example MergeSequences_not_continuous :
  MergeSequences two_in_a_row [2%N; 1%N] = Fail VerifyFailed.
Proof. reflexivity. Qed.

Example MergeSequences_no_edge :
  MergeSequences two_in_a_row [] = Fail OutOfBounds.
Proof. reflexivity. Qed.

(** * Further properties of the embedded code *)

(** ** cursor.hpp: how the decorators compose *)

Section decorator_composition.
Context {C : Type} `{Countable C} `{GraphCursor C}.

Lemma opposite_involutive (ds : list direction) :
  opposite <$> (opposite <$> ds) = ds.
Proof.
  rewrite <- list_fmap_compose. rewrite <- (list_fmap_id ds) at 2.
  apply list_fmap_ext. by intros _ [] _.
Qed.

(** Reversing twice gives back the base cursor's behaviour: [next] and
    [prev] of a doubly reversed cursor are the base cursor's, wrapped twice,
    and so is every walk. *)
Theorem Reversal_twice (c : C) (x : Context C) :
  next (Reversal (Reversal c)) x = Reversal <$> (Reversal <$> next c x) ∧
  prev (Reversal (Reversal c)) x = Reversal <$> (Reversal <$> prev c x) ∧
  (∀ ds cs,
     walk (C := ReversalGraphCursor (ReversalGraphCursor C)) ds
       (Reversal <$> (Reversal <$> cs)) x
     = Reversal <$> (Reversal <$> walk ds cs x)).
Proof.
  split_and!; [done..|]. intros ds cs.
  rewrite (walk_Reversal (C := ReversalGraphCursor C)).
  by rewrite walk_Reversal, opposite_involutive.
Qed.

Lemma frontier_Restricted_sublist (d : direction)
    (rs : list (RestrictedGraphCursor C)) (cs : list C) (x : Context C) :
  restricted_base <$> rs `sublist_of` cs →
  restricted_base
    <$> concat (map (λ r : RestrictedGraphCursor C, step d r x) rs)
  `sublist_of` concat (map (λ c, step d c x) cs).
Proof.
  intros Hsub. remember (restricted_base <$> rs) as bs eqn:Hbs.
  revert rs Hbs. induction Hsub as [|b bs cs _ IH|c bs cs _ IH]; intros rs Hbs.
  - destruct rs; [done|discriminate].
  - destruct rs as [|r rs]; [discriminate|]. injection Hbs as -> ->.
    cbn [map concat]. rewrite fmap_app. apply sublist_app; [|by apply IH].
    rewrite step_Restricted. apply sublist_filter.
  - cbn [map concat]. apply sublist_inserts_l. by apply IH.
Qed.

(** Restriction only takes paths away: whatever a walk of restricted cursors
    reaches, the walk of their base cursors along the same directions
    reaches too, in the same order. *)
Theorem Restricted_walk_sublist (ds : list direction)
    (rs : list (RestrictedGraphCursor C)) (x : Context C) :
  restricted_base <$> walk ds rs x
  `sublist_of` walk ds (restricted_base <$> rs) x.
Proof.
  assert (∀ ds (rs : list (RestrictedGraphCursor C)) cs,
            restricted_base <$> rs `sublist_of` cs →
            restricted_base <$> walk ds rs x `sublist_of` walk ds cs x) as Hgen.
  { clear ds rs. induction ds as [|d ds IH]; intros rs cs Hsub; [done|].
    cbn [walk]. by apply IH, frontier_Restricted_sublist. }
  by apply Hgen.
Qed.
End decorator_composition.

Section decorator_composition_spaces.
Context {C : Type} `{Countable C} `{GraphCursor C}.

Lemma filter_space_mono (S S' : gset C) (l : list C) :
  S ⊆ S' → filter (λ b, b ∈ S) l `sublist_of` filter (λ b, b ∈ S') l.
Proof.
  intros HS. induction l as [|b l IH]; [done|].
  rewrite !filter_cons. destruct (decide (b ∈ S)) as [Hb|Hb].
  - rewrite decide_True by set_solver. by apply sublist_skip.
  - destruct (decide (b ∈ S')); [by apply sublist_cons|done].
Qed.

Lemma sublist_filter_mono (P : C → Prop) `{!∀ b, Decision (P b)} (l k : list C) :
  l `sublist_of` k → filter P l `sublist_of` filter P k.
Proof.
  induction 1 as [|b l k _ IH|b l k _ IH]; [done| |].
  - rewrite !filter_cons. destruct (decide (P b)); [by apply sublist_skip|done].
  - rewrite filter_cons. destruct (decide (P b)); [by apply sublist_cons|done].
Qed.

Lemma frontier_Restricted_mono (S S' : gset C) (d : direction)
    (rs rs' : list (RestrictedGraphCursor C)) (x : Context C) :
  S ⊆ S' →
  Forall (λ r, pspace_ r = S) rs → Forall (λ r, pspace_ r = S') rs' →
  restricted_base <$> rs `sublist_of` restricted_base <$> rs' →
  restricted_base
    <$> concat (map (λ r : RestrictedGraphCursor C, step d r x) rs)
  `sublist_of`
  restricted_base
    <$> concat (map (λ r : RestrictedGraphCursor C, step d r x) rs').
Proof.
  intros HS Hrs Hrs' Hsub.
  remember (restricted_base <$> rs) as bs eqn:Hbs.
  remember (restricted_base <$> rs') as bs' eqn:Hbs'.
  revert rs rs' Hrs Hrs' Hbs Hbs'.
  induction Hsub as [|b bs bs' _ IH|b bs bs' _ IH]; intros rs rs' Hrs Hrs' Hbs Hbs'.
  - destruct rs; [|discriminate]. apply sublist_nil_l.
  - destruct rs as [|r rs]; [discriminate|].
    destruct rs' as [|r' rs']; [discriminate|].
    injection Hbs as Hb ->. injection Hbs' as Hb' ->.
    apply Forall_cons in Hrs as [Hr Hrs]. apply Forall_cons in Hrs' as [Hr' Hrs'].
    cbn [map concat]. rewrite !fmap_app.
    apply sublist_app; [|by apply IH].
    rewrite !step_Restricted, Hr, Hr', <- Hb, <- Hb'. by apply filter_space_mono.
  - destruct rs' as [|r' rs']; [discriminate|]. injection Hbs' as Hb' ->.
    apply Forall_cons in Hrs' as [Hr' Hrs'].
    cbn [map concat]. rewrite fmap_app. apply sublist_inserts_l. by apply IH.
Qed.

(** A larger space allows more: for spaces [S ⊆ S'], what a walk from
    cursors restricted to [S] reaches is part of what the walk along the same
    directions from the same cursors restricted to [S'] reaches. *)
Theorem Restricted_walk_mono (S S' : gset C) (ds : list direction)
    (cursors : list C) (x : Context C) :
  S ⊆ S' →
  restricted_base
    <$> walk (C := RestrictedGraphCursor C) ds (make_restricted_cursors cursors S) x
  `sublist_of`
  restricted_base
    <$> walk (C := RestrictedGraphCursor C) ds (make_restricted_cursors cursors S') x.
Proof.
  intros HS.
  assert (∀ ds (rs rs' : list (RestrictedGraphCursor C)),
            Forall (λ r, pspace_ r = S) rs → Forall (λ r, pspace_ r = S') rs' →
            restricted_base <$> rs `sublist_of` restricted_base <$> rs' →
            restricted_base <$> walk ds rs x
            `sublist_of` restricted_base <$> walk ds rs' x) as Hgen.
  { clear ds. induction ds as [|d ds IH]; intros rs rs' Hrs Hrs' Hsub; [done|].
    cbn [walk]. apply IH.
    - eapply Forall_impl; [by apply (frontier_Restricted S)|]. by intros r [_ ?].
    - eapply Forall_impl; [by apply (frontier_Restricted S')|]. by intros r [_ ?].
    - by apply (frontier_Restricted_mono S S'). }
  apply Hgen.
  - unfold make_restricted_cursors. by apply Forall_fmap, Forall_true.
  - unfold make_restricted_cursors. by apply Forall_fmap, Forall_true.
  - unfold make_restricted_cursors. by rewrite <- !list_fmap_compose.
Qed.

(** Filtering reversed cursors by the image of a space is filtering the base
    cursors by the space. *)
Lemma filter_Reversal_space (S : gset C) (l : list C) :
  filter (λ r, r ∈ (set_map Reversal S : gset (ReversalGraphCursor C)))
    (Reversal <$> l)
  = Reversal <$> filter (λ b, b ∈ S) l.
Proof.
  induction l as [|b l IH]; [done|].
  rewrite fmap_cons, !filter_cons, IH.
  destruct (decide (b ∈ S)) as [Hb|Hb].
  - rewrite decide_True; [done|]. apply elem_of_map. by exists b.
  - rewrite decide_False; [done|].
    intros (b' & E & Hb')%elem_of_map. injection E as ->. done.
Qed.

Lemma frontier_Restricted_Reversal (S : gset C) (d : direction)
    (rrs : list (RestrictedGraphCursor (ReversalGraphCursor C)))
    (rs : list (RestrictedGraphCursor C)) (x : Context C) :
  Forall (λ r, pspace_ r = set_map Reversal S) rrs →
  Forall (λ r, pspace_ r = S) rs →
  restricted_base <$> rrs = Reversal <$> (restricted_base <$> rs) →
  restricted_base
    <$> concat (map (λ r : RestrictedGraphCursor (ReversalGraphCursor C),
                       step d r x) rrs)
  = Reversal
      <$> (restricted_base
             <$> concat (map (λ r : RestrictedGraphCursor C,
                                step (opposite d) r x) rs)).
Proof.
  intros Hrrs. revert rs. induction Hrrs as [|rr rrs Hrr _ IH]; intros rs Hrs Hbase.
  - by destruct rs.
  - destruct rs as [|r rs]; [discriminate|]. rewrite !fmap_cons in Hbase.
    injection Hbase as Hb Hbase. apply Forall_cons in Hrs as [Hr Hrs].
    cbn [map concat]. rewrite !fmap_app, (IH rs) by done. f_equal.
    rewrite (step_Restricted (C := ReversalGraphCursor C)), step_Restricted.
    rewrite Hrr, Hr, Hb, step_Reversal. apply filter_Reversal_space.
Qed.

(** Reversal and Restriction commute. Restricting reversed cursors to the
    image of a space and reversing cursors restricted to the space lead to
    the same base cursors, in the same order, along every walk. *)
Theorem Restricted_Reversal_commute (S : gset C) (ds : list direction)
    (cursors : list C) (x : Context C) :
  reversal_base
    <$> (restricted_base
           <$> walk (C := RestrictedGraphCursor (ReversalGraphCursor C)) ds
                 (make_restricted_cursors (Reversal <$> cursors)
                    (set_map Reversal S)) x)
  = restricted_base
      <$> (reversal_base
             <$> walk (C := ReversalGraphCursor (RestrictedGraphCursor C)) ds
                   (Reversal <$> make_restricted_cursors cursors S) x).
Proof.
  rewrite (walk_Reversal (C := RestrictedGraphCursor C)).
  rewrite <- (list_fmap_compose Reversal reversal_base), list_fmap_id.
  assert (∀ ds (rrs : list (RestrictedGraphCursor (ReversalGraphCursor C)))
            (rs : list (RestrictedGraphCursor C)),
            Forall (λ r, pspace_ r = set_map Reversal S) rrs →
            Forall (λ r, pspace_ r = S) rs →
            restricted_base <$> rrs = Reversal <$> (restricted_base <$> rs) →
            restricted_base <$> walk ds rrs x
            = Reversal <$> (restricted_base <$> walk (opposite <$> ds) rs x))
    as Hgen.
  { clear ds. induction ds as [|d ds IH]; intros rrs rs Hrrs Hrs Hbase; [done|].
    rewrite fmap_cons. cbn [walk]. apply IH.
    - eapply Forall_impl;
        [by apply (frontier_Restricted (C := ReversalGraphCursor C)
                     (set_map Reversal S))|].
      by intros r [_ ?].
    - eapply Forall_impl; [by apply (frontier_Restricted S)|]. by intros r [_ ?].
    - by apply (frontier_Restricted_Reversal S). }
  rewrite (Hgen ds _ (make_restricted_cursors cursors S)).
  - rewrite <- (list_fmap_compose Reversal reversal_base). apply list_fmap_id.
  - unfold make_restricted_cursors. by apply Forall_fmap, Forall_true.
  - unfold make_restricted_cursors. by apply Forall_fmap, Forall_true.
  - unfold make_restricted_cursors. by rewrite <- !list_fmap_compose.
Qed.

(** [to_path] does not see the decorators: decorating the cursors of a path
    (reversing them, restricting them, either way) leaves the edge path as it
    is; in particular a reversed cursor path is not read backwards. *)
Theorem to_path_decorated (cpath : list C) (S : gset C) :
  to_path (Reversal <$> cpath) = to_path cpath ∧
  to_path (make_restricted_cursors cpath S) = to_path cpath ∧
  to_path (make_optimized_restricted_cursors cpath) = to_path cpath.
Proof.
  split_and!.
  - by apply (to_path_fmap (C1 := C) (C2 := ReversalGraphCursor C) Reversal).
  - by apply (to_path_fmap (C1 := C) (C2 := RestrictedGraphCursor C)
                (λ c, Restricted c S)).
  - by apply (to_path_fmap (C1 := C) (C2 := OptimizedRestrictedGraphCursor C)
                OptimizedRestricted).
Qed.
End decorator_composition_spaces.

Lemma Restricted_walk_mono_witness :
  restricted_base
    <$> walk (C := RestrictedGraphCursor chain_cursor) [Forwards; Forwards]
          (make_restricted_cursors [Some 4%N] {[Some 5%N]}) ()
  `sublist_of`
  restricted_base
    <$> walk (C := RestrictedGraphCursor chain_cursor) [Forwards; Forwards]
          (make_restricted_cursors [Some 4%N] {[Some 5%N; Some 6%N]}) ().
Proof.
  apply (Restricted_walk_mono (C := chain_cursor) {[Some 5%N]}
           {[Some 5%N; Some 6%N]} [Forwards; Forwards] [Some 4%N]
           (() : @Context chain_cursor chain_cursor_cursor)).
  set_solver.
Defined.

(** ** main.cpp: more on [to_path] *)

Section to_path_shape.
Context {C : Type} `{GraphCursor C}.

Lemma collapse_after_head (o : option EdgeId) (es : list EdgeId) :
  head (collapse_after o es) = None ∨ head (collapse_after o es) ≠ o.
Proof.
  induction es as [|e es IH]; [by left|].
  cbn [collapse_after]. case_bool_decide as Ho; [exact IH|].
  right. simpl. congruence.
Qed.

Lemma collapse_after_no_repeat (o : option EdgeId) (es : list EdgeId) :
  no_adjacent_repeat (collapse_after o es).
Proof.
  revert o. induction es as [|e es IH]; intros o; [done|].
  cbn [collapse_after]. case_bool_decide; [apply IH|].
  specialize (IH (Some e)). pose proof (collapse_after_head (Some e) es) as Hhd.
  destruct (collapse_after (Some e) es) as [|e' p]; [done|].
  split; [|exact IH]. destruct Hhd as [?|Hne]; [done|].
  simpl in Hne. congruence.
Qed.

Lemma collapse_after_sublist (o : option EdgeId) (es : list EdgeId) :
  collapse_after o es `sublist_of` es.
Proof.
  revert o. induction es as [|e es IH]; intros o; [done|].
  cbn [collapse_after]. case_bool_decide.
  - by apply sublist_cons.
  - by apply sublist_skip.
Qed.

Lemma collapse_after_all_same (e : EdgeId) (es : list EdgeId) :
  collapse_after (Some e) es = [] → Forall (λ e', e' = e) es.
Proof.
  induction es as [|e' es IH]; [constructor|].
  cbn [collapse_after]. case_bool_decide as He; [|done].
  intros Hnil. constructor; [congruence|by apply IH].
Qed.

Lemma collapse_after_last (o : option EdgeId) (es : list EdgeId) :
  collapse_after o es ≠ [] → last (collapse_after o es) = last es.
Proof.
  revert o. induction es as [|e es IH]; intros o; [done|].
  cbn [collapse_after]. case_bool_decide as Ho.
  - intros Hne. rewrite (IH _ Hne).
    destruct es; [done|]. by rewrite last_cons_cons.
  - intros _. destruct (collapse_after (Some e) es) as [|e' p] eqn:Hp.
    + apply collapse_after_all_same in Hp.
      clear IH Ho. induction Hp as [|e' es -> _ IH]; [done|].
      by rewrite last_cons_cons.
    + rewrite last_cons_cons, <- Hp, IH by (rewrite Hp; done).
      destruct es; [done|]. by rewrite last_cons_cons.
Qed.

(** In the edge path that [to_path] returns no edge follows itself; and the
    only way [to_path] fails is the read past the end of a sequence without a
    non-empty cursor. *)
Theorem to_path_no_adjacent_repeat (cpath : list C) :
  match to_path cpath with
  | Ok path => no_adjacent_repeat path
  | Fail f => f = OutOfBounds ∧ Forall (λ c, is_empty c = true) cpath
  end.
Proof.
  rewrite to_path_eq. destruct (nonempty_cursors cpath) eqn:Hne.
  - split; [done|]. by apply nonempty_cursors_nil.
  - apply collapse_after_no_repeat.
Qed.

(** The edge path is taken from the edges of the non-empty cursors, in their
    order: it is a sublist of them that begins with the edge of the first
    non-empty cursor and ends with the edge of the last one. *)
Theorem to_path_sublist (cpath : list C) :
  match to_path cpath with
  | Ok path =>
      path `sublist_of` edge <$> nonempty_cursors cpath ∧
      head path = edge <$> head (nonempty_cursors cpath) ∧
      last path = edge <$> last (nonempty_cursors cpath) ∧
      (length path ≤ length cpath)%nat
  | Fail _ => True
  end.
Proof.
  rewrite to_path_eq. destruct (nonempty_cursors cpath) as [|c cs] eqn:Hne; [done|].
  split_and!.
  - apply collapse_after_sublist.
  - done.
  - unfold collapse_repeats. rewrite collapse_after_last by done.
    by rewrite fmap_last.
  - etrans; [apply sublist_length, collapse_after_sublist|].
    rewrite length_fmap, <- Hne. unfold nonempty_cursors. apply length_filter.
Qed.

Lemma nonempty_cursors_app (l1 l2 : list C) :
  nonempty_cursors (l1 ++ l2) = nonempty_cursors l1 ++ nonempty_cursors l2.
Proof. apply filter_app. Qed.

Lemma last_cons_from_option (o : option EdgeId) (e : EdgeId) (es : list EdgeId) :
  from_option Some o (last (e :: es)) = from_option Some (Some e) (last es).
Proof.
  destruct es as [|e0 es]; [done|]. rewrite last_cons_cons.
  destruct (last (e0 :: es)) eqn:Hl; [done|]. by apply last_None in Hl.
Qed.

Lemma collapse_after_app (o : option EdgeId) (es1 es2 : list EdgeId) :
  collapse_after o (es1 ++ es2)
  = collapse_after o es1
    ++ collapse_after (from_option Some o (last es1)) es2.
Proof.
  revert o. induction es1 as [|e es1 IH]; intros o; [done|].
  rewrite <- app_comm_cons. cbn [collapse_after].
  rewrite !IH, last_cons_from_option. case_bool_decide as Ho; [|done].
  by rewrite Ho.
Qed.

Lemma collapse_after_Some (e : EdgeId) (es : list EdgeId) :
  collapse_after (Some e) es
  = if bool_decide (head (collapse_repeats es) = Some e)
    then tail (collapse_repeats es) else collapse_repeats es.
Proof.
  destruct es as [|e' es]; [done|].
  unfold collapse_repeats. cbn [collapse_after].
  rewrite (bool_decide_eq_false_2 (None = Some e')) by done. simpl.
  case_bool_decide as He; case_bool_decide as He'; congruence.
Qed.

Lemma collapse_repeats_app (es1 es2 : list EdgeId) :
  es1 ≠ [] →
  collapse_repeats (es1 ++ es2)
  = collapse_repeats es1
    ++ if bool_decide (head (collapse_repeats es2) = last (collapse_repeats es1))
       then tail (collapse_repeats es2) else collapse_repeats es2.
Proof.
  intros Hne. unfold collapse_repeats at 1. rewrite collapse_after_app.
  fold (collapse_repeats es1). f_equal.
  assert (last (collapse_repeats es1) = last es1) as ->.
  { apply collapse_after_last. by apply collapse_after_nonempty. }
  destruct (last es1) as [e|] eqn:Hl.
  - apply collapse_after_Some.
  - by apply last_None in Hl.
Qed.

(** Materialising a concatenation: the edge path of [l1 ++ l2] is the edge
    path of [l1] followed by that of [l2], less the first edge of the second
    when it repeats the last edge of the first. *)
Theorem to_path_app (l1 l2 : list C) (p1 p2 : list EdgeId) :
  to_path l1 = Ok p1 → to_path l2 = Ok p2 →
  to_path (l1 ++ l2)
  = Ok (p1 ++ if bool_decide (head p2 = last p1) then tail p2 else p2).
Proof.
  rewrite !to_path_eq, nonempty_cursors_app.
  destruct (nonempty_cursors l1) as [|c1 cs1] eqn:H1; [done|].
  destruct (nonempty_cursors l2) as [|c2 cs2] eqn:H2; [done|].
  intros Hp1 Hp2.
  assert (p1 = collapse_repeats (edge <$> c1 :: cs1)) as -> by congruence.
  assert (p2 = collapse_repeats (edge <$> c2 :: cs2)) as -> by congruence.
  clear Hp1 Hp2. simpl ((c1 :: cs1) ++ _). lazy beta iota.
  f_equal. rewrite app_comm_cons, fmap_app. by apply collapse_repeats_app.
Qed.
End to_path_shape.

Lemma to_path_app_witness :
  to_path (C := chain_cursor) ([Some 4%N; None; Some 5%N] ++ [None; Some 5%N; Some 6%N])
  = Ok [4%N; 5%N; 6%N].
Proof.
  apply (to_path_app (C := chain_cursor) [Some 4%N; None; Some 5%N]
           [None; Some 5%N; Some 6%N] [4%N; 5%N] [5%N; 6%N]); reflexivity.
Defined.

(** ** main.cpp: the outcomes of [MergeSequences] *)

Section merge_sequences_outcome.
Variable g : ConjugateDeBruijnGraph.

Lemma MergeSequences_loop_broken (prev_edge : EdgeId) (rest : list EdgeId)
    (path_sequences : list Sequence) :
  ¬ continuous_from g prev_edge rest →
  MergeSequences_loop g prev_edge rest path_sequences = Fail VerifyFailed.
Proof.
  revert prev_edge path_sequences.
  induction rest as [|e rest IH]; intros prev_edge path_sequences Hbroken.
  - by destruct Hbroken.
  - cbn [MergeSequences_loop]. case_bool_decide as Hmeet; [|done].
    apply IH. intros Hrest. apply Hbroken. by split.
Qed.

Lemma continuous_from_dec (prev_edge : EdgeId) (rest : list EdgeId) :
  continuous_from g prev_edge rest ∨ ¬ continuous_from g prev_edge rest.
Proof.
  revert prev_edge. induction rest as [|e rest IH]; intros prev_edge; [by left|].
  simpl. destruct (decide (EdgeEnd g prev_edge = EdgeStart g e)) as [Hmeet|Hmeet].
  - destruct (IH e) as [Hrest|Hrest]; [by left|]. right. by intros [_ ?].
  - right. by intros [? _].
Qed.

(** [MergeSequences] reads out of bounds exactly on the empty path, fails its
    [VERIFY] exactly on a non-empty path with two consecutive edges that do
    not meet, and otherwise returns the merge of the edge sequences of the
    path, in order. *)
Theorem MergeSequences_outcome (path : list EdgeId) :
  (MergeSequences g path = Fail OutOfBounds ↔ path = []) ∧
  (MergeSequences g path = Fail VerifyFailed ↔ path ≠ [] ∧ ¬ continuous g path) ∧
  (MergeSequences g path
   = Ok (MergeOverlappingSequences (EdgeNucls g <$> path) (k_ g))
   ↔ path ≠ [] ∧ continuous g path).
Proof.
  destruct path as [|e0 rest].
  - split_and!; split; try done; intros [? _]; done.
  - unfold MergeSequences. cbn [continuous].
    destruct (continuous_from_dec e0 rest) as [Hcont|Hbroken].
    + rewrite MergeSequences_loop_continuous by done. cbn.
      split_and!; split; try done; naive_solver.
    + rewrite MergeSequences_loop_broken by done. cbn.
      split_and!; split; try done; naive_solver.
Qed.
End merge_sequences_outcome.

(** ** main.cpp: more on joining components *)

Section join_invariants.
Variable graph : ConjugateDeBruijnGraph.
Implicit Types (acc : gset VertexId) (l : list (EdgeId * gset VertexId)).

Lemma join_length l : (length (join graph l) ≤ length l)%nat.
Proof.
  pose proof (sublist_length _ _ (join_leaders graph l)) as Hlen.
  by rewrite !length_fmap in Hlen.
Qed.

Lemma join_NoDup l : NoDup l.*1 → NoDup (join graph l).*1.
Proof. intros Hnd. eapply sublist_NoDup; [exact Hnd|]. apply join_leaders. Qed.

Lemma join_endpoints l :
  Forall (λ kv, EdgeStart graph kv.1 ∈ kv.2 ∧ EdgeEnd graph kv.1 ∈ kv.2) l →
  Forall (λ kv, EdgeStart graph kv.1 ∈ kv.2 ∧ EdgeEnd graph kv.1 ∈ kv.2)
    (join graph l).
Proof.
  rewrite !Forall_forall. intros Hends [c sc] Hc.
  destruct (join_origin graph l c sc Hc) as (sc0 & Hc0 & Hsub & _).
  destruct (Hends _ Hc0) as [Hs He]. simpl in *. set_solver.
Qed.

Lemma join_endpoints_covered l a sa :
  Forall (λ kv, EdgeStart graph kv.1 ∈ kv.2 ∧ EdgeEnd graph kv.1 ∈ kv.2) l →
  (a, sa) ∈ l →
  ∃ c sc, (c, sc) ∈ join graph l ∧
          EdgeStart graph a ∈ sc ∧ EdgeEnd graph a ∈ sc.
Proof.
  rewrite Forall_forall. intros Hends Ha.
  destruct (join_covers graph l a sa Ha) as (c & sc & Hc & Hsub).
  destruct (Hends _ Ha) as [Hs He]. simpl in *. exists c, sc. set_solver.
Qed.

(** The joining loop keeps what the extraction established: the surviving
    leaders are distinct and there are no more of them than before, the
    vertex set of every surviving component holds both endpoints of its
    leader edge, and the endpoints of every leader of the input, erased or
    not, lie together in one surviving component. *)
Theorem join_keeps_endpoints l :
  NoDup l.*1 →
  Forall (λ kv, EdgeStart graph kv.1 ∈ kv.2 ∧ EdgeEnd graph kv.1 ∈ kv.2) l →
  NoDup (join graph l).*1 ∧
  (length (join graph l) ≤ length l)%nat ∧
  Forall (λ kv, EdgeStart graph kv.1 ∈ kv.2 ∧ EdgeEnd graph kv.1 ∈ kv.2)
    (join graph l) ∧
  (∀ a sa, (a, sa) ∈ l →
     ∃ c sc, (c, sc) ∈ join graph l ∧
             EdgeStart graph a ∈ sc ∧ EdgeEnd graph a ∈ sc).
Proof.
  intros Hnd Hends. split_and!.
  - by apply join_NoDup.
  - apply join_length.
  - by apply join_endpoints.
  - intros a sa Ha. by eapply join_endpoints_covered.
Qed.

Lemma absorb_none acc l :
  Forall (λ kv, ¬ absorbed graph acc kv.1) l → absorb graph acc l = (acc, l).
Proof.
  induction 1 as [|entry l Hentry _ IH]; [done|].
  rewrite absorb_cons, bool_decide_eq_false_2 by done. by rewrite IH.
Qed.

Lemma absorb_all_kept acc l :
  length (absorb graph acc l).2 = length l →
  Forall (λ kv, ¬ absorbed graph acc kv.1) l.
Proof.
  revert acc. induction l as [|entry l IH]; intros acc; [constructor|].
  rewrite absorb_cons. case_bool_decide as Habs; simpl.
  - pose proof (absorb_length graph (acc ∪ entry.2) l). lia.
  - intros Hlen. constructor; [done|]. apply IH. lia.
Qed.

(** The loop leaves a map as it is exactly when no vertex set holds an
    endpoint of the leader edge of a later entry. *)
Theorem join_fixed_point l :
  join graph l = l ↔
  ∀ l1 a sa l2 b sb l3,
    l = l1 ++ (a, sa) :: l2 ++ (b, sb) :: l3 → ¬ absorbed graph sa b.
Proof.
  induction l as [|[e s] l IH].
  - split; [|done]. intros _ l1 a sa l2 b sb l3 Hl. by destruct l1.
  - rewrite join_cons. cbn [fst snd]. split.
    + intros Hjoin. injection Hjoin as Hacc Hkept.
      assert (length (absorb graph s l).2 = length l) as Hlen.
      { pose proof (join_length (absorb graph s l).2) as H1.
        pose proof (absorb_length graph s l) as H2.
        rewrite Hkept in H1. lia. }
      apply absorb_all_kept in Hlen. rewrite absorb_none in Hkept by done.
      cbn [snd] in Hkept.
      intros l1 a sa l2 b sb l3 Hl. destruct l1 as [|x l1].
      * injection Hl as -> -> ->. rewrite Forall_forall in Hlen.
        apply (Hlen (b, sb)). apply elem_of_app. right. left.
      * injection Hl as <- ->. pose proof (proj1 IH Hkept) as Hun.
        by eapply Hun.
    + intros Huntouched.
      assert (Forall (λ kv, ¬ absorbed graph s kv.1) l) as Hnone.
      { apply Forall_forall. intros [b sb] Hb.
        apply list_elem_of_split in Hb as (l2 & l3 & ->).
        by apply (Huntouched [] e s l2 b sb l3). }
      rewrite absorb_none by done. cbn [fst snd]. f_equal.
      apply IH. intros l1 a sa l2 b sb l3 ->.
      by apply (Huntouched ((e, s) :: l1) a sa l2 b sb l3).
Qed.

(** One run need not be the last: when the first entry touches [b] only
    through the set of a later entry [c] that it absorbs, [b] has been passed
    by then and survives; a second run of the loop merges it. *)
Theorem join_twice (a b c : EdgeId) (sa sb sc : gset VertexId) :
  ¬ absorbed graph sa b → absorbed graph sa c → absorbed graph (sa ∪ sc) b →
  join graph [(a, sa); (b, sb); (c, sc)] = [(a, sa ∪ sc); (b, sb)] ∧
  join graph (join graph [(a, sa); (b, sb); (c, sc)]) = [(a, sa ∪ sc ∪ sb)].
Proof.
  intros Hab Hac Hacb.
  assert (join graph [(a, sa); (b, sb); (c, sc)] = [(a, sa ∪ sc); (b, sb)]) as ->.
  { rewrite join_cons, !absorb_cons. cbn [fst snd absorb].
    rewrite (bool_decide_eq_false_2 _ Hab), (bool_decide_eq_true_2 _ Hac).
    cbn [fst snd]. rewrite join_cons. cbn [fst snd absorb]. by simp join. }
  split; [done|].
  rewrite join_cons, !absorb_cons. cbn [fst snd absorb].
  rewrite (bool_decide_eq_true_2 _ Hacb). by simp join.
Qed.
End join_invariants.

Section extraction_then_join.
Variable graph : ConjugateDeBruijnGraph.
Variable ForwardReachedVertices : Z → VertexId → list VertexId.
Variable BackwardReachedVertices : Z → VertexId → list VertexId.

Lemma extract_neighbourhoods_leaders (hmm_in_aas : bool)
    (matched : list (EdgeId * (Z * Z))) :
  (extract_neighbourhoods graph ForwardReachedVertices BackwardReachedVertices
     hmm_in_aas matched).*1 = matched.*1.
Proof.
  unfold extract_neighbourhoods. rewrite <- list_fmap_compose.
  by apply list_fmap_ext.
Qed.

Lemma extract_neighbourhoods_endpoints (hmm_in_aas : bool)
    (matched : list (EdgeId * (Z * Z))) :
  Forall (λ kv, EdgeStart graph kv.1 ∈ kv.2 ∧ EdgeEnd graph kv.1 ∈ kv.2)
    (extract_neighbourhoods graph ForwardReachedVertices
       BackwardReachedVertices hmm_in_aas matched).
Proof.
  unfold extract_neighbourhoods. apply Forall_fmap, Forall_true.
  intros entry. apply extract_neighbourhood_endpoints.
Qed.

(** Extraction followed by joining, whatever order the map of neighbourhoods
    is iterated in: for distinct matched edges, the components handed to the
    path search have distinct leaders among the matched edges, each holds the
    endpoints of its leader edge, and the endpoints of every matched edge lie
    together in one of them. *)
Theorem joined_neighbourhoods (hmm_in_aas : bool)
    (matched : list (EdgeId * (Z * Z)))
    (neighbourhoods : list (EdgeId * gset VertexId)) :
  NoDup matched.*1 →
  neighbourhoods ≡ₚ extract_neighbourhoods graph ForwardReachedVertices
                      BackwardReachedVertices hmm_in_aas matched →
  NoDup (join graph neighbourhoods).*1 ∧
  (join graph neighbourhoods).*1 ⊆ matched.*1 ∧
  Forall (λ kv, EdgeStart graph kv.1 ∈ kv.2 ∧ EdgeEnd graph kv.1 ∈ kv.2)
    (join graph neighbourhoods) ∧
  (∀ e, e ∈ matched.*1 →
     ∃ c sc, (c, sc) ∈ join graph neighbourhoods ∧
             EdgeStart graph e ∈ sc ∧ EdgeEnd graph e ∈ sc).
Proof.
  intros Hnd Hperm.
  assert (neighbourhoods.*1 ≡ₚ matched.*1) as Hkeys.
  { rewrite Hperm. by rewrite extract_neighbourhoods_leaders. }
  assert (Forall (λ kv, EdgeStart graph kv.1 ∈ kv.2 ∧ EdgeEnd graph kv.1 ∈ kv.2)
            neighbourhoods) as Hends.
  { rewrite Hperm. apply extract_neighbourhoods_endpoints. }
  split_and!.
  - apply join_NoDup. by rewrite Hkeys.
  - intros e He. rewrite <- Hkeys. eapply elem_of_sublist; [exact He|].
    apply join_leaders.
  - by apply join_endpoints.
  - intros e He. rewrite <- Hkeys in He.
    apply list_elem_of_fmap in He as ([a sa] & -> & Ha).
    by eapply join_endpoints_covered.
Qed.
End extraction_then_join.


Lemma join_keeps_endpoints_witness :
  NoDup (join disjoint_edges reaching_edge_2).*1 ∧
  Forall (λ kv, EdgeStart disjoint_edges kv.1 ∈ kv.2
                ∧ EdgeEnd disjoint_edges kv.1 ∈ kv.2)
    (join disjoint_edges reaching_edge_2).
Proof.
  destruct (join_keeps_endpoints disjoint_edges reaching_edge_2)
    as (Hnd & _ & Hends & _).
  - compute_done.
  - repeat constructor; compute_done.
  - split; [exact Hnd|exact Hends].
Defined.

Lemma join_twice_witness :
  join disjoint_edges reaching_through_3
  = [(1%N, {[1%N; 2%N; 5%N]} ∪ {[5%N; 6%N; 3%N]}); (2%N, {[3%N; 4%N]})] ∧
  join disjoint_edges (join disjoint_edges reaching_through_3)
  = [(1%N, {[1%N; 2%N; 5%N]} ∪ {[5%N; 6%N; 3%N]} ∪ {[3%N; 4%N]})].
Proof.
  apply (join_twice disjoint_edges 1%N 2%N 3%N).
  - intros [H1|H1]; revert H1; compute_done.
  - left. compute_done.
  - left. compute_done.
Defined.

Lemma joined_neighbourhoods_witness :
  let matched := [(1%N, (0, 1)); (2%N, (0, 0))] in
  let neighbourhoods :=
    reverse (extract_neighbourhoods disjoint_edges reach_one_more
               reach_one_more false matched) in
  NoDup (join disjoint_edges neighbourhoods).*1 ∧
  Forall (λ kv, EdgeStart disjoint_edges kv.1 ∈ kv.2
                ∧ EdgeEnd disjoint_edges kv.1 ∈ kv.2)
    (join disjoint_edges neighbourhoods).
Proof.
  intros matched neighbourhoods.
  destruct (joined_neighbourhoods disjoint_edges reach_one_more reach_one_more
              false matched neighbourhoods) as (Hnd & _ & Hends & _).
  - compute_done.
  - apply reverse_Permutation.
  - split; [exact Hnd|exact Hends].
Defined.

(** ** main.cpp: the path search over all components *)

Section run_search_properties.
Context {C : Type} `{GraphCursor C}.

Lemma to_path_Ok_nonempty (cpath : list C) (p : list EdgeId) :
  to_path cpath = Ok p → p ≠ [].
Proof.
  rewrite to_path_eq. destruct (nonempty_cursors cpath) eqn:Hne; [done|].
  intros [= <-]. by apply collapse_after_nonempty.
Qed.

Lemma run_search_loop_Ok (e : EdgeId) (top_paths : list (list C * string))
    (idx : Z) (local_results rs : list PathInfo) :
  0 ≤ idx → idx + Z.of_nat (length top_paths) ≤ 2 ^ 32 →
  run_search_loop e idx top_paths local_results = Ok rs →
  ∃ new, rs = local_results ++ new ∧ length new = length top_paths ∧
    ∀ i r, new !! i = Some r →
      leader r = e ∧ priority r = idx + Z.of_nat i ∧ path_ r ≠ [] ∧
      ∃ kv, top_paths !! i = Some kv ∧ seq_ r = kv.2 ∧
            to_path kv.1 = Ok (path_ r).
Proof.
  revert idx local_results.
  induction top_paths as [|kv top_paths IH]; intros idx local_results Hidx Hlen.
  - intros [= <-]. exists []. rewrite app_nil_r. split_and!; [done..|].
    intros i r Hi. by rewrite lookup_nil in Hi.
  - cbn [run_search_loop]. destruct (to_path kv.1) as [p|f] eqn:Hp; [|done].
    cbn. rewrite length_cons in Hlen.
    assert (wrap64 (idx + 1) = idx + 1) as ->
      by (unfold wrap64; apply Z.mod_small; lia).
    intros Hrun. apply IH in Hrun as (new & -> & Hnew & Hall); [|lia..].
    eexists (_ :: new). rewrite <- app_assoc. split_and!; [done|by rewrite length_cons, Hnew|].
    intros [|i] r Hi.
    + injection Hi as <-. cbn. split_and!.
      * done.
      * unfold wrap32. rewrite Z.mod_small by lia. lia.
      * by eapply to_path_Ok_nonempty.
      * by exists kv.
    + cbn in Hi. destruct (Hall i r Hi) as (? & ? & ? & ?).
      split_and!; [done|lia|done..].
Qed.

(** [run_search] keeps the aligner's order: its results are as many as the
    paths of [top_k], all under the component's leader, with priorities
    0, 1, 2, ... and each with the string of its path and the edge path of
    its cursors, which is never empty. *)
Theorem run_search_ranks (e : EdgeId) (top_paths : list (list C * string))
    (rs : list PathInfo) :
  Z.of_nat (length top_paths) ≤ 2 ^ 32 →
  run_search_loop e 0 top_paths [] = Ok rs →
  length rs = length top_paths ∧
  ∀ i r, rs !! i = Some r →
    leader r = e ∧ priority r = Z.of_nat i ∧ path_ r ≠ [] ∧
    ∃ kv, top_paths !! i = Some kv ∧ seq_ r = kv.2 ∧
          to_path kv.1 = Ok (path_ r).
Proof.
  intros Hlen Hrun.
  apply run_search_loop_Ok in Hrun as (new & -> & Hnew & Hall); [|lia..].
  split; [done|]. intros i r Hi. by apply Hall.
Qed.

(** [run_search] fails exactly when the aligner hands back a path without a
    non-empty cursor. *)
Lemma run_search_loop_Fail (e : EdgeId) (top_paths : list (list C * string))
    (idx : Z) (local_results : list PathInfo) :
  match run_search_loop e idx top_paths local_results with
  | Ok _ => Forall (λ kv, nonempty_cursors kv.1 ≠ []) top_paths
  | Fail f => f = OutOfBounds ∧ Exists (λ kv, nonempty_cursors kv.1 = []) top_paths
  end.
Proof.
  revert idx local_results.
  induction top_paths as [|kv top_paths IH]; intros idx local_results;
    [cbn; constructor|].
  cbn [run_search_loop]. rewrite to_path_eq.
  destruct (nonempty_cursors kv.1) eqn:Hne; cbn.
  - split; [done|]. by left.
  - match goal with |- context [run_search_loop e ?i top_paths ?acc] =>
      specialize (IH i acc); destruct (run_search_loop e i top_paths acc)
    end.
    + constructor; [by rewrite Hne|done].
    + destruct IH as [-> ?]. split; [done|]. by right.
Qed.
End run_search_properties.

Lemma run_search_ranks_witness :
  run_search_loop (C := chain_cursor) 7%N 0
    [([Some 1%N; Some 2%N], "AC"%string); ([None; Some 3%N], "G"%string)] []
  = Ok [ {| leader := 7%N; priority := 0; seq_ := "AC"; path_ := [1%N; 2%N] |};
         {| leader := 7%N; priority := 1; seq_ := "G"; path_ := [3%N] |} ] ∧
  ∀ i r,
    [ {| leader := 7%N; priority := 0; seq_ := "AC"; path_ := [1%N; 2%N] |};
      {| leader := 7%N; priority := 1; seq_ := "G"; path_ := [3%N] |} ] !! i
    = Some r → priority r = Z.of_nat i.
Proof.
  split; [reflexivity|]. intros i r Hi.
  eapply (run_search_ranks (C := chain_cursor) 7%N
            [([Some 1%N; Some 2%N], "AC"%string); ([None; Some 3%N], "G"%string)]);
    [vm_compute; discriminate|reflexivity|exact Hi].
Defined.

Section search_components_properties.
Context {Cnt Caa : Type} `{GraphCursor Cnt} `{GraphCursor Caa}.
Variable e_size : gset VertexId → Z.
Variable top_k_nt : gset VertexId → Z → list (list Cnt * string).
Variable top_k_aa : gset VertexId → Z → list (list Caa * string).
Variable config : cfg.
Variable hmm_in_aas : bool.

(** What one component adds to the state, by the three cases of the loop
    body. *)
Lemma search_component_Ok (kv : EdgeId * gset VertexId) (st st' : driver_state) :
  search_component e_size top_k_nt top_k_aa config hmm_in_aas kv st = Ok st' →
  (e_size kv.2 / 2 < min_size config ∧
   results st' = results st ++ [whole_edge kv.1] ∧ events st' = events st) ∨
  (min_size config ≤ e_size kv.2 / 2 ∧ e_size kv.2 / 2 > max_size config ∧
   results st' = results st ∧
   events st' = events st ++ [WarnTooLarge kv.1 (e_size kv.2 / 2)]) ∨
  (min_size config ≤ e_size kv.2 / 2 ≤ max_size config ∧
   ∃ local_results,
     (if hmm_in_aas
      then run_search_loop kv.1 0 (top_k_aa kv.2 (cfg_top config)) []
      else run_search_loop kv.1 0 (top_k_nt kv.2 (cfg_top config)) [])
     = Ok local_results ∧
     results st' = results st ++ local_results ∧
     events st'
     = events st ++ (if draw config then [DrawComponent kv.1] else [])
       ++ [FindBestPath kv.1 kv.2 hmm_in_aas]).
Proof.
  unfold search_component. case_bool_decide as Hmin.
  { intros [= <-]. left. done. }
  case_bool_decide as Hmax.
  { intros [= <-]. right. left. split_and!; [lia|done..]. }
  intros Hrun. right. right. split; [lia|].
  destruct (if hmm_in_aas then _ else _) as [local_results|f] eqn:Hlocal;
    [|done].
  injection Hrun as <-. by exists local_results.
Qed.

Lemma run_search_loop_leaders {C : Type} `{GraphCursor C} (e : EdgeId)
    (top_paths : list (list C * string)) (idx : Z)
    (local_results rs : list PathInfo) :
  run_search_loop e idx top_paths local_results = Ok rs →
  ∃ new, rs = local_results ++ new ∧
         Forall (λ r, leader r = e ∧ path_ r ≠ []) new.
Proof.
  revert idx local_results.
  induction top_paths as [|kv top_paths IH]; intros idx local_results.
  - intros [= <-]. exists []. by rewrite app_nil_r.
  - cbn [run_search_loop]. destruct (to_path kv.1) as [p|f] eqn:Hp; [|done].
    cbn. intros Hrun. apply IH in Hrun as (new & -> & Hnew).
    eexists (_ :: new). rewrite <- app_assoc. split; [done|].
    constructor; [|done]. split; [done|]. by eapply to_path_Ok_nonempty.
Qed.

(** The loop over the components only adds: results and recorded events
    grow at the end. Every result added names a component of the map as its
    leader and has a non-empty edge path, so that [MergeSequences], run on it
    for rescoring, never reads out of bounds. *)
Theorem search_components_results
    (neighbourhoods : list (EdgeId * gset VertexId)) (st st' : driver_state) :
  search_components e_size top_k_nt top_k_aa config hmm_in_aas neighbourhoods st
  = Ok st' →
  ∃ new_results new_events,
    results st' = results st ++ new_results ∧
    events st' = events st ++ new_events ∧
    Forall (λ r, leader r ∈ neighbourhoods.*1 ∧ path_ r ≠ [] ∧
                 ∀ g, MergeSequences g (path_ r) ≠ Fail OutOfBounds)
      new_results.
Proof.
  revert st. induction neighbourhoods as [|kv l IH]; intros st.
  - intros [= <-]. exists [], []. by rewrite !app_nil_r.
  - cbn [search_components].
    destruct (search_component _ _ _ _ _ kv st) as [st1|f] eqn:Hstep; [|done].
    cbn. intros Hrest. apply IH in Hrest as (nr & ne & Hr & He & Hall).
    assert (∃ nr1 ne1, results st1 = results st ++ nr1 ∧
                       events st1 = events st ++ ne1 ∧
                       Forall (λ r, leader r = kv.1 ∧ path_ r ≠ []) nr1)
      as (nr1 & ne1 & Hr1 & He1 & Hall1).
    { apply search_component_Ok in Hstep
        as [(_ & Hr1 & He1)|[(_ & _ & Hr1 & He1)|(_ & lr & Hlr & Hr1 & He1)]].
      - exists [whole_edge kv.1], []. rewrite app_nil_r.
        split_and!; [done..|]. by repeat constructor.
      - exists [], [WarnTooLarge kv.1 (e_size kv.2 / 2)]. rewrite app_nil_r.
        split_and!; [done..|]. constructor.
      - eexists lr, _. split_and!; [done..|].
        destruct hmm_in_aas;
          apply run_search_loop_leaders in Hlr as (new & -> & Hnew); done. }
    exists (nr1 ++ nr), (ne1 ++ ne). rewrite !app_assoc, <- Hr1, <- He1.
    split_and!; [done..|]. apply Forall_app. split.
    + eapply Forall_impl; [exact Hall1|]. intros r [Hlead Hne].
      split_and!; [rewrite Hlead; left|done|].
      intros g. destruct (path_ r) as [|e0 rest]; [done|].
      unfold MergeSequences.
      destruct (continuous_from_dec g e0 rest) as [Hcont|Hbroken].
      * by rewrite MergeSequences_loop_continuous.
      * by rewrite MergeSequences_loop_broken.
    + eapply Forall_impl; [exact Hall|]. intros r (Hlead & Hne & Hmerge).
      split_and!; [by right|done..].
Qed.

(** The aligner is called once for every component whose halved edge count
    lies within [min_size] and [max_size], in the order of the map, and for no
    other; the warning is given for the components above [max_size] that are
    not below [min_size], and for no other. *)
Theorem search_components_calls
    (neighbourhoods : list (EdgeId * gset VertexId)) (st st' : driver_state) :
  search_components e_size top_k_nt top_k_aa config hmm_in_aas neighbourhoods st
  = Ok st' →
  aligner_calls (events st')
  = aligner_calls (events st)
    ++ filter (λ kv, min_size config ≤ e_size kv.2 / 2 ≤ max_size config)
         neighbourhoods ∧
  warned (events st')
  = warned (events st)
    ++ (filter (λ kv, min_size config ≤ e_size kv.2 / 2
                      ∧ e_size kv.2 / 2 > max_size config) neighbourhoods).*1.
Proof.
  revert st. induction neighbourhoods as [|kv l IH]; intros st.
  - intros [= <-]. by rewrite !app_nil_r.
  - cbn [search_components].
    destruct (search_component _ _ _ _ _ kv st) as [st1|f] eqn:Hstep; [|done].
    cbn -[filter]. intros Hrest. apply IH in Hrest as [Hcalls Hwarned].
    rewrite Hcalls, Hwarned, !filter_cons.
    apply search_component_Ok in Hstep
      as [(Hmin & _ & He1)|[(Hmin & Hmax & _ & He1)|(Hin & lr & _ & _ & He1)]];
      rewrite He1.
    + rewrite !decide_False by lia. done.
    + rewrite decide_False, decide_True by lia.
      unfold aligner_calls, warned. rewrite !omap_app. cbn.
      rewrite app_nil_r, <- app_assoc. done.
    + rewrite decide_True, decide_False by lia.
      unfold aligner_calls, warned. rewrite !omap_app.
      destruct (draw config); cbn; rewrite ?app_nil_r, <- ?app_assoc;
        by destruct kv.
Qed.

(** The loop over the components fails only by the read past the end in
    [to_path], and exactly when the aligner, called on a component within the
    size bounds, hands back a path without a non-empty cursor. *)
Theorem search_components_failure
    (neighbourhoods : list (EdgeId * gset VertexId)) (st : driver_state) :
  let bad kv :=
    min_size config ≤ e_size kv.2 / 2 ≤ max_size config ∧
    if hmm_in_aas
    then Exists (λ p, nonempty_cursors p.1 = []) (top_k_aa kv.2 (cfg_top config))
    else Exists (λ p, nonempty_cursors p.1 = []) (top_k_nt kv.2 (cfg_top config))
  in
  match search_components e_size top_k_nt top_k_aa config hmm_in_aas
          neighbourhoods st with
  | Ok _ => Forall (λ kv, ¬ bad kv) neighbourhoods
  | Fail f => f = OutOfBounds ∧ Exists bad neighbourhoods
  end.
Proof.
  intros bad. revert st. induction neighbourhoods as [|kv l IH]; intros st.
  - cbn. constructor.
  - cbn [search_components].
    assert (match search_component e_size top_k_nt top_k_aa config
                    hmm_in_aas kv st with
            | Ok _ => ¬ bad kv
            | Fail f => f = OutOfBounds ∧ bad kv
            end) as Hstep.
    { unfold search_component, bad. case_bool_decide as Hmin.
      { cbn. intros [? _]. lia. }
      case_bool_decide as Hmax.
      { cbn. intros [? _]. lia. }
      destruct hmm_in_aas.
      - pose proof (run_search_loop_Fail kv.1 (top_k_aa kv.2 (cfg_top config))
                      0 []) as Hrun.
        destruct (run_search_loop _ _ _ _) as [lr|f]; cbn.
        + intros [_ Hex]. apply Exists_exists in Hex as (p & Hp & Hbad).
          rewrite Forall_forall in Hrun. by apply (Hrun p).
        + destruct Hrun as [-> Hex]. split; [done|]. split; [lia|done].
      - pose proof (run_search_loop_Fail kv.1 (top_k_nt kv.2 (cfg_top config))
                      0 []) as Hrun.
        destruct (run_search_loop _ _ _ _) as [lr|f]; cbn.
        + intros [_ Hex]. apply Exists_exists in Hex as (p & Hp & Hbad).
          rewrite Forall_forall in Hrun. by apply (Hrun p).
        + destruct Hrun as [-> Hex]. split; [done|]. split; [lia|done]. }
    destruct (search_component _ _ _ _ _ kv st) as [st1|f]; cbn.
    + specialize (IH st1).
      destruct (search_components _ _ _ _ _ l st1) as [st2|f].
      * by constructor.
      * destruct IH as [-> Hex]. split; [done|]. by right.
    + destruct Hstep as [-> Hbad]. split; [done|]. by left.
Qed.
End search_components_properties.

Lemma search_components_results_witness :
  ∃ st', two_components_run = Ok st' ∧
         Forall (λ r, leader r ∈ [7%N; 8%N] ∧ path_ r ≠ []) (results st').
Proof.
  destruct two_components_run as [st'|f] eqn:Hrun; [|by vm_compute in Hrun].
  destruct (search_components_results (Cnt := chain_cursor)
              (Caa := chain_cursor) _ _ _ _ _ _ _ _ Hrun)
    as (nr & ne & Hr & _ & Hall).
  exists st'. split; [done|]. rewrite Hr. cbn.
  eapply Forall_impl; [exact Hall|]. cbn. by intros r (? & ? & _).
Defined.

Lemma search_components_calls_witness :
  ∃ st', two_components_run = Ok st' ∧
         aligner_calls (events st') = [(8%N, {[1%N; 2%N; 3%N; 4%N]})] ∧
         warned (events st') = [].
Proof.
  destruct two_components_run as [st'|f] eqn:Hrun; [|by vm_compute in Hrun].
  destruct (search_components_calls (Cnt := chain_cursor)
              (Caa := chain_cursor) _ _ _ _ _ _ _ _ Hrun) as [Hcalls Hwarned].
  exists st'. split; [done|]. rewrite Hcalls, Hwarned. split; reflexivity.
Defined.

(** ** debruijn_data.hpp: coverage counters *)

Lemma inc_coverage_lower (c : CoverageData) (value : Z) :
  0 ≤ coverage_ c < 2 ^ 32 → - 2 ^ 31 < value < 0 →
  inc_coverage c value
  = if bool_decide (- value < coverage_ c)
    then Ok {| coverage_ := coverage_ c + value |}
    else Fail VerifyFailed.
Proof.
  intros Hc Hv. unfold inc_coverage.
  rewrite (bool_decide_eq_false_2 (value >= 0)) by lia. cbn [orb].
  assert (wrap32 (- value) = - value) as ->
    by (unfold wrap32; apply Z.mod_small; lia).
  case_bool_decide; case_bool_decide; try lia; [|done].
  do 2 f_equal. unfold wrap32. apply Z.mod_small. lia.
Qed.

(** Lowering a coverage: for a negative [value] (above the least [int]),
    [inc_coverage] succeeds exactly when the coverage is strictly greater than
    the amount taken off, and then leaves the exact, strictly positive
    difference. A coverage can thus not be lowered to zero. *)
Theorem inc_coverage_negative (c : CoverageData) (value : Z) :
  0 ≤ coverage_ c < 2 ^ 32 → - 2 ^ 31 < value < 0 →
  inc_coverage c value
  = (if bool_decide (- value < coverage_ c)
     then Ok {| coverage_ := coverage_ c + value |}
     else Fail VerifyFailed) ∧
  ∀ c', inc_coverage c value = Ok c' → 0 < coverage_ c' < coverage_ c.
Proof.
  intros Hc Hv. rewrite inc_coverage_lower by done. split; [done|].
  intros c'. case_bool_decide; [|done]. intros [= <-]. simpl. lia.
Qed.

Lemma inc_coverage_negative_witness :
  inc_coverage {| coverage_ := 5 |} (-5) = Fail VerifyFailed ∧
  inc_coverage {| coverage_ := 5 |} (-4) = Ok {| coverage_ := 1 |}.
Proof.
  split.
  - apply (inc_coverage_negative {| coverage_ := 5 |} (-5)); simpl; lia.
  - apply (inc_coverage_negative {| coverage_ := 5 |} (-4)); simpl; lia.
Defined.

(** Raising a coverage and taking the same amount off again gives back the
    coverage, provided it was not zero (and the sum fits 32 bits); from zero,
    the second step fails its [VERIFY]. *)
Theorem inc_coverage_round_trip (c : CoverageData) (value : Z) :
  0 ≤ coverage_ c → 0 < value < 2 ^ 31 → coverage_ c + value < 2 ^ 32 →
  (c' ← inc_coverage c value; inc_coverage c' (- value))
  = if bool_decide (0 < coverage_ c) then Ok c else Fail VerifyFailed.
Proof.
  intros Hc Hv Hsum.
  assert (inc_coverage c value = Ok {| coverage_ := coverage_ c + value |}) as ->.
  { unfold inc_coverage. rewrite (bool_decide_eq_true_2 (value >= 0)) by lia.
    cbn. do 2 f_equal. unfold wrap32. apply Z.mod_small. lia. }
  cbn. rewrite inc_coverage_lower by (simpl; lia). cbn [coverage_].
  case_bool_decide; case_bool_decide; try lia; [|done].
  destruct c as [n]. cbn. do 2 f_equal. lia.
Qed.

Lemma inc_coverage_round_trip_witness :
  (c' ← inc_coverage CoverageData_new 3; inc_coverage c' (- 3))
  = Fail VerifyFailed ∧
  (c' ← inc_coverage {| coverage_ := 1 |} 3; inc_coverage c' (- 3))
  = Ok {| coverage_ := 1 |}.
Proof.
  split.
  - apply (inc_coverage_round_trip CoverageData_new 3); simpl; lia.
  - apply (inc_coverage_round_trip {| coverage_ := 1 |} 3); simpl; lia.
Defined.

(** ** debruijn_data.hpp: [SplitData] *)

Section SplitData_properties.
Variable Subseq : Sequence → Z → Z → Sequence.
Hypothesis Subseq_substring :
  ∀ s from to, 0 ≤ from ≤ to → to ≤ Z.of_nat (length s) →
               Subseq s from to = substring s from to.
Variable k : Z.
Hypothesis k_nonneg : 0 ≤ k.

(** Splitting an edge that is not self-conjugate at [position]: the two
    parts have lengths [position] and the rest of the edge's length, they
    overlap in the k-mer at the cut, merging them with overlap k gives back
    the edge's sequence, and both parts start with coverage zero. *)
Theorem SplitData_parts (edge : DeBruijnEdgeData) (position : Z) :
  0 ≤ position → position + k ≤ Z.of_nat (length (nucls_ edge)) →
  Z.of_nat (length (nucls_ edge)) < 2 ^ 64 →
  ∃ e1 e2,
    SplitData Subseq k edge position false = Ok (VertexData 0, (e1, e2)) ∧
    EdgeData_length k e1 = position ∧
    EdgeData_length k e2 = EdgeData_length k edge - position ∧
    drop (Z.to_nat position) (nucls_ e1) = take (Z.to_nat k) (nucls_ e2) ∧
    MergeOverlappingSequences [nucls_ e1; nucls_ e2] k = nucls_ edge ∧
    raw_coverage e1 = 0 ∧ raw_coverage e2 = 0 ∧
    flanking_coverage e1 = 0 ∧ flanking_coverage e2 = 0.
Proof.
  intros Hpos Hfit Hsize. unfold SplitData. cbn.
  assert (wrap64 (position + k) = position + k) as ->
    by (unfold wrap64; apply Z.mod_small; lia).
  rewrite !Subseq_substring by lia. unfold substring.
  rewrite Z.sub_0_r, drop_0.
  replace (Z.to_nat 0) with 0%nat by done.
  set (s := nucls_ edge) in *. set (n := length s) in *.
  assert (Z.to_nat (Z.of_nat n - position) = (n - Z.to_nat position)%nat) as Hrest
    by lia.
  assert (take (Z.to_nat (Z.of_nat n - position)) (drop (Z.to_nat position) s)
          = drop (Z.to_nat position) s) as Hsecond.
  { apply take_ge. rewrite length_drop. lia. }
  eexists _, _. split; [done|]. cbn [nucls_ EdgeData]. rewrite Hsecond.
  unfold EdgeData_length, wrap64. cbn [nucls_ EdgeData].
  rewrite length_take, length_drop. subst n s.
  split_and!; try done.
  - rewrite Z.mod_small by lia. lia.
  - rewrite !Z.mod_small by lia. lia.
  - rewrite take_drop_commute. do 2 f_equal. lia.
  - cbn. rewrite app_nil_r, drop_drop.
    replace (Z.to_nat position + Z.to_nat k)%nat with (Z.to_nat (position + k))
      by lia.
    apply take_drop.
Qed.

(** Splitting a self-conjugate edge: the [VERIFY] fails exactly from
    [position] = the length of the sequence on; below it, with room for the
    k-mer on both sides, the first part has length [position] and the second
    what is left once [position] is taken off at both ends. *)
Theorem SplitData_self_conjugate (edge : DeBruijnEdgeData) (position : Z) :
  0 ≤ position → Z.of_nat (length (nucls_ edge)) < 2 ^ 64 →
  (SplitData Subseq k edge position true = Fail VerifyFailed
   ↔ Z.of_nat (length (nucls_ edge)) ≤ position) ∧
  (position < Z.of_nat (length (nucls_ edge)) →
   2 * position + k ≤ Z.of_nat (length (nucls_ edge)) →
   ∃ e1 e2,
     SplitData Subseq k edge position true = Ok (VertexData 0, (e1, e2)) ∧
     EdgeData_length k e1 = position ∧
     EdgeData_length k e2 = EdgeData_length k edge - 2 * position).
Proof.
  intros Hpos Hsize. unfold SplitData. split.
  - case_bool_decide; cbn; split; (done || lia).
  - intros Hlt Hfit. rewrite bool_decide_eq_true_2 by done. cbn.
    assert (wrap64 (position + k) = position + k) as ->
      by (unfold wrap64; apply Z.mod_small; lia).
    assert (wrap64 (Z.of_nat (length (nucls_ edge)) - position)
            = Z.of_nat (length (nucls_ edge)) - position) as ->
      by (unfold wrap64; apply Z.mod_small; lia).
    rewrite !Subseq_substring by lia. unfold substring.
    eexists _, _. split; [done|].
    unfold EdgeData_length, wrap64. cbn [nucls_ EdgeData].
    rewrite !length_take, !length_drop.
    split; rewrite ?Z.mod_small by lia; lia.
Qed.
End SplitData_properties.

Lemma SplitData_parts_witness :
  SplitData substring 3 (EdgeData [nA; nC; nG; nT; nA; nC; nC]) 2 false
  = Ok (VertexData 0,
        (EdgeData [nA; nC; nG; nT; nA], EdgeData [nG; nT; nA; nC; nC])).
Proof.
  destruct (SplitData_parts substring (λ _ _ _ _ _, eq_refl) 3 ltac:(lia)
              (EdgeData [nA; nC; nG; nT; nA; nC; nC]) 2)
    as (e1 & e2 & Hsplit & _); [simpl; lia..|].
  reflexivity.
Defined.

Lemma SplitData_self_conjugate_witness :
  SplitData substring 3 (EdgeData [nA; nC; nG; nT]) 4 true = Fail VerifyFailed.
Proof.
  apply (SplitData_self_conjugate substring (λ _ _ _ _ _, eq_refl) 3
           ltac:(lia) (EdgeData [nA; nC; nG; nT]) 4); simpl; lia.
Defined.

(** ** main.cpp: [matched_edges] *)

Lemma digit_cases (d : Z) :
  0 ≤ d ≤ 9 →
  d = 0 ∨ d = 1 ∨ d = 2 ∨ d = 3 ∨ d = 4 ∨ d = 5 ∨ d = 6 ∨ d = 7 ∨ d = 8 ∨ d = 9.
Proof. lia. Qed.

Lemma digit_value_digit_char (d : Z) :
  0 ≤ d ≤ 9 → digit_value (digit_char d) = Some d.
Proof.
  intros Hd. destruct (digit_cases d Hd) as [->|[->|[->|[->|[->|[->|[->|[->|[->| ->]]]]]]]]];
    reflexivity.
Qed.

(** On a string that begins with a digit, [stoull] converts the run of
    digits. *)
Lemma stoull_digit (d : Z) (rest : string) :
  0 ≤ d ≤ 9 →
  stoull (String (digit_char d) rest)
  = if bool_decide (digits_value (String (digit_char d) rest) 0 < 2 ^ 64)
    then Converted (digits_value (String (digit_char d) rest) 0)
    else out_of_range.
Proof.
  intros Hd. destruct (digit_cases d Hd) as [->|[->|[->|[->|[->|[->|[->|[->|[->| ->]]]]]]]]];
    reflexivity.
Qed.

Lemma to_string_loop_app (fuel : nat) (n : Z) (acc s : string) :
  (to_string_loop fuel n acc ++ s)%string = to_string_loop fuel n (acc ++ s)%string.
Proof.
  revert n acc. induction fuel as [|fuel IH]; intros n acc; [done|].
  cbn [to_string_loop]. case_bool_decide; [done|]. by rewrite IH.
Qed.

Lemma to_string_loop_head (fuel : nat) (n d : Z) (rest : string) :
  0 ≤ d ≤ 9 →
  ∃ d' rest', 0 ≤ d' ≤ 9 ∧
    to_string_loop fuel n (String (digit_char d) rest)
    = String (digit_char d') rest'.
Proof.
  revert n d rest. induction fuel as [|fuel IH]; intros n d rest Hd.
  - by exists d, rest.
  - cbn [to_string_loop].
    assert (0 ≤ n mod 10 ≤ 9) as Hmod by (pose proof (Z.mod_pos_bound n 10); lia).
    case_bool_decide; [by eexists _, _|]. by apply IH.
Qed.

Lemma to_string_loop_digit (fuel : nat) (n : Z) (acc : string) :
  ∃ d rest, 0 ≤ d ≤ 9 ∧
    to_string_loop (S fuel) n acc = String (digit_char d) rest.
Proof.
  cbn [to_string_loop].
  assert (0 ≤ n mod 10 ≤ 9) as Hmod by (pose proof (Z.mod_pos_bound n 10); lia).
  case_bool_decide; [by eexists _, _|]. by apply to_string_loop_head.
Qed.

Lemma to_string_loop_value (fuel : nat) (n : Z) (acc : string) (a : Z) :
  0 ≤ n < 10 ^ Z.of_nat fuel →
  ∃ p, 0 < p ∧
    digits_value (to_string_loop fuel n acc) a = digits_value acc (a * p + n).
Proof.
  revert n acc a. induction fuel as [|fuel IH]; intros n acc a Hn.
  - exists 1. simpl in *. split; [lia|]. f_equal. lia.
  - cbn [to_string_loop].
    assert (0 ≤ n mod 10 ≤ 9) as Hmod by (pose proof (Z.mod_pos_bound n 10); lia).
    pose proof (Z.div_mod n 10 ltac:(lia)) as Hdm.
    case_bool_decide as Hsmall.
    + exists 10. split; [lia|]. cbn [digits_value].
      rewrite digit_value_digit_char by done. f_equal. lia.
    + assert (0 ≤ n / 10 < 10 ^ Z.of_nat fuel) as Hdiv.
      { split; [apply Z.div_pos; lia|].
        apply Z.div_lt_upper_bound; [lia|].
        rewrite Nat2Z.inj_succ, Z.pow_succ_r in Hn by lia. lia. }
      destruct (IH (n / 10) (String (digit_char (n mod 10)) acc) a Hdiv)
        as (p & Hp & ->).
      exists (10 * p). split; [lia|]. cbn [digits_value].
      rewrite digit_value_digit_char by done. f_equal. lia.
Qed.

(** The names given to the matcher lead back to the edge: for an index [i]
    that fits [size_t], [std::stoull] of [std::to_string(i)], and of
    [std::to_string(i) + "_" + std::to_string(shift)] for any reading frame,
    is [i] again. *)
Theorem stoull_ref (i shift : Z) :
  0 ≤ i < 2 ^ 64 →
  stoull (ref i) = Converted i ∧ stoull (ref_shift i shift) = Converted i.
Proof.
  intros Hi.
  assert (∀ suffix,
            digits_value suffix i = i →
            stoull (to_string_loop 20 i suffix) = Converted i) as Hgen.
  { intros suffix Hsuffix.
    destruct (to_string_loop_digit 19 i suffix) as (d & rest & Hd & Hhead).
    destruct (to_string_loop_value 20 i suffix 0) as (p & _ & Hvalue); [lia|].
    rewrite Hhead in *. rewrite stoull_digit, Hvalue by done.
    replace (0 * p + i) with i by lia. rewrite Hsuffix.
    by rewrite bool_decide_eq_true_2 by lia. }
  split.
  - apply Hgen. done.
  - unfold ref_shift, ref, to_string at 1. rewrite to_string_loop_app.
    apply Hgen. done.
Qed.

Lemma stoull_ref_witness :
  stoull (ref 1234) = Converted 1234 ∧ stoull (ref_shift 1234 2) = Converted 1234.
Proof. apply (stoull_ref 1234 2). lia. Defined.

Section matched_edges_properties.
Variable edges : list EdgeId.
Implicit Types (m : gmap EdgeId (Z * Z)) (hits : list Hit) (ds : list Domain).

Lemma seen_app o ds1 ds2 : seen o (ds1 ++ ds2) = seen (seen o ds1) ds2.
Proof.
  destruct ds1 as [|d1 ds1]; [done|]. destruct ds2 as [|d2 ds2].
  - by rewrite app_nil_r.
  - simpl. by rewrite foldl_app.
Qed.

Lemma domains_loop_lookup e ds m e' :
  domains_loop e ds m !! e'
  = if bool_decide (e' = e) then seen (m !! e) ds else m !! e'.
Proof.
  revert m. induction ds as [|d ds IH]; intros m.
  - by case_bool_decide; subst.
  - cbn [domains_loop]. rewrite IH. case_bool_decide as He; subst.
    + rewrite lookup_insert_eq. destruct ds; [done|]. done.
    + by rewrite lookup_insert_ne.
Qed.

Lemma hits_loop_lookup hits m m' e :
  hits_loop edges hits m = Returned m' →
  m' !! e = seen (m !! e) (counting_domains edges hits e).
Proof.
  revert m. induction hits as [|hit hits IH]; intros m.
  - intros [= <-]. done.
  - cbn [hits_loop]. unfold counting_domains. cbn [map concat].
    fold (counting_domains edges hits e).
    destruct (reported hit), (included hit); cbn [negb orb andb]; try apply IH.
    destruct (stoull (name hit)) as [i| |]; [|done..].
    destruct (edges !! Z.to_nat i) as [e0|] eqn:Hi; [|done].
    intros Hrun. rewrite (IH _ Hrun), seen_app, domains_loop_lookup.
    case_bool_decide as He; case_bool_decide as He'; try congruence; done.
Qed.

Lemma max_list_Z_nonneg (zs : list Z) : 0 ≤ max_list_Z zs.
Proof.
  induction zs as [|z zs IH]; [done|]. unfold max_list_Z in *. cbn [foldr]. lia.
Qed.

Lemma foldl_update_entry ds (a b : Z) :
  0 ≤ a → 0 ≤ b →
  Forall (λ d, loverhang d < 2 ^ 32 ∧ roverhang d < 2 ^ 32) ds →
  foldl update_entry (a, b) ds
  = (Z.max a (max_list_Z (loverhang <$> ds)),
     Z.max b (max_list_Z (roverhang <$> ds))).
Proof.
  intros Ha Hb Hds. revert a b Ha Hb.
  induction Hds as [|d ds [Hl Hr] _ IH]; intros a b Ha Hb.
  - cbn. f_equal; lia.
  - cbn [foldl]. unfold update_entry at 2. cbn [fst snd].
    assert (0 ≤ loverhang d) as Hl0 by (unfold loverhang; lia).
    assert (0 ≤ roverhang d) as Hr0 by (unfold roverhang; lia).
    unfold wrap32. rewrite !Z.mod_small by lia.
    rewrite !fmap_cons. unfold max_list_Z. cbn [foldr].
    fold (max_list_Z (loverhang <$> ds)). fold (max_list_Z (roverhang <$> ds)).
    do 2 case_bool_decide; rewrite IH by lia; f_equal; lia.
Qed.

(** What [matched_edges] returns for an edge: nothing, when no reported and
    included hit on the edge has a domain; otherwise the largest left
    overhang and the largest right overhang over all domains of all such
    hits (for an amino-acid model: over the three reading frames), none of
    them negative. *)
Theorem matched_edges_overhangs hits m e :
  Forall (λ hit, Forall (λ d, loverhang d < 2 ^ 32 ∧ roverhang d < 2 ^ 32)
                   (domains hit)) hits →
  hits_loop edges hits ∅ = Returned m →
  m !! e
  = match counting_domains edges hits e with
    | [] => None
    | ds => Some (max_list_Z (loverhang <$> ds), max_list_Z (roverhang <$> ds))
    end.
Proof.
  intros Hbound Hrun. rewrite (hits_loop_lookup _ _ _ _ Hrun), lookup_empty.
  assert (Forall (λ d, loverhang d < 2 ^ 32 ∧ roverhang d < 2 ^ 32)
            (counting_domains edges hits e)) as Hds.
  { unfold counting_domains. apply Forall_concat, Forall_fmap.
    eapply Forall_impl; [exact Hbound|]. intros hit Hhit. cbn.
    destruct (reported hit && included hit); [|constructor].
    destruct (stoull (name hit)); try constructor.
    case_bool_decide; [done|constructor]. }
  destruct (counting_domains edges hits e) as [|d ds]; [done|].
  unfold seen. cbn [default]. rewrite foldl_update_entry by (done || lia).
  pose proof (max_list_Z_nonneg (loverhang <$> d :: ds)).
  pose proof (max_list_Z_nonneg (roverhang <$> d :: ds)).
  f_equal. f_equal; lia.
Qed.

(** Hits that are not both reported and included are passed over before
    anything of theirs is read: they can neither fail the run nor change its
    result. *)
Theorem hits_loop_skips hits m :
  hits_loop edges hits m
  = hits_loop edges (filter (λ hit, reported hit && included hit) hits) m.
Proof.
  revert m. induction hits as [|hit hits IH]; intros m; [done|].
  rewrite filter_cons. cbn [hits_loop].
  destruct (reported hit) eqn:Hr, (included hit) eqn:Hi; cbn [negb orb andb].
  - rewrite decide_True by done. cbn [hits_loop]. rewrite Hr, Hi.
    cbn [negb orb].
    destruct (stoull (name hit)) as [i| |]; [|done..].
    destruct (edges !! Z.to_nat i); [apply IH|done].
  - rewrite decide_False by (by intros []). apply IH.
  - rewrite decide_False by (by intros []). apply IH.
  - rewrite decide_False by (by intros []). apply IH.
Qed.
End matched_edges_properties.

Lemma matched_edges_overhangs_witness :
  ∃ m, hits_loop [11%N; 12%N] three_hits ∅ = Returned m ∧
       m !! 11%N = Some (3, 4) ∧ m !! 12%N = None.
Proof.
  destruct (hits_loop [11%N; 12%N] three_hits ∅) as [m| |] eqn:Hrun;
    [|by vm_compute in Hrun..].
  exists m. split; [done|].
  assert (Forall (λ hit, Forall (λ d, loverhang d < 2 ^ 32 ∧ roverhang d < 2 ^ 32)
                           (domains hit)) three_hits) as Hbound.
  { repeat constructor; vm_compute; reflexivity. }
  split.
  - etrans; [exact (matched_edges_overhangs [11%N; 12%N] three_hits m 11%N
                       Hbound Hrun)|].
    reflexivity.
  - etrans; [exact (matched_edges_overhangs [11%N; 12%N] three_hits m 12%N
                       Hbound Hrun)|].
    reflexivity.
Defined.

(** ** io_support.cpp: [ScaffoldBreaker::SplitPath] *)

Section SplitPath_properties.
Variable Conjugate : Piece → Piece.
Variable min_gap : Z.

Lemma SplitPath_push_app (rest : list PathElement) :
  (SplitPath_push min_gap rest).1 ++ (SplitPath_push min_gap rest).2 = rest.
Proof.
  induction rest as [|x rest IH]; [done|].
  cbn [SplitPath_push]. case_bool_decide; [|done]. cbn. by rewrite IH.
Qed.

Lemma SplitPath_push_close (rest : list PathElement) :
  Forall (λ x, gap x ≤ min_gap) (SplitPath_push min_gap rest).1.
Proof.
  induction rest as [|x rest IH]; [constructor|].
  cbn [SplitPath_push]. case_bool_decide; [by constructor|constructor].
Qed.

Lemma SplitPath_push_far (rest : list PathElement) :
  match (SplitPath_push min_gap rest).2 with
  | [] => True
  | x :: _ => gap x > min_gap
  end.
Proof.
  induction rest as [|x rest IH]; [done|].
  cbn [SplitPath_push]. case_bool_decide; [done|]. cbn. lia.
Qed.

Lemma SplitPath_push_length (rest : list PathElement) :
  (length (SplitPath_push min_gap rest).2 ≤ length rest)%nat.
Proof.
  rewrite <- (SplitPath_push_app rest) at 2. rewrite length_app. lia.
Qed.

Lemma SplitPath_cons (x : PathElement) (rest : list PathElement)
    (result : list (Piece * Piece)) :
  SplitPath Conjugate min_gap (x :: rest) result
  = SplitPath Conjugate min_gap (SplitPath_push min_gap rest).2
      (result ++ [((element_edge x, (SplitPath_push min_gap rest).1),
                   Conjugate (element_edge x, (SplitPath_push min_gap rest).1))]).
Proof. by simp SplitPath. Qed.

(** Breaking a path at its large gaps: the new entries are added after the
    old ones, each new path with its conjugate; the new paths, laid end to
    end, carry the edges of the path in order; inside a new path every gap is
    at most [min_gap_]; and there is one new path more than there are
    elements, from the second on, with a gap above [min_gap_]. *)
Theorem SplitPath_pieces (path : list PathElement)
    (result : list (Piece * Piece)) :
  ∃ pieces,
    SplitPath Conjugate min_gap path result
    = result ++ ((λ p, (p, Conjugate p)) <$> pieces) ∧
    concat (piece_edges <$> pieces) = element_edge <$> path ∧
    Forall (λ p, Forall (λ x, gap x ≤ min_gap) p.2) pieces ∧
    length pieces
    = match path with
      | [] => 0%nat
      | _ :: rest => S (length (filter (λ x, gap x > min_gap) rest))
      end.
Proof.
  remember (length path) as n eqn:Hn. revert path result Hn.
  induction n as [n IH] using lt_wf_ind. intros path result ->.
  destruct path as [|x rest].
  - exists []. simp SplitPath. by rewrite app_nil_r.
  - rewrite SplitPath_cons.
    pose proof (SplitPath_push_app rest) as Happ.
    pose proof (SplitPath_push_close rest) as Hclose.
    pose proof (SplitPath_push_far rest) as Hfar.
    pose proof (SplitPath_push_length rest) as Hlen.
    destruct (SplitPath_push min_gap rest) as [pushed left]. cbn [fst snd] in *.
    edestruct (IH (length left)) as (pieces & -> & Hedges & Hgaps & Hcount);
      [simpl; lia|reflexivity|].
    exists ((element_edge x, pushed) :: pieces). split_and!.
    + by rewrite fmap_cons, <- app_assoc.
    + rewrite fmap_cons. cbn [concat]. rewrite Hedges. unfold piece_edges.
      cbn [fst snd]. rewrite <- Happ, fmap_cons, fmap_app. done.
    + by constructor.
    + rewrite length_cons, Hcount. f_equal. rewrite <- Happ, filter_app.
      assert (filter (λ x, gap x > min_gap) pushed = []) as ->.
      { clear -Hclose. induction Hclose as [|y l Hy _ IHl]; [done|].
        rewrite filter_cons, decide_False by lia. done. }
      destruct left as [|y left]; [done|].
      rewrite filter_cons, decide_True by done. done.
Qed.
End SplitPath_properties.

(** ** io_support.cpp: the disjoint sets of [TranscriptToGeneJoiner] *)

Section joiner_properties.
Implicit Types (j : TranscriptToGeneJoiner) (x y z r d : nat).

Lemma reaches_functional j d d' x r r' :
  reaches j d x r → reaches j d' x r' → r = r' ∧ d = d'.
Proof.
  intros H. revert d' r'.
  induction H as [x Hx|d x p r Hx Hp _ IH]; intros d' r' H';
    inversion H' as [x' Hx'|d'' x' p' r'' Hx' Hp' H'']; subst; try congruence.
  - done.
  - assert (p' = p) as -> by congruence.
    destruct (IH _ _ H'') as [-> ->]. done.
Qed.

Lemma root_of_functional j x r r' : root_of j x r → root_of j x r' → r = r'.
Proof. intros [d H] [d' H']. by destruct (reaches_functional _ _ _ _ _ _ H H'). Qed.

Lemma reaches_end j d x r : reaches j d x r → parents_ j !! r = Some r.
Proof. induction 1; done. Qed.

Lemma reaches_lt j d x r : reaches j d x r → (x < length (parents_ j))%nat.
Proof. destruct 1; by eapply lookup_lt_Some. Qed.

Lemma reaches_rank j d x r :
  forest j → reaches j d x r →
  ∃ rx rr, ranks_ j !! x = Some rx ∧ ranks_ j !! r = Some rr ∧
           rx + Z.of_nat d ≤ rr.
Proof.
  intros [Hlen Hforest].
  induction 1 as [x Hx|d x p r Hx Hp _ IH].
  - destruct (lookup_lt_is_Some_2 (ranks_ j) x) as [rx Hrx].
    { rewrite <- Hlen. by eapply lookup_lt_Some. }
    exists rx, rx. split_and!; [done..|lia].
  - destruct (Hforest _ _ Hx) as [_ Hrank].
    destruct (Hrank Hp) as (rx & rp & Hrx & Hrp & Hlt).
    destruct IH as (rp' & rr & Hrp' & Hrr & Hle).
    assert (rp' = rp) as -> by congruence.
    exists rx, rr. split_and!; [done..|lia].
Qed.

(** Every index has a root, not further away than the ranks allow. *)
Lemma reaches_total j fuel x :
  forest j → Forall (λ rk, 0 ≤ rk < Z.of_nat fuel) (ranks_ j) →
  (x < length (parents_ j))%nat →
  ∃ d r, reaches j d x r ∧ (d < fuel)%nat.
Proof.
  intros Hf Hranks Hx.
  assert (∀ k x rx, ranks_ j !! x = Some rx → Z.of_nat fuel - rx ≤ Z.of_nat k →
                    ∃ d r, reaches j d x r) as Hgen.
  { clear x Hx. destruct Hf as [Hlen Hforest].
    induction k as [|k IH]; intros x rx Hrx Hk.
    - rewrite Forall_lookup in Hranks. specialize (Hranks _ _ Hrx). lia.
    - destruct (lookup_lt_is_Some_2 (parents_ j) x) as [p Hp].
      { rewrite Hlen. by eapply lookup_lt_Some. }
      destruct (decide (p = x)) as [->|Hne].
      + exists 0%nat, x. by constructor.
      + destruct (Hforest _ _ Hp) as [_ Hrank].
        destruct (Hrank Hne) as (rx' & rp & Hrx' & Hrp & Hlt).
        assert (rx' = rx) as -> by congruence.
        destruct (IH p rp Hrp) as (d & r & Hd); [lia|].
        exists (S d), r. by econstructor. }
  destruct (lookup_lt_is_Some_2 (ranks_ j) x) as [rx Hrx].
  { destruct Hf as [<- _]. done. }
  destruct (Hgen (Z.to_nat (Z.of_nat fuel)) x rx Hrx) as (d & r & Hd).
  { rewrite Forall_lookup in Hranks. specialize (Hranks _ _ Hrx). lia. }
  exists d, r. split; [done|].
  destruct (reaches_rank _ _ _ _ Hf Hd) as (rx' & rr & Hrx' & Hrr & Hle).
  rewrite Forall_lookup in Hranks.
  pose proof (Hranks _ _ Hrx'). pose proof (Hranks _ _ Hrr). lia.
Qed.

Lemma set_parent_lookup j x r y :
  (x < length (parents_ j))%nat →
  parents_ (set_parent j x r) !! y
  = if bool_decide (y = x) then Some r else parents_ j !! y.
Proof.
  intros Hx. cbn. case_bool_decide as Hy.
  - subst. by apply list_lookup_insert_eq.
  - by apply list_lookup_insert_ne.
Qed.

(** Pointing a node straight at its root changes no root. *)
Lemma compress_root_of j d x r y ry :
  reaches j d x r →
  root_of (set_parent j x r) y ry ↔ root_of j y ry.
Proof.
  intros Hxr. pose proof (reaches_lt _ _ _ _ Hxr) as Hx.
  pose proof (reaches_end _ _ _ _ Hxr) as Hr. split.
  - intros [dy Hy].
    induction Hy as [y Hy|dy y p ry Hy Hp _ IH];
      rewrite set_parent_lookup in Hy by done; case_bool_decide as Hyx; subst.
    + injection Hy as ->. by exists d.
    + exists 0%nat. by constructor.
    + injection Hy as <-. destruct IH as [dr IH].
      assert (ry = r) as ->.
      { eapply root_of_functional; [by exists dr|]. exists 0%nat. by constructor. }
      by exists d.
    + destruct IH as [dp IH]. exists (S dp). by econstructor.
  - intros [dy Hy].
    induction Hy as [y Hy|dy y p ry Hy Hp Hpr IH].
    + destruct (decide (y = x)) as [->|Hyx].
      * destruct (reaches_functional _ _ _ _ _ _ Hxr (reaches_root _ _ Hy))
          as [-> _].
        exists 0%nat. constructor. rewrite set_parent_lookup by done.
        by rewrite bool_decide_eq_true_2.
      * exists 0%nat. constructor. rewrite set_parent_lookup by done.
        by rewrite bool_decide_eq_false_2.
    + destruct (decide (y = x)) as [->|Hyx].
      * destruct (reaches_functional _ _ _ _ _ _ Hxr
                    (reaches_step _ _ _ _ _ Hy Hp Hpr)) as [-> _].
        assert (ry ≠ x) as Hrx by congruence.
        exists 1%nat. econstructor.
        -- rewrite set_parent_lookup by done. by rewrite bool_decide_eq_true_2.
        -- done.
        -- constructor. rewrite set_parent_lookup by done.
           by rewrite bool_decide_eq_false_2.
      * destruct IH as [dp IH]. exists (S dp). econstructor; [|done..].
        rewrite set_parent_lookup by done. by rewrite bool_decide_eq_false_2.
Qed.

Lemma compress_forest j d x r :
  forest j → reaches j d x r → forest (set_parent j x r).
Proof.
  intros Hf Hxr. pose proof (reaches_lt _ _ _ _ Hxr) as Hx.
  pose proof (reaches_end _ _ _ _ Hxr) as Hr.
  destruct (reaches_rank _ _ _ _ Hf Hxr) as (rx & rr & Hrx & Hrr & Hle).
  pose proof Hf as [Hlen Hforest]. split.
  - cbn. by rewrite length_insert.
  - intros y p Hy. rewrite set_parent_lookup in Hy by done.
    cbn [set_parent parents_ ranks_]. rewrite length_insert.
    case_bool_decide as Hyx; subst.
    + injection Hy as <-. split; [by eapply lookup_lt_Some|].
      intros Hne. exists rx, rr. split_and!; [done..|].
      destruct d; [|lia]. inversion Hxr; congruence.
    + by apply Hforest.
Qed.

Lemma FindTree_reaches fuel j d x r :
  forest j → reaches j d x r → (d < fuel)%nat →
  ∃ j', FindTree fuel x j = Some (Ok (j', r)) ∧
        forest j' ∧ ranks_ j' = ranks_ j ∧ path_id_ j' = path_id_ j ∧
        length (parents_ j') = length (parents_ j) ∧
        parents_ j' !! x = Some r ∧
        (∀ y ry, root_of j' y ry ↔ root_of j y ry).
Proof.
  revert j d x. induction fuel as [|fuel IH]; intros j d x Hf Hxr Hd; [lia|].
  cbn [FindTree]. inversion Hxr as [x' Hx|d' x' p r' Hx Hp Hpr]; subst.
  - rewrite Hx, bool_decide_eq_true_2 by done. exists j. split_and!; done.
  - rewrite Hx, bool_decide_eq_false_2 by done.
    destruct (IH j d' p Hf Hpr) as (j1 & -> & Hf1 & Hranks & Hids & Hlen & _ & Hroots);
      [lia|].
    assert (root_of j1 x r) as [d1 Hxr1] by (apply Hroots; by exists (S d')).
    exists (set_parent j1 x r). split_and!; try done.
    + by eapply compress_forest.
    + cbn. by rewrite length_insert.
    + cbn. apply list_lookup_insert_eq. rewrite Hlen. by eapply lookup_lt_Some.
    + intros y ry. rewrite <- Hroots. by eapply compress_root_of.
Qed.

(** [FindTree] returns the root of its argument, leaves every root and rank
    as it was, keeps the forest in order, and afterwards the argument points
    straight at its root. An argument outside the vectors is read out of
    bounds. The recursion is never deeper than the largest rank. *)
Theorem FindTree_root fuel j x :
  forest j → Forall (λ rk, 0 ≤ rk < Z.of_nat fuel) (ranks_ j) →
  ((x < length (parents_ j))%nat →
   ∃ j' r, FindTree fuel x j = Some (Ok (j', r)) ∧ root_of j x r ∧
           forest j' ∧ ranks_ j' = ranks_ j ∧
           parents_ j' !! x = Some r ∧
           (∀ y ry, root_of j' y ry ↔ root_of j y ry)) ∧
  ((length (parents_ j) ≤ x)%nat →
   FindTree (S fuel) x j = Some (Fail OutOfBounds)).
Proof.
  intros Hf Hranks. split.
  - intros Hx. destruct (reaches_total j fuel x Hf Hranks Hx) as (d & r & Hxr & Hd).
    destruct (FindTree_reaches fuel j d x r Hf Hxr Hd)
      as (j' & Hfind & Hf' & Hr' & _ & _ & Hpx & Hroots).
    exists j', r. split_and!; try done. by exists d.
  - intros Hx. cbn [FindTree]. by rewrite lookup_ge_None_2.
Qed.
End joiner_properties.

Section joiner_union.
Implicit Types (j : TranscriptToGeneJoiner) (x y z w a b r : nat).

Lemma same_tree_roots j z w rz rw :
  root_of j z rz → root_of j w rw → (same_tree j z w ↔ rz = rw).
Proof.
  intros Hz Hw. split.
  - intros (r & Hzr & Hwr).
    rewrite (root_of_functional _ _ _ _ Hz Hzr).
    by rewrite (root_of_functional _ _ _ _ Hw Hwr).
  - intros <-. by exists rz.
Qed.

Lemma same_tree_ext j j' z w :
  (∀ y ry, root_of j' y ry ↔ root_of j y ry) →
  same_tree j' z w ↔ same_tree j z w.
Proof.
  intros Hroots. unfold same_tree. split; intros (r & Hz & Hw); exists r.
  - by rewrite <- !Hroots.
  - by rewrite !Hroots.
Qed.

(** Hanging the root [a] under the root [b]. *)
Lemma link_forest j a b ranks' :
  forest j → parents_ j !! a = Some a → parents_ j !! b = Some b → a ≠ b →
  length ranks' = length (ranks_ j) →
  (∀ z rz, z ≠ b → ranks_ j !! z = Some rz → ranks' !! z = Some rz) →
  (∃ ra rb rb', ranks_ j !! a = Some ra ∧ ranks_ j !! b = Some rb ∧
                ranks' !! b = Some rb' ∧ rb ≤ rb' ∧ ra < rb') →
  forest {| parents_ := <[a := b]> (parents_ j); ranks_ := ranks';
            path_id_ := path_id_ j |}.
Proof.
  intros [Hlen Hforest] Ha Hb Hab Hlen' Hsame (ra & rb & rb' & Hra & Hrb & Hrb' & Hle & Hlt).
  split; cbn [parents_ ranks_].
  - rewrite length_insert. congruence.
  - intros z p Hz. rewrite length_insert.
    destruct (decide (z = a)) as [->|Hza].
    + rewrite list_lookup_insert_eq in Hz by (by eapply lookup_lt_Some).
      injection Hz as <-. split; [by eapply lookup_lt_Some|].
      intros _. exists ra, rb'. split_and!; [by apply Hsame|done..].
    + rewrite list_lookup_insert_ne in Hz by done.
      destruct (Hforest _ _ Hz) as [Hp Hrank]. split; [done|].
      intros Hpz. destruct (Hrank Hpz) as (rz & rp & Hrz & Hrp & Hzp).
      assert (z ≠ b) as Hzb by congruence.
      destruct (decide (p = b)) as [->|Hpb].
      * assert (rp = rb) as -> by congruence.
        exists rz, rb'. split_and!; [by apply Hsame|done|lia].
      * exists rz, rp. split_and!; [by apply Hsame..|done].
Qed.

Lemma link_root_of j a b ranks' z rz :
  parents_ j !! a = Some a → parents_ j !! b = Some b → a ≠ b →
  root_of j z rz →
  root_of {| parents_ := <[a := b]> (parents_ j); ranks_ := ranks';
             path_id_ := path_id_ j |} z
    (if bool_decide (rz = a) then b else rz).
Proof.
  intros Ha Hb Hab [d Hz].
  assert (a < length (parents_ j))%nat as Halt by (by eapply lookup_lt_Some).
  induction Hz as [z Hz|d z p rz Hz Hp _ IH].
  - case_bool_decide as Hza; subst.
    + exists 1%nat. econstructor; cbn.
      * by apply list_lookup_insert_eq.
      * done.
      * constructor. cbn. by rewrite list_lookup_insert_ne.
    + exists 0%nat. constructor. cbn. by rewrite list_lookup_insert_ne.
  - destruct IH as [dp IH]. exists (S dp). econstructor; [|done..].
    cbn. rewrite list_lookup_insert_ne; [done|]. congruence.
Qed.

Lemma link_same_tree j j' a b z w rz rw :
  (∀ y ry, root_of j y ry →
           root_of j' y (if bool_decide (ry = a) then b else ry)) →
  a ≠ b → root_of j z rz → root_of j w rw →
  same_tree j' z w ↔ rz = rw ∨ (rz = a ∧ rw = b) ∨ (rz = b ∧ rw = a).
Proof.
  intros Hlink Hab Hz Hw.
  rewrite (same_tree_roots j' z w _ _ (Hlink _ _ Hz) (Hlink _ _ Hw)).
  do 2 case_bool_decide; naive_solver.
Qed.

(** [JoinTrees(x, y)] unites the tree of [x] with the tree of [y] and
    touches no other tree: afterwards two elements are in one tree exactly
    when they were before, or one was with [x] and the other with [y]. The
    forest stays in order. (The ranks are taken below the largest [size_t],
    so that the increment does not wrap.) *)
Theorem JoinTrees_unites fuel j x y :
  forest j →
  Forall (λ rk, 0 ≤ rk < Z.of_nat fuel) (ranks_ j) →
  Forall (λ rk, rk < 2 ^ 64 - 1) (ranks_ j) →
  (x < length (parents_ j))%nat → (y < length (parents_ j))%nat →
  ∃ j', JoinTrees fuel x y j = Some (Ok j') ∧ forest j' ∧
        length (parents_ j') = length (parents_ j) ∧
        ∀ z w, (z < length (parents_ j))%nat → (w < length (parents_ j))%nat →
          (same_tree j' z w ↔
           same_tree j z w ∨ (same_tree j z x ∧ same_tree j w y)
           ∨ (same_tree j z y ∧ same_tree j w x)).
Proof.
  intros Hf Hfuel Hwrap Hx Hy.
  destruct (reaches_total j fuel x Hf Hfuel Hx) as (dx & rx & Hxr & Hdx).
  destruct (FindTree_reaches fuel j dx x rx Hf Hxr Hdx)
    as (j1 & Hfind1 & Hf1 & Hranks1 & Hids1 & Hlen1 & _ & Hroots1).
  assert (Forall (λ rk, 0 ≤ rk < Z.of_nat fuel) (ranks_ j1)) as Hfuel1
    by (by rewrite Hranks1).
  destruct (reaches_total j1 fuel y Hf1 Hfuel1) as (dy & ry & Hyr & Hdy);
    [by rewrite Hlen1|].
  destruct (FindTree_reaches fuel j1 dy y ry Hf1 Hyr Hdy)
    as (j2 & Hfind2 & Hf2 & Hranks2 & Hids2 & Hlen2 & _ & Hroots2).
  assert (∀ z rz, root_of j2 z rz ↔ root_of j z rz) as Hroots.
  { intros z rz. by rewrite Hroots2, Hroots1. }
  assert (root_of j2 x rx) as Hx2 by (apply Hroots; by exists dx).
  assert (root_of j2 y ry) as Hy2 by (apply Hroots2; by exists dy).
  assert (root_of j x rx) as Hxj by (by apply Hroots).
  assert (root_of j y ry) as Hyj by (by apply Hroots).
  assert (∀ z, (z < length (parents_ j))%nat → ∃ rz, root_of j z rz) as Htotal.
  { intros z Hz. destruct (reaches_total j fuel z Hf Hfuel Hz) as (d & r & Hr & _).
    exists r. by exists d. }
  unfold JoinTrees. rewrite Hfind1, Hfind2.
  case_bool_decide as Hne.
  - (* two trees *)
    destruct Hx2 as [dx2 Hx2]. destruct Hy2 as [dy2 Hy2].
    pose proof (reaches_end _ _ _ _ Hx2) as Hrx.
    pose proof (reaches_end _ _ _ _ Hy2) as Hry.
    pose proof Hf2 as [Hlenr2 _].
    destruct (lookup_lt_is_Some_2 (ranks_ j2) rx) as [ra Hra];
      [rewrite <- Hlenr2; by eapply lookup_lt_Some|].
    destruct (lookup_lt_is_Some_2 (ranks_ j2) ry) as [rb Hrb];
      [rewrite <- Hlenr2; by eapply lookup_lt_Some|].
    rewrite Hra, Hrb.
    assert (0 ≤ ra < 2 ^ 64 - 1) as Hra_bound.
    { rewrite Hranks2, Hranks1 in Hra. rewrite Forall_lookup in Hfuel, Hwrap.
      pose proof (Hfuel _ _ Hra). pose proof (Hwrap _ _ Hra). lia. }
    eexists. split; [done|].
    destruct (decide (ra < rb)) as [Hlt|Hge].
    + rewrite (bool_decide_eq_true_2 (ra < rb)) by done.
      rewrite (bool_decide_eq_false_2 (ra = rb)) by lia.
      split_and!.
      * apply link_forest; try done. exists ra, rb, rb. split_and!; (done || lia).
      * cbn. rewrite length_insert. congruence.
      * intros z w Hz Hw.
        destruct (Htotal z Hz) as [rz Hrz]. destruct (Htotal w Hw) as [rw Hrw].
        rewrite (link_same_tree j2 _ rx ry z w rz rw); try done;
          [|intros; by apply link_root_of|by apply Hroots..].
        rewrite (same_tree_roots j z w rz rw), (same_tree_roots j z x rz rx),
          (same_tree_roots j w y rw ry), (same_tree_roots j z y rz ry),
          (same_tree_roots j w x rw rx) by done.
        naive_solver.
    + rewrite (bool_decide_eq_false_2 (ra < rb)) by done.
      split_and!.
      * apply link_forest; try done.
        -- case_bool_decide; [by rewrite length_insert|done].
        -- intros z rz Hz Hrz. case_bool_decide; [|done].
           by rewrite list_lookup_insert_ne.
        -- exists rb, ra. case_bool_decide as Heq.
           ++ exists (ra + 1). split_and!; [done..| |lia|lia].
              rewrite list_lookup_insert_eq by (by eapply lookup_lt_Some).
              f_equal. unfold wrap64. apply Z.mod_small. lia.
           ++ exists ra. split_and!; (done || lia).
      * cbn. rewrite length_insert. congruence.
      * intros z w Hz Hw.
        destruct (Htotal z Hz) as [rz Hrz]. destruct (Htotal w Hw) as [rw Hrw].
        rewrite (link_same_tree j2 _ ry rx z w rz rw); try done;
          [|intros; by apply link_root_of|by apply Hroots..].
        rewrite (same_tree_roots j z w rz rw), (same_tree_roots j z x rz rx),
          (same_tree_roots j w y rw ry), (same_tree_roots j z y rz ry),
          (same_tree_roots j w x rw rx) by done.
        naive_solver.
  - (* one tree already *)
    assert (rx = ry) as <- by (destruct (decide (rx = ry)); [done|by destruct Hne]).
    exists j2. split_and!; [done..|congruence|].
    intros z w Hz Hw. rewrite (same_tree_ext j j2 z w Hroots).
    destruct (Htotal z Hz) as [rz Hrz]. destruct (Htotal w Hw) as [rw Hrw].
    rewrite (same_tree_roots j z w rz rw), (same_tree_roots j z x rz rx),
      (same_tree_roots j w y rw rx), (same_tree_roots j z y rz rx),
      (same_tree_roots j w x rw rx) by done.
    naive_solver.
Qed.
End joiner_union.

Lemma chain_and_single_forest : forest chain_and_single.
Proof.
  split; [done|]. intros x parent Hx.
  do 4 (destruct x as [|x]; [injection Hx as <-; cbn; split; [lia|];
                             intros ?; try done; eauto 10 with lia|]).
  done.
Qed.

Lemma FindTree_root_witness :
  ∃ j' r, FindTree 3 2 chain_and_single = Some (Ok (j', r)) ∧
          root_of chain_and_single 2 r ∧ forest j' ∧
          ranks_ j' = ranks_ chain_and_single ∧ parents_ j' !! 2%nat = Some r ∧
          (∀ y ry, root_of j' y ry ↔ root_of chain_and_single y ry).
Proof.
  refine (proj1 (FindTree_root 3 chain_and_single 2 chain_and_single_forest _) _).
  - repeat constructor; cbn; lia.
  - cbn. lia.
Defined.

Lemma JoinTrees_unites_witness :
  ∃ j', JoinTrees 3 2 3 chain_and_single = Some (Ok j') ∧ forest j' ∧
        length (parents_ j') = length (parents_ chain_and_single) ∧
        ∀ z w, (z < length (parents_ chain_and_single))%nat →
               (w < length (parents_ chain_and_single))%nat →
          (same_tree j' z w ↔
           same_tree chain_and_single z w
           ∨ (same_tree chain_and_single z 2 ∧ same_tree chain_and_single w 3)
           ∨ (same_tree chain_and_single z 3 ∧ same_tree chain_and_single w 2)).
Proof.
  apply (JoinTrees_unites 3 chain_and_single 2 3).
  - exact chain_and_single_forest.
  - repeat constructor; cbn; lia.
  - repeat constructor; cbn; lia.
  - cbn. lia.
  - cbn. lia.
Defined.

Section joiner_init.
Implicit Types (j : TranscriptToGeneJoiner) (paths : list (N * N)).

Lemma Init_loop_spec paths k j :
  (k + length paths ≤ length (parents_ j))%nat →
  length (ranks_ j) = length (parents_ j) →
  ∃ j', Init_loop paths k j = Ok (j', (k + length paths)%nat) ∧
    length (parents_ j') = length (parents_ j) ∧
    length (ranks_ j') = length (ranks_ j) ∧
    (∀ x, (k ≤ x < k + length paths)%nat →
          parents_ j' !! x = Some x ∧ ranks_ j' !! x = Some 0) ∧
    (∀ x, ¬ (k ≤ x < k + length paths)%nat →
          parents_ j' !! x = parents_ j !! x ∧ ranks_ j' !! x = ranks_ j !! x) ∧
    (∀ q, (∀ p, p ∈ paths → p.1 ≠ q ∧ p.2 ≠ q) →
          path_id_ j' !! q = path_id_ j !! q) ∧
    (∀ i p q, paths !! i = Some p → p.1 = q ∨ p.2 = q →
       (∀ i' p', paths !! i' = Some p' → (i < i')%nat → p'.1 ≠ q ∧ p'.2 ≠ q) →
       path_id_ j' !! q = Some (k + i)%nat).
Proof.
  revert k j. induction paths as [|p ps IH]; intros k j Hk Hlen.
  - exists j. cbn [Init_loop length]. rewrite Nat.add_0_r.
    split_and!; try done; intros x ?; lia.
  - cbn [Init_loop length] in *. unfold MakeSet. cbn [parents_ ranks_ path_id_].
    rewrite !bool_decide_eq_true_2 by lia. cbn.
    set (j1 := {| parents_ := <[k:=k]> (parents_ j);
                  ranks_ := <[k:=0]> (ranks_ j);
                  path_id_ := <[p.2:=k]> (<[p.1:=k]> (path_id_ j)) |}).
    destruct (IH (S k) j1) as (j' & Hrun & Hlp & Hlr & Hin & Hout & Hids & Hid).
    { subst j1. cbn. rewrite length_insert. lia. }
    { subst j1. cbn. rewrite !length_insert. done. }
    exists j'. rewrite Hrun. split_and!.
    + do 2 f_equal. lia.
    + rewrite Hlp. subst j1. cbn. by rewrite length_insert.
    + rewrite Hlr. subst j1. cbn. by rewrite length_insert.
    + intros x Hx. destruct (decide (x = k)) as [->|Hxk].
      * destruct (Hout k) as [-> ->]; [lia|]. subst j1. cbn.
        rewrite !list_lookup_insert_eq by lia. done.
      * apply Hin. lia.
    + intros x Hx. destruct (Hout x) as [-> ->]; [lia|]. subst j1. cbn.
      rewrite !list_lookup_insert_ne by lia. done.
    + intros q Hq. rewrite Hids.
      * destruct (Hq p) as [? ?]; [left|]. subst j1. cbn.
        by rewrite !lookup_insert_ne.
      * intros p' Hp'. apply Hq. by right.
    + intros i p' q Hi Hq Hlater. destruct i as [|i].
      * injection Hi as <-. rewrite Hids.
        -- subst j1. cbn. rewrite Nat.add_0_r.
           destruct (decide (p.2 = q)) as [<-|Hne].
           ++ by rewrite lookup_insert_eq.
           ++ destruct Hq as [<-|]; [|done].
              rewrite lookup_insert_ne by done. by rewrite lookup_insert_eq.
        -- intros p' [i' Hi']%list_elem_of_lookup_1.
           apply (Hlater (S i') p'); [done|lia].
      * cbn in Hi. rewrite (Hid i p' q Hi Hq).
        -- f_equal. lia.
        -- intros i' p'' Hi' Hlt. apply (Hlater (S i') p''); [done|lia].
Qed.

Lemma path_pointers_elem paths p :
  p ∈ paths → p.1 ∈ path_pointers paths ∧ p.2 ∈ path_pointers paths.
Proof.
  unfold path_pointers. induction paths as [|c paths IH]; [by intros ?%elem_of_nil|].
  intros [->|Hin]%elem_of_cons; cbn.
  - set_solver.
  - destruct (IH Hin). set_solver.
Qed.

Lemma Init_spec paths j :
  ∃ j', Init paths j = Ok j' ∧
    parents_ j' = seq 0 (length paths) ∧
    ranks_ j' = replicate (length paths) 0 ∧
    (∀ q, (∀ p, p ∈ paths → p.1 ≠ q ∧ p.2 ≠ q) →
          path_id_ j' !! q = path_id_ j !! q) ∧
    (∀ i p q, paths !! i = Some p → p.1 = q ∨ p.2 = q →
       (∀ i' p', paths !! i' = Some p' → (i < i')%nat → p'.1 ≠ q ∧ p'.2 ≠ q) →
       path_id_ j' !! q = Some i).
Proof.
  unfold Init.
  destruct (Init_loop_spec paths 0
              {| parents_ := resize (length paths) 0%nat (parents_ j);
                 ranks_ := resize (length paths) 0 (ranks_ j);
                 path_id_ := path_id_ j |})
    as (j' & Hrun & Hlp & Hlr & Hin & _ & Hids & Hid).
  { cbn. rewrite length_resize. lia. }
  { cbn. by rewrite !length_resize. }
  cbn [parents_ ranks_ path_id_] in *. rewrite length_resize in Hlp. rewrite length_resize in Hlr.
  exists j'. rewrite Hrun. cbn. rewrite bool_decide_eq_true_2 by done.
  split_and!; try done.
  - apply list_eq. intros x. destruct (decide (x < length paths)%nat) as [Hx|Hx].
    + rewrite lookup_seq_lt by done. apply Hin. lia.
    + rewrite !lookup_ge_None_2; [done|rewrite length_seq; lia|lia].
  - apply list_eq. intros x. destruct (decide (x < length paths)%nat) as [Hx|Hx].
    + rewrite lookup_replicate_2 by done. apply Hin. lia.
    + rewrite !lookup_ge_None_2; [done|rewrite length_replicate; lia|lia].
Qed.

(** [Init] never fails, whatever the joiner held before: no index leaves the
    resized vectors and the closing [VERIFY_MSG] holds. Afterwards there is
    one number per path, each number is its own parent with rank 0, so the
    forest is in order and two numbers are in one tree only when equal. *)
Theorem Init_singletons paths j :
  ∃ j', Init paths j = Ok j' ∧
    parents_ j' = seq 0 (length paths) ∧
    ranks_ j' = replicate (length paths) 0 ∧
    forest j' ∧
    (∀ x y, (x < length paths)%nat →
            (same_tree j' x y ↔ x = y)).
Proof.
  destruct (Init_spec paths j) as (j' & Hrun & Hp & Hr & _).
  exists j'. split_and!; try done.
  - split.
    + by rewrite Hp, Hr, length_seq, length_replicate.
    + intros x parent. rewrite Hp, length_seq.
      intros [-> ?]%lookup_seq. cbn. split; [lia|done].
  - intros x y Hx.
    assert (∀ z r, root_of j' z r → z = r) as Hroot.
    { intros z r [d Hd]. destruct Hd as [z Hz|d z parent r Hz Hne _]; [done|].
      rewrite Hp in Hz. apply lookup_seq in Hz as [-> _]. by destruct Hne. }
    split.
    + intros (r & ->%Hroot & ->%Hroot). done.
    + intros <-. exists x. split; exists 0%nat; constructor;
        rewrite Hp; by apply lookup_seq_lt.
Qed.

(** After [Init] on a container whose pointers are pairwise different,
    [GetPathId] answers the position of the path in the container, for the
    path and for its conjugate alike, and enters nothing new. *)
Theorem Init_path_ids paths j i p :
  NoDup (path_pointers paths) → paths !! i = Some p →
  ∃ j', Init paths j = Ok j' ∧
        GetPathId p.1 j' = (j', i) ∧ GetPathId p.2 j' = (j', i).
Proof.
  intros Hnd Hi.
  destruct (Init_spec paths j) as (j' & Hrun & _ & _ & _ & Hid).
  exists j'. split; [done|].
  assert (∀ q, p.1 = q ∨ p.2 = q →
               ∀ i' p', paths !! i' = Some p' → (i < i')%nat →
                        p'.1 ≠ q ∧ p'.2 ≠ q) as Hlater.
  { intros q Hq i' p' Hi' Hlt.
    assert (∀ k a b, NoDup (path_pointers a) → a !! k = Some b →
              ∀ k' b', a !! k' = Some b' → (k < k')%nat →
                b.1 ≠ b'.1 ∧ b.1 ≠ b'.2 ∧ b.2 ≠ b'.1 ∧ b.2 ≠ b'.2) as Hsep.
    { clear. intros k a. revert k. induction a as [|c a IH]; intros k b Hnd Hk k' b' Hk' Hlt.
      - by rewrite lookup_nil in Hk.
      - unfold path_pointers in Hnd. cbn in Hnd.
        apply NoDup_cons in Hnd as [Hc1 Hnd]. apply NoDup_cons in Hnd as [Hc2 Hnd].
        destruct k' as [|k']; [lia|]. cbn in Hk'.
        destruct k as [|k].
        + injection Hk as <-.
          destruct (path_pointers_elem a b') as [H1 H2];
            [by eapply list_elem_of_lookup_2|].
          rewrite not_elem_of_cons in Hc1. destruct Hc1 as [_ Hc1].
          split_and!; intros Heq; rewrite Heq in *; done.
        + cbn in Hk. apply (IH k b Hnd Hk k' b' Hk'). lia. }
    destruct (Hsep i paths p Hnd Hi i' p' Hi' Hlt) as (? & ? & ? & ?).
    destruct Hq as [<-|<-]; split; congruence. }
  unfold GetPathId.
  rewrite (Hid i p p.1 Hi (or_introl eq_refl) (Hlater _ (or_introl eq_refl))).
  rewrite (Hid i p p.2 Hi (or_intror eq_refl) (Hlater _ (or_intror eq_refl))).
  done.
Qed.
End joiner_init.

Lemma Init_path_ids_witness :
  ∃ j', Init three_paths chain_and_single = Ok j' ∧
        GetPathId 20%N j' = (j', 1%nat) ∧ GetPathId 21%N j' = (j', 1%nat).
Proof.
  apply (Init_path_ids three_paths chain_and_single 1 (20, 21)%N).
  - unfold three_paths, path_pointers. cbn. repeat (apply NoDup_cons; split; [set_solver|]).
    apply NoDup_nil_2.
  - reflexivity.
Defined.
